(** * flask-gallery: the scan / parse / cache pipeline of [app.py]

    A shallow embedding of [app.py] and the properties of its folder-name
    parser, directory scanner, album ordering, catalog cache, media
    resolver and date filter.

    Python strings are sequences of Unicode code points; they are modelled
    as lists of code points, so that [\d], [\s], [str.strip] and string
    comparison keep their Unicode meaning. *)

From Stdlib Require Import String Ascii.
From Stdlib Require Import List NArith ZArith QArith Lia Bool.
From Stdlib Require Import Sorting.Sorted Sorting.Permutation.
Import ListNotations.

Set Warnings "-register-all".

Local Open Scope N_scope.

(** ** Strings *)

Definition str := list N.

(** String literals of this file are written in UTF-8; [U] decodes them to
    code points. *)
Fixpoint utf8_go (bs : list N) (need : nat) (acc : N) : str :=
  match bs with
  | [] => []
  | b :: rest =>
      match need with
      | O =>
          if b <? 128 then b :: utf8_go rest 0 0
          else if b <? 224 then utf8_go rest 1 (b - 192)
          else if b <? 240 then utf8_go rest 2 (b - 224)
          else utf8_go rest 3 (b - 240)
      | S O => (acc * 64 + (b - 128)) :: utf8_go rest 0 0
      | S n => utf8_go rest n (acc * 64 + (b - 128))
      end
  end.

Definition U (s : string) : str :=
  utf8_go (map N_of_ascii (list_ascii_of_string s)) 0 0.

Definition str_eqb (a b : str) : bool :=
  if list_eq_dec N.eq_dec a b then true else false.

(** Python compares strings code point by code point. *)
Fixpoint str_ltb (a b : str) : bool :=
  match a, b with
  | _, [] => false
  | [], _ :: _ => true
  | x :: a', y :: b' => (x <? y) || ((x =? y) && str_ltb a' b')
  end.

Definition str_leb (a b : str) : bool := negb (str_ltb b a).

(** [Py_UNICODE_ISSPACE]: the code points that [str.strip()] removes and
    that [\s] matches in a [str] pattern. *)
Definition is_space (c : N) : bool :=
  ((0x9 <=? c) && (c <=? 0xD)) || ((0x1C <=? c) && (c <=? 0x20))
  || (c =? 0x85) || (c =? 0xA0) || (c =? 0x1680)
  || ((0x2000 <=? c) && (c <=? 0x200A))
  || (c =? 0x2028) || (c =? 0x2029) || (c =? 0x202F) || (c =? 0x205F)
  || (c =? 0x3000).

(** The code points of general category Nd (Unicode 14.0, the table of
    CPython 3.11), each entry the digit zero of a run of ten.  [\d] matches
    exactly these and [int] reads them with their decimal value. *)
Definition decimal_zeros : list N :=
  [ 0x30; 0x660; 0x6F0; 0x7C0; 0x966; 0x9E6; 0xA66; 0xAE6; 0xB66; 0xBE6;
    0xC66; 0xCE6; 0xD66; 0xDE6; 0xE50; 0xED0; 0xF20; 0x1040; 0x1090; 0x17E0;
    0x1810; 0x1946; 0x19D0; 0x1A80; 0x1A90; 0x1B50; 0x1BB0; 0x1C40; 0x1C50;
    0xA620; 0xA8D0; 0xA900; 0xA9D0; 0xA9F0; 0xAA50; 0xABF0; 0xFF10; 0x104A0;
    0x10D30; 0x11066; 0x110F0; 0x11136; 0x111D0; 0x112F0; 0x11450; 0x114D0;
    0x11650; 0x116C0; 0x11730; 0x118E0; 0x11950; 0x11C50; 0x11D50; 0x11DA0;
    0x16A60; 0x16AC0; 0x16B50; 0x1D7CE; 0x1D7D8; 0x1D7E2; 0x1D7EC; 0x1D7F6;
    0x1E140; 0x1E2F0; 0x1E950; 0x1FBF0 ].

Definition decimal_value (c : N) : option N :=
  match find (fun z => (z <=? c) && (c <? z + 10)) decimal_zeros with
  | Some z => Some (c - z)
  | None => None
  end.

Definition is_digit (c : N) : bool :=
  match decimal_value c with Some _ => true | None => false end.

Fixpoint lstrip (p : N -> bool) (s : str) : str :=
  match s with
  | c :: s' => if p c then lstrip p s' else s
  | [] => []
  end.

Definition rstrip (p : N -> bool) (s : str) : str := rev (lstrip p (rev s)).

(** [s.strip()] *)
Definition strip (s : str) : str := rstrip is_space (lstrip is_space s).

(** [s.strip(chars)] *)
Definition strip_chars (chars s : str) : str :=
  let p c := existsb (N.eqb c) chars in rstrip p (lstrip p s).

Definition is_empty {A} (l : list A) : bool :=
  match l with [] => true | _ :: _ => false end.

(** ** Calendar dates: [datetime.date] *)

Record date := mkdate { year : Z; month : Z; day : Z }.

Definition is_leap (y : Z) : bool :=
  ((y mod 4 =? 0) && negb (y mod 100 =? 0) || (y mod 400 =? 0))%Z.

Definition days_in_month (y m : Z) : Z :=
  (if m =? 2 then (if is_leap y then 29 else 28)
   else if (m =? 4) || (m =? 6) || (m =? 9) || (m =? 11) then 30 else 31)%Z.

(** [dt.date(year, month, day)]; [None] stands for the [ValueError] raised
    outside [MINYEAR..MAXYEAR], 1..12 and 1..days_in_month. *)
Definition dt_date (y m d : Z) : option date :=
  (if (1 <=? y) && (y <=? 9999) && (1 <=? m) && (m <=? 12)
      && (1 <=? d) && (d <=? days_in_month y m)
   then Some (mkdate y m d) else None)%Z.

(** [int(s)] on the only strings the captures [\d{4}] and [\d{1,2}] can
    hold: runs of decimal digits.  [None] stands for [ValueError]. *)
Fixpoint int_acc (acc : Z) (s : str) : option Z :=
  match s with
  | [] => Some acc
  | c :: s' =>
      match decimal_value c with
      | Some v => int_acc (acc * 10 + Z.of_N v) s'
      | None => None
      end
  end.

Definition int (s : str) : option Z :=
  match s with [] => None | _ :: _ => int_acc 0 s end.

Definition _to_date (y m : str) (d : option str) : option date :=
  match int y with
  | None => None
  | Some year =>
      match int m with
      | None => None
      | Some month =>
          match (match d with
                 | Some ds => if is_empty ds then Some 1%Z else int ds
                 | None => Some 1%Z
                 end) with
          | None => None
          | Some day => dt_date year month day
          end
      end
  end.

(** ** Regular expressions: the fragment of [re] used by the patterns

    A backtracking matcher in continuation-passing style: the continuation
    is the rest of the pattern, alternatives are tried in the priority
    order of [re] and the first success wins.  The state is the text
    before the cursor (reversed) and the text after it. *)

Inductive group_name := Gtitle | Gy | Gm | Gd.

Record groupdict := mkgroups
  { g_title : option str; g_y : option str; g_m : option str; g_d : option str }.

Definition no_groups : groupdict := mkgroups None None None None.

Definition set_group (g : group_name) (v : str) (gd : groupdict) : groupdict :=
  match g with
  | Gtitle => mkgroups (Some v) (g_y gd) (g_m gd) (g_d gd)
  | Gy => mkgroups (g_title gd) (Some v) (g_m gd) (g_d gd)
  | Gm => mkgroups (g_title gd) (g_y gd) (Some v) (g_d gd)
  | Gd => mkgroups (g_title gd) (g_y gd) (g_m gd) (Some v)
  end.

Inductive regex :=
| Bol                                   (* ^ *)
| Eol                                   (* $ *)
| Chr (cls : N -> bool)                 (* one code point of a class *)
| Rep (cls : N -> bool) (lo : nat) (hi : option nat) (greedy : bool)
                                        (* cls{lo,hi}, cls*, cls+? *)
| Opt (r : regex)                       (* (?:r)? *)
| Grp (g : group_name) (r : regex)      (* (?P<g>r) *)
| Seq (r1 r2 : regex).

Infix ";;" := Seq (at level 61, right associativity).

(** A match object: where the match ended and what the groups hold. *)
Record match_obj := mkmatch { m_before : str; m_after : str; m_groups : groupdict }.

Definition room (hi : option nat) : bool :=
  match hi with Some O => false | _ => true end.

Definition dec (hi : option nat) : option nat :=
  match hi with Some n => Some (pred n) | None => None end.

Fixpoint rep {A} (cls : N -> bool) (greedy : bool) (lo : nat) (hi : option nat)
    (b s : str) (k : str -> str -> option A) : option A :=
  if greedy then
    match (match s with
           | c :: s' =>
               if cls c && room hi
               then rep cls greedy (pred lo) (dec hi) (c :: b) s' k else None
           | [] => None
           end) with
    | Some x => Some x
    | None => match lo with O => k b s | S _ => None end
    end
  else
    match (match lo with O => k b s | S _ => None end) with
    | Some x => Some x
    | None =>
        match s with
        | c :: s' =>
            if cls c && room hi
            then rep cls greedy (pred lo) (dec hi) (c :: b) s' k else None
        | [] => None
        end
    end.

Definition cont := str -> str -> groupdict -> option match_obj.

Fixpoint run (r : regex) (b s : str) (gd : groupdict) (k : cont) : option match_obj :=
  match r with
  | Bol => match b with [] => k b s gd | _ :: _ => None end
  | Eol =>
      match s with
      | [] => k b s gd
      | [c] => if c =? 10 then k b s gd else None
      | _ => None
      end
  | Chr cls =>
      match s with
      | c :: s' => if cls c then k (c :: b) s' gd else None
      | [] => None
      end
  | Rep cls lo hi greedy => rep cls greedy lo hi b s (fun b' s' => k b' s' gd)
  | Opt r1 =>
      match run r1 b s gd k with
      | Some x => Some x
      | None => k b s gd
      end
  | Grp g r1 =>
      run r1 b s gd (fun b' s' gd' =>
        k b' s' (set_group g (firstn (length s - length s') s) gd'))
  | Seq r1 r2 => run r1 b s gd (fun b' s' gd' => run r2 b' s' gd' k)
  end.

Definition accept : cont := fun b s gd => Some (mkmatch b s gd).

(** [pat.match(s)] *)
Definition re_match (pat : regex) (s : str) : option match_obj :=
  run pat [] s no_groups accept.

(** [pat.sub("", s)]: every match, found left to right, is deleted.  The
    fuel is the number of cursor positions, so it never runs out. *)
Definition step_over (continue : str -> str -> str) (b s : str) : str :=
  match s with
  | [] => []
  | c :: s' => c :: continue (c :: b) s'
  end.

Fixpoint sub_from (fuel : nat) (pat : regex) (b s : str) : str :=
  match fuel with
  | O => s
  | S fuel' =>
      match run pat b s no_groups accept with
      | Some m =>
          if (length (m_after m) <? length s)%nat
          then sub_from fuel' pat (m_before m) (m_after m)
          else step_over (sub_from fuel' pat) b s
      | None => step_over (sub_from fuel' pat) b s
      end
  end.

Definition re_sub_empty (pat : regex) (s : str) : str :=
  sub_from (S (length s)) pat [] s.

(** ** The patterns of [app.py] *)

Definition lit (c : N) : N -> bool := N.eqb c.
Definition dot (c : N) : bool := negb (c =? 10).
Definition date_sep (c : N) : bool := (c =? 45) || (c =? 47) || (c =? 46).

Definition nian : N := 0x5E74.  (* 年 *)
Definition yue : N := 0x6708.   (* 月 *)
Definition ri : N := 0x65E5.    (* 日 *)

Definition ws : regex := Rep is_space 0 None true.          (* \s* *)
Definition title_grp : regex := Grp Gtitle (Rep dot 1 None false). (* (?P<title>.+?) *)
Definition y4 : regex := Grp Gy (Rep is_digit 4 (Some 4%nat) true). (* (?P<y>\d{4}) *)
Definition m12 : regex := Grp Gm (Rep is_digit 1 (Some 2%nat) true). (* (?P<m>\d{1,2}) *)
Definition d12 : regex := Grp Gd (Rep is_digit 1 (Some 2%nat) true). (* (?P<d>\d{1,2}) *)

(** [(?P<y>\d{4})\s*年\s*(?P<m>\d{1,2})\s*月(?:\s*(?P<d>\d{1,2})\s*日)?] *)
Definition cn_date : regex :=
  y4 ;; ws ;; Chr (lit nian) ;; ws ;; m12 ;; ws ;; Chr (lit yue) ;;
  Opt (ws ;; d12 ;; ws ;; Chr (lit ri)).

(** [(?P<y>\d{4})[-/.](?P<m>\d{1,2})(?:[-/.](?P<d>\d{1,2}))?] *)
Definition iso_date : regex :=
  y4 ;; Chr date_sep ;; m12 ;; Opt (Chr date_sep ;; d12).

Definition cn_title_first : regex := Bol ;; title_grp ;; ws ;; cn_date ;; Eol.
Definition cn_date_first : regex := Bol ;; cn_date ;; ws ;; title_grp ;; Eol.
Definition iso_title_first : regex := Bol ;; title_grp ;; ws ;; iso_date ;; Eol.
Definition iso_date_first : regex := Bol ;; iso_date ;; ws ;; title_grp ;; Eol.

Definition _cn_patterns : list regex := [cn_title_first; cn_date_first].
Definition _iso_patterns : list regex := [iso_title_first; iso_date_first].

(** ** [parse_title_date] *)

Definition or_empty (o : option str) : str :=
  match o with Some s => s | None => [] end.

(** The body of [if m:] for the pattern [pat] that matched [name].  The
    four patterns bind [y] and [m] in every match, so [gd["y"]] and
    [gd["m"]] are never [None]. *)
Definition on_match (pat : regex) (name : str) (gd : groupdict) : str * option date :=
  let title := strip (or_empty (g_title gd)) in
  let date := _to_date (or_empty (g_y gd)) (or_empty (g_m gd)) (g_d gd) in
  if is_empty title then
    let t := strip_chars (U "-_ ·，, ") (re_sub_empty pat name) in
    (if is_empty t then name else t, date)
  else (title, date).

Fixpoint parse_with (pats : list regex) (name : str) : str * option date :=
  match pats with
  | [] => (name, None)
  | pat :: rest =>
      match re_match pat name with
      | Some m => on_match pat name (m_groups m)
      | None => parse_with rest name
      end
  end.

Definition parse_title_date (folder_name : str) : str * option date :=
  parse_with (_cn_patterns ++ _iso_patterns) (strip folder_name).

(** ** Data model *)

Module Album.
Record t := mk
  { category : str;           (* name of the category folder *)
    folder : str;             (* raw name of the album folder *)
    title : str;              (* title parsed from [folder] *)
    date : option date;       (* date parsed from [folder] *)
    rel_dir : str;            (* path relative to the images root *)
    images : list str }.      (* image file names *)

Definition cover_relfile (a : t) : option str :=
  match images a with
  | i :: _ => Some (rel_dir a ++ U "/" ++ i)
  | [] => None
  end.
End Album.

Module Category.
Record t := mk
  { name : str;
    rel_dir : str;
    albums : list Album.t }.

Definition total_albums (c : t) : nat := length (albums c).

Definition total_images (c : t) : nat :=
  fold_right (fun a n => (length (Album.images a) + n)%nat) 0%nat (albums c).

Fixpoint first_cover (l : list Album.t) : option str :=
  match l with
  | [] => None
  | a :: l' =>
      match Album.cover_relfile a with
      | Some c => if is_empty c then first_cover l' else Some c
      | None => first_cover l'
      end
  end.

Definition cover_relfile (c : t) : option str := first_cover (albums c).
End Category.

(** ** The file system

    Paths are POSIX paths: a slash separates components and a backslash is
    an ordinary character of a name.  The tree holds the named entries as
    [Path.iterdir], [is_dir], [is_file] and [exists] see them once symbolic
    links are followed; [Special] is an entry that is neither a regular
    file nor a directory.  Paths are absolute and held as their list of
    components.  The tree holds what the system stores: the path of an
    entry is one the system accepts (names that can be encoded, without
    NUL, of at most [NAME_MAX] bytes, on a path shorter than [PATH_MAX]). *)

Inductive node :=
| File
| Special
| Dir (entries : list (str * node)).

Definition path := list str.

Definition is_dir (n : node) : bool :=
  match n with Dir _ => true | _ => false end.

Definition is_file (n : node) : bool :=
  match n with File => true | _ => false end.

Fixpoint lookup (n : node) (p : path) : option node :=
  match p with
  | [] => Some n
  | c :: p' =>
      match n with
      | Dir es =>
          match find (fun e => str_eqb (fst e) c) es with
          | Some e => lookup (snd e) p'
          | None => None
          end
      | _ => None
      end
  end.

(** ** Extensions *)

Definition ALLOWED_EXTS : list str :=
  [U ".jpg"; U ".jpeg"; U ".png"; U ".webp"; U ".gif"; U ".bmp"].

(** [name.rfind('.')] *)
Fixpoint rfind_dot (s : str) (i : nat) : option nat :=
  match s with
  | [] => None
  | c :: s' =>
      match rfind_dot s' (S i) with
      | Some j => Some j
      | None => if c =? 46 then Some i else None
      end
  end.

(** [PurePath.suffix] of a final component. *)
Definition suffix (name : str) : str :=
  match rfind_dot name 0 with
  | Some i =>
      if ((0 <? i) && (i <? length name - 1))%nat then skipn i name else []
  | None => []
  end.

(** [str.lower], as far as membership in [ALLOWED_EXTS] can tell: outside
    A-Z no code point has a lower case made of the letters of the allowed
    extensions (U+0130 gives "i" followed by U+0307). *)
Definition lower (s : str) : str :=
  map (fun c => if (65 <=? c) && (c <=? 90) then c + 32 else c) s.

Definition allowed_ext (name : str) : bool :=
  existsb (str_eqb (lower (suffix name))) ALLOWED_EXTS.

(** [allowed_image(p)] for the directory entry [e]. *)
Definition allowed_image (e : str * node) : bool :=
  is_file (snd e) && allowed_ext (fst e).

(** ** Sorting

    [sorted] and [list.sort] are stable; a stable sort has one result, the
    one insertion sort computes.  [leb x y] reads "x may stand before y". *)

Fixpoint insert_by {A} (leb : A -> A -> bool) (x : A) (l : list A) : list A :=
  match l with
  | [] => [x]
  | y :: l' => if leb x y then x :: l else y :: insert_by leb x l'
  end.

Fixpoint sort_by {A} (leb : A -> A -> bool) (l : list A) : list A :=
  match l with
  | [] => []
  | x :: l' => insert_by leb x (sort_by leb l')
  end.

Definition date_ltb (a b : date) : bool :=
  ((year a <? year b)
   || ((year a =? year b)
       && ((month a <? month b)
           || ((month a =? month b) && (day a <? day b)))))%Z.

Definition date_eqb (a b : date) : bool :=
  ((year a =? year b) && (month a =? month b) && (day a =? day b))%Z.

(** The sort key [(a.date is not None, a.date or dt.date(1, 1, 1), a.title)]
    and the comparison of such tuples. *)
Definition sort_key : Type := bool * date * str.

Definition album_key (a : Album.t) : sort_key :=
  match Album.date a with
  | Some d => (true, d, Album.title a)
  | None => (false, mkdate 1 1 1, Album.title a)
  end.

Definition key_ltb (k1 k2 : sort_key) : bool :=
  let '(h1, d1, t1) := k1 in
  let '(h2, d2, t2) := k2 in
  if Bool.eqb h1 h2 then
    if date_eqb d1 d2 then str_ltb t1 t2 else date_ltb d1 d2
  else negb h1.

Definition key_leb (k1 k2 : sort_key) : bool := negb (key_ltb k2 k1).

(** ** Scanning: [_scan_once] *)

(** [UnicodeEncodeError] is a [ValueError] and [NotADirectoryError] an
    [OSError]; [OSError] stands here for one raised with [ENAMETOOLONG]. *)
Inductive exn := NotADirectoryError | ValueError | UnicodeEncodeError | OSError.

Inductive result (A : Type) :=
| Ok (a : A)
| Raise (e : exn).
Arguments Ok {A} a.
Arguments Raise {A} e.

(** [sorted([p for p in d.iterdir() if p.is_dir()])]: siblings compare by
    name. *)
Definition sorted_dirs (es : list (str * node)) : list (str * node) :=
  sort_by (fun a b => str_leb (fst a) (fst b)) (filter (fun e => is_dir (snd e)) es).

Definition entries_of (n : node) : list (str * node) :=
  match n with Dir es => es | _ => [] end.

(** [str(p).replace("\\", "/")] *)
Definition replace_backslash (s : str) : str :=
  map (fun c => if c =? 92 then 47 else c) s.

(** The body of [for album_dir in ...], over the sorted album folders. *)
Fixpoint scan_albums (cat_name : str) (dirs : list (str * node)) : list Album.t :=
  match dirs with
  | [] => []
  | album_dir :: rest =>
      let imgs := sort_by str_leb
                    (map fst (filter allowed_image (entries_of (snd album_dir)))) in
      if is_empty imgs then scan_albums cat_name rest
      else
        let '(title, date) := parse_title_date (fst album_dir) in
        let rel_dir := replace_backslash (cat_name ++ U "/" ++ fst album_dir) in
        Album.mk cat_name (fst album_dir) title date rel_dir imgs
        :: scan_albums cat_name rest
  end.

(** [albums.sort(key=..., reverse=True)] *)
Definition sort_albums (l : list Album.t) : list Album.t :=
  sort_by (fun a b => key_leb (album_key b) (album_key a)) l.

(** The body of [for cat_dir in ...], over the sorted category folders. *)
Fixpoint scan_categories (dirs : list (str * node)) : list Category.t :=
  match dirs with
  | [] => []
  | cat_dir :: rest =>
      let albums :=
        sort_albums (scan_albums (fst cat_dir) (sorted_dirs (entries_of (snd cat_dir)))) in
      if is_empty albums then scan_categories rest
      else Category.mk (fst cat_dir) (fst cat_dir) albums :: scan_categories rest
  end.

Definition _scan_once (fs : node) (IMAGES_ROOT : path) : result (list Category.t) :=
  match lookup fs IMAGES_ROOT with
  | None => Ok []
  | Some (Dir es) =>
      Ok (sort_by (fun a b => str_leb (Category.name a) (Category.name b))
            (scan_categories (sorted_dirs es)))
  | Some _ => Raise NotADirectoryError
  end.

(** ** The cache: [get_catalog]

    [_cache["data"]] holds a reference to a list object.  The store maps
    references to the lists they denote; a scan allocates a new list.
    Times are the values of [time.time()], taken as exact rationals. *)

Definition ref := nat.

Record world := mkworld
  { store : list (list Category.t);
    cache_at : Q;
    cache_data : ref }.

Definition deref (w : world) (r : ref) : list Category.t := nth r (store w) [].

Definition CACHE_TTL_SECONDS : Q := 5.

(** [_cache = {"at": 0.0, "data": []}] *)
Definition initial_world : world := mkworld [[]] 0 0%nat.

Definition expired (now : Q) (w : world) : bool :=
  negb (Qle_bool (now - cache_at w) CACHE_TTL_SECONDS).

Definition get_catalog (fs : node) (IMAGES_ROOT : path) (now : Q) (w : world)
    : result ref * world :=
  if expired now w || is_empty (deref w (cache_data w)) then
    match _scan_once fs IMAGES_ROOT with
    | Ok cats =>
        let r := length (store w) in
        (Ok r, mkworld (store w ++ [cats]) now r)
    | Raise e => (Raise e, w)
    end
  else (Ok (cache_data w), w).

(** ** The Jinja filter: [cn_date] *)

Fixpoint uint_str (u : Decimal.uint) : str :=
  match u with
  | Decimal.Nil => []
  | Decimal.D0 u' => 48 :: uint_str u'
  | Decimal.D1 u' => 49 :: uint_str u'
  | Decimal.D2 u' => 50 :: uint_str u'
  | Decimal.D3 u' => 51 :: uint_str u'
  | Decimal.D4 u' => 52 :: uint_str u'
  | Decimal.D5 u' => 53 :: uint_str u'
  | Decimal.D6 u' => 54 :: uint_str u'
  | Decimal.D7 u' => 55 :: uint_str u'
  | Decimal.D8 u' => 56 :: uint_str u'
  | Decimal.D9 u' => 57 :: uint_str u'
  end.

(** [str(n)] for an integer, as an f-string renders it. *)
Definition str_of_int (z : Z) : str :=
  match Z.to_int z with
  | Decimal.Pos u => uint_str u
  | Decimal.Neg u => 45 :: uint_str u
  end.

(** The filter receives any object with [year], [month], [day]; a
    [dt.date] is always truthy, and so is every value of [date]. *)
Definition jinja_cn_date (d : option date) : str :=
  match d with
  | None => U "未标注日期"
  | Some d =>
      str_of_int (year d) ++ U " 年 " ++ str_of_int (month d) ++ U " 月"
      ++ (if (day d =? 0)%Z then [] else U " " ++ str_of_int (day d) ++ U " 日")
  end.

(** ** Routes *)

Inductive page :=
| Page404
| IndexPage (categories : ref)
| CategoryPage (category : Category.t)
| AlbumPage (category : Category.t) (album : Album.t).

Definition find_category (cats : list Category.t) (category : str) : option Category.t :=
  find (fun c => str_eqb (Category.name c) category) cats.

Definition find_album (c : Category.t) (album : str) : option Album.t :=
  find (fun a => str_eqb (Album.folder a) album) (Category.albums c).

Definition index (fs : node) (IMAGES_ROOT : path) (now : Q) (w : world)
    : result page * world :=
  match get_catalog fs IMAGES_ROOT now w with
  | (Ok cats, w') => (Ok (IndexPage cats), w')
  | (Raise e, w') => (Raise e, w')
  end.

Definition view_category (category : str) (fs : node) (IMAGES_ROOT : path)
    (now : Q) (w : world) : result page * world :=
  match get_catalog fs IMAGES_ROOT now w with
  | (Ok cats, w') =>
      match find_category (deref w' cats) category with
      | None => (Ok Page404, w')
      | Some cat => (Ok (CategoryPage cat), w')
      end
  | (Raise e, w') => (Raise e, w')
  end.

Definition view_album (category album : str) (fs : node) (IMAGES_ROOT : path)
    (now : Q) (w : world) : result page * world :=
  match get_catalog fs IMAGES_ROOT now w with
  | (Ok cats, w') =>
      match find_category (deref w' cats) category with
      | None => (Ok Page404, w')
      | Some cat =>
          match find_album cat album with
          | None => (Ok Page404, w')
          | Some alb => (Ok (AlbumPage cat alb), w')
          end
      end
  | (Raise e, w') => (Raise e, w')
  end.

(** *** Paths: [pathlib], [posixpath] and [werkzeug]'s [safe_join] *)

Definition dotdot : str := [46; 46].

(** [s.split("/")] *)
Fixpoint split_slash (cur : str) (s : str) : list str :=
  match s with
  | [] => [rev cur]
  | c :: s' => if c =? 47 then rev cur :: split_slash [] s' else split_slash (c :: cur) s'
  end.

(** The components [pathlib] keeps: empty ones and ["."] are dropped. *)
Definition parts (s : str) : list str :=
  filter (fun x => negb (is_empty x) && negb (str_eqb x [46])) (split_slash [] s).

Definition is_abs (s : str) : bool :=
  match s with c :: _ => c =? 47 | [] => false end.

(** [root / filename]: an absolute right operand replaces the left one. *)
Definition joinpath (root : path) (filename : str) : path :=
  if is_abs filename then parts filename else root ++ parts filename.

(** *** What [os.stat] and [os.lstat] answer

    A path is handed to the system as bytes ([os.fsencode]: UTF-8 with
    [surrogateescape]).  A path that names an entry of the tree is found.
    For a path that names nothing, the call raises [UnicodeEncodeError]
    when a code point cannot be encoded and [ValueError] when the path
    holds NUL, before the system is asked; the system then answers
    [ENAMETOOLONG] for a path of [PATH_MAX] bytes or more, and otherwise
    walks the path: a name that is missing from a directory gives
    [ENAMETOOLONG] when it is longer than [NAME_MAX] bytes and [ENOENT]
    when not, a step below an entry that is no directory gives [ENOTDIR].
    The limits are those of Linux. *)

Definition NAME_MAX : nat := 255.
Definition PATH_MAX : nat := 4096.

(** A lone surrogate is encoded only when it escapes a byte. *)
Definition escapes_byte (c : N) : bool := (0xDC80 <=? c) && (c <=? 0xDCFF).

Definition encodable (c : N) : bool :=
  negb ((0xD800 <=? c) && (c <=? 0xDFFF)) || escapes_byte c.

Definition utf8_len (c : N) : nat :=
  if c <? 0x80 then 1
  else if c <? 0x800 then 2
  else if escapes_byte c then 1
  else if c <? 0x10000 then 3
  else 4.

Definition bytes_of (s : str) : nat := list_sum (map utf8_len s).

(** The length in bytes of [str(p)] for an absolute path. *)
Definition path_bytes (p : path) : nat :=
  match p with
  | [] => 1
  | _ => list_sum (map (fun c => S (bytes_of c)) p)
  end.

Inductive errno := ENOENT | ENOTDIR | ENAMETOOLONG.

Inductive stat_result :=
| Found (n : node)
| Fails (e : errno)           (* [OSError] with this [errno] *)
| Invalid (e : exn).          (* raised before the system is asked *)

Definition arg_error (p : path) : option exn :=
  if existsb (existsb (fun c => negb (encodable c))) p then Some UnicodeEncodeError
  else if existsb (existsb (N.eqb 0)) p then Some ValueError
  else None.

Fixpoint walk_error (n : node) (p : path) : errno :=
  match p with
  | [] => ENOENT
  | c :: p' =>
      match n with
      | Dir es =>
          match find (fun e => str_eqb (fst e) c) es with
          | Some e => walk_error (snd e) p'
          | None => if (NAME_MAX <? bytes_of c)%nat then ENAMETOOLONG else ENOENT
          end
      | _ => ENOTDIR
      end
  end.

Definition stat (fs : node) (p : path) : stat_result :=
  match lookup fs p with
  | Some n => Found n
  | None =>
      match arg_error p with
      | Some e => Invalid e
      | None =>
          if (PATH_MAX <=? path_bytes p)%nat then Fails ENAMETOOLONG
          else Fails (walk_error fs p)
      end
  end.

(** [p.exists()]: [ENOENT] and [ENOTDIR] mean "no", and so does a
    [ValueError]; any other [OSError] is raised. *)
Definition exists_ (fs : node) (p : path) : result bool :=
  match stat fs p with
  | Found _ => Ok true
  | Fails ENAMETOOLONG => Raise OSError
  | Fails _ => Ok false
  | Invalid _ => Ok false
  end.

(** [Path.resolve()], that is [os.path.realpath], where no entry is a
    symbolic link.  The path is walked from the root ["/"], whatever the
    number of slashes it was written with: [".."] steps to the parent, and
    the parent of the root is the root; every other component is looked
    at with [os.lstat], whose [OSError]s are ignored and whose
    [ValueError]s are not. *)
Fixpoint resolve_go (fs : node) (stack : list str) (comps : list str) : result path :=
  match comps with
  | [] => Ok (rev stack)
  | c :: rest =>
      if str_eqb c dotdot then resolve_go fs (tl stack) rest
      else
        match stat fs (rev (c :: stack)) with
        | Invalid e => Raise e
        | _ => resolve_go fs (c :: stack) rest
        end
  end.

Definition resolve (fs : node) (p : path) : result path := resolve_go fs [] p.

(** [p.relative_to(root)]; [None] stands for [ValueError]. *)
Fixpoint relative_to (p root : path) {struct root} : option path :=
  match root with
  | [] => Some p
  | r :: root' =>
      match p with
      | c :: p' => if str_eqb c r then relative_to p' root' else None
      | [] => None
      end
  end.

(** [p.name] *)
Definition name_of (p : path) : str := last p [].

(** [str(p)] for a relative path. *)
Fixpoint join_slash (l : list str) : str :=
  match l with
  | [] => []
  | [x] => x
  | x :: l' => x ++ 47 :: join_slash l'
  end.

Definition str_of_rel (p : path) : str :=
  match p with [] => [46] | _ => join_slash p end.

(** [posixpath.normpath], on the components of a relative path. *)
Fixpoint normpath_go (new_comps : list str) (comps : list str) : list str :=
  match comps with
  | [] => rev new_comps
  | comp :: rest =>
      if is_empty comp || str_eqb comp [46] then normpath_go new_comps rest
      else if negb (str_eqb comp dotdot) then normpath_go (comp :: new_comps) rest
      else
        match new_comps with
        | [] => normpath_go [comp] rest
        | top :: below =>
            if str_eqb top dotdot then normpath_go (comp :: new_comps) rest
            else normpath_go below rest
        end
  end.

(** [safe_join(directory, rel)]: [None] when [rel] is absolute or its
    normal form leaves the directory. *)
Definition safe_join (directory : path) (rel : str) : option path :=
  if is_abs rel then None
  else
    let comps := normpath_go [] (split_slash [] rel) in
    match comps with
    | c :: _ => if str_eqb c dotdot then None else Some (directory ++ comps)
    | [] => Some directory
    end.

(** What a request gets: a 404, a file, or the exception that the view
    lets through. *)
Inductive response :=
| NotFound
| Served (file : path)
| Raises (e : exn).

(** [flask.send_from_directory]: 404 unless the joined path is safe and
    names a regular file. *)
Definition send_from_directory (fs : node) (directory : path) (rel : str) : response :=
  match safe_join directory rel with
  | None => NotFound
  | Some f =>
      match lookup fs f with
      | Some File => Served f
      | _ => NotFound
      end
  end.

(** [media]: [resolve] is outside the [try]; [exists] is called only for
    an allowed extension. *)
Definition media (fs : node) (IMAGES_ROOT : path) (filename : str) : response :=
  match resolve fs (joinpath IMAGES_ROOT filename) with
  | Raise e => Raises e
  | Ok p =>
      match relative_to p IMAGES_ROOT with
      | None => NotFound
      | Some rel_parts =>
          if negb (existsb (str_eqb (lower (suffix (name_of p)))) ALLOWED_EXTS)
          then NotFound
          else
            match exists_ fs p with
            | Raise e => Raises e
            | Ok false => NotFound
            | Ok true =>
                send_from_directory fs IMAGES_ROOT
                  (replace_backslash (str_of_rel rel_parts))
            end
      end
  end.

(** ** Fixtures *)

Definition root1 : path := [U "srv"; U "images"].

Definition fs1 : node :=
  Dir [(U "srv", Dir
    [(U "images", Dir
       [(U "旅行", Dir
          [(U "Z", Dir [(U "z.bmp", File)]);
           (U "2025-08 Hiking", Dir [(U "x.gif", File)]);
           (U "天安门 2025 年 8 月 24 日",
            Dir [(U "b.JPG", File); (U "a.png", File); (U "n.txt", File)]);
           (U "notes", Dir [(U "readme.txt", File)])]);
        (U "drafts", Dir [(U "todo", Dir [(U "list.txt", File)])])]);
     (U "secret.jpg", File)])].

Definition fs_backslash : node :=
  Dir [(U "srv", Dir
    [(U "images", Dir [(U "cat", Dir [(U "a\b", Dir [(U "x.jpg", File)])])])])].

Definition fs_no_root : node := Dir [(U "srv", Dir [(U "app.py", File)])].

Definition times1 : list Q := [1000%Q; 1001%Q; 1002%Q].

Definition fs_empty_root : node :=
  Dir [(U "srv", Dir [(U "images", Dir [])])].

Definition fs_backslash_media : node :=
  Dir [(U "srv", Dir
    [(U "images", Dir
       [(U "a\b.jpg", Dir []);
        (U "a", Dir [(U "b.jpg", File)])])])].

(** ** Vocabulary of the properties *)

(** *** Requests that raise *)

(** What makes [resolve] raise: a code point that cannot be encoded, or
    NUL, in a component of the path. *)
Definition refused (p : path) (e : exn) : Prop :=
  (e = UnicodeEncodeError /\ exists c x, In c p /\ In x c /\ encodable x = false)
  \/ (e = ValueError /\ exists c, In c p /\ In 0 c).

(** *** Orders *)

Definition str_le (a b : str) : Prop := str_leb a b = true.

Definition date_lt (a b : date) : Prop :=
  (year a < year b
   \/ (year a = year b /\ (month a < month b
                           \/ (month a = month b /\ day a < day b))))%Z.

(** The order of the albums of a category, in the words of the
    specification: [album_order a b] reads "[a] may stand before [b]". *)
Definition album_order (a b : Album.t) : Prop :=
  match Album.date a, Album.date b with
  | Some da, Some db =>
      date_lt db da \/ (da = db /\ str_le (Album.title b) (Album.title a))
  | Some _, None => True
  | None, Some _ => False
  | None, None => str_le (Album.title b) (Album.title a)
  end.

Definition album_geb (a b : Album.t) : bool := key_leb (album_key b) (album_key a).

(** *** What a scan builds from one folder *)

Definition images_of (album_dir : str * node) : list str :=
  sort_by str_leb (map fst (filter allowed_image (entries_of (snd album_dir)))).

Definition albums_of (cat_dir : str * node) : list Album.t :=
  sort_albums (scan_albums (fst cat_dir) (sorted_dirs (entries_of (snd cat_dir)))).

(** *** Series of calls *)

(** The world after a series of [get_catalog] calls at the given times. *)
Fixpoint calls (fs : node) (root : path) (times : list Q) (w : world) : world :=
  match times with
  | [] => w
  | t :: ts => calls fs root ts (snd (get_catalog fs root t w))
  end.

(** *** Classes, repetitions and groups *)

Definition all (cls : N -> bool) (s : str) : Prop := Forall (fun c => cls c = true) s.

Definition none (cls : N -> bool) (s : str) : Prop := Forall (fun c => cls c = false) s.

Definition within (hi : option nat) (n : nat) : Prop :=
  match hi with Some h => (n <= h)%nat | None => True end.

(** What the tail begins with stops a greedy repetition. *)
Definition stops (cls : N -> bool) (q : str) : Prop :=
  match q with [] => True | c :: _ => cls c = false end.

Definition space_points : list N :=
  [0x9; 0xA; 0xB; 0xC; 0xD; 0x1C; 0x1D; 0x1E; 0x1F; 0x20; 0x85; 0xA0; 0x1680;
   0x2000; 0x2001; 0x2002; 0x2003; 0x2004; 0x2005; 0x2006; 0x2007; 0x2008;
   0x2009; 0x200A; 0x2028; 0x2029; 0x202F; 0x205F; 0x3000].

Definition get_group (g : group_name) (gd : groupdict) : option str :=
  match g with
  | Gtitle => g_title gd
  | Gy => g_y gd
  | Gm => g_m gd
  | Gd => g_d gd
  end.

Definition group_eqb (g g' : group_name) : bool :=
  match g, g' with
  | Gtitle, Gtitle | Gy, Gy | Gm, Gm | Gd, Gd => true
  | _, _ => false
  end.

Fixpoint binds (g : group_name) (r : regex) : bool :=
  match r with
  | Grp g' r1 => group_eqb g g' || binds g r1
  | Opt r1 => binds g r1
  | Seq r1 r2 => binds g r1 || binds g r2
  | _ => false
  end.

Definition dated (t : str) (Y M : str) (D : option str) : groupdict :=
  mkgroups (Some t) (Some Y) (Some M) D.

(** [yields o G]: the match succeeds and its groups are [G]. *)
Definition yields (o : option match_obj) (G : groupdict) : Prop :=
  exists m, o = Some m /\ m_groups m = G.

Definition set_date (Y M : str) (D : option str) (gd : groupdict) : groupdict :=
  mkgroups (g_title gd) (Some Y) (Some M)
    (match D with Some ds => Some ds | None => g_d gd end).

(** The pattern [dt] reads the text first try, whatever digit-free text
    follows. *)
Definition date_fwd (dt : regex) (txt Y M : str) (D : option str) : Prop :=
  forall rest b gd k G,
    none is_digit rest ->
    (forall b', yields (k b' rest (set_date Y M D gd)) G) ->
    yields (run dt b (txt ++ rest) gd k) G.

(** A pattern that cannot start before a digit. *)
Definition needs_digit (dt : regex) : Prop :=
  forall b s gd k, stops is_digit s -> run dt b s gd k = None.

(** *** Path components *)

(** A well-formed component: not empty, not ".", not ".." and without a
    slash. *)
Definition wf_comp (c : str) : Prop :=
  c <> [] /\ c <> [46] /\ c <> dotdot /\ ~ In 47 c.

(** [normpath] keeps ".." only at the front. *)
Definition front_dotdot (stack : list str) : Prop :=
  exists keep dds, stack = keep ++ dds /\
    Forall (fun c => c <> dotdot) keep /\ Forall (fun c => c = dotdot) dds.

(** *** Titles and date texts *)

Definition blanks (g : str) : Prop := all is_space g.

(** Four digits, and one or two digits. *)
Definition year_digits (s : str) : Prop := all is_digit s /\ length s = 4%nat.

Definition short_digits (s : str) : Prop :=
  all is_digit s /\ (1 <= length s <= 2)%nat.

(** [date_text txt Y M D]: [txt] is a date in one of the two notations,
    written with the year [Y], the month [M] and the optional day [D]. *)
Inductive date_text : str -> str -> str -> option str -> Prop :=
| cn_ym Y g1 g2 M g3 :
    blanks g1 -> blanks g2 -> blanks g3 ->
    date_text (Y ++ g1 ++ nian :: g2 ++ M ++ g3 ++ [yue]) Y M None
| cn_ymd Y g1 g2 M g3 g4 D g5 :
    blanks g1 -> blanks g2 -> blanks g3 -> blanks g4 -> blanks g5 ->
    date_text (Y ++ g1 ++ nian :: g2 ++ M ++ g3 ++ yue :: g4 ++ D ++ g5 ++ [ri])
      Y M (Some D)
| iso_ym Y s1 M :
    date_sep s1 = true -> date_text (Y ++ s1 :: M) Y M None
| iso_ymd Y s1 M s2 D :
    date_sep s1 = true -> date_sep s2 = true ->
    date_text (Y ++ s1 :: M ++ s2 :: D) Y M (Some D).

(** The day a name stands for: 1 when it writes none. *)
Definition day_value (D : option str) : option Z :=
  match D with Some ds => int ds | None => Some 1%Z end.

(** A title the patterns can tell from the date: not empty, free of
    digits and line breaks, without white space at either end. *)
Definition title_ok (t : str) : Prop :=
  t <> [] /\ none is_digit t /\ all dot t /\
  stops is_space t /\ stops is_space (rev t).

(** [\d{4}\s*年] at the beginning of a text. *)
Definition starts_cn_year (s : str) : bool :=
  match s with
  | d1 :: d2 :: d3 :: d4 :: r =>
      is_digit d1 && is_digit d2 && is_digit d3 && is_digit d4
      && match lstrip is_space r with c :: _ => lit nian c | [] => false end
  | _ => false
  end.

(** The text holds no year in the long form. *)
Definition no_cn_year (s : str) : Prop :=
  forall a c, s = a ++ c -> starts_cn_year c = false.

Definition starts_digit (txt : str) : Prop :=
  exists y1 r, txt = y1 :: r /\ is_digit y1 = true.

Definition ends_nonspace (txt : str) : Prop :=
  exists u c, txt = u ++ [c] /\ is_space c = false.

Definition title_okb (t : str) : bool :=
  negb (is_empty t) && forallb (fun c => negb (is_digit c)) t && forallb dot t
  && negb (existsb is_space (firstn 1 t)) && negb (existsb is_space (firstn 1 (rev t))).

Definition year_digitsb (s : str) : bool :=
  forallb is_digit s && (length s =? 4)%nat.

Definition short_digitsb (s : str) : bool :=
  forallb is_digit s && (1 <=? length s)%nat && (length s <=? 2)%nat.

(** *** Names that read in more than one way *)

(** A title as a name holds it next to a date: not empty, on one line and
    without white space at either end. *)
Definition title_shape (t : str) : Prop :=
  t <> [] /\ all dot t /\ stops is_space t /\ stops is_space (rev t).

(** [cn_text txt Y M D]: [txt] is a date in the long form, written with the
    four digits [Y], the one or two digits [M] and, when there is a day,
    the one or two digits [D], with any white space around the numbers. *)
Inductive cn_text : str -> str -> str -> option str -> Prop :=
| cn_text_ym Y g1 g2 M g3 :
    year_digits Y -> short_digits M ->
    blanks g1 -> blanks g2 -> blanks g3 ->
    cn_text (Y ++ g1 ++ nian :: g2 ++ M ++ g3 ++ [yue]) Y M None
| cn_text_ymd Y g1 g2 M g3 g4 D g5 :
    year_digits Y -> short_digits M -> short_digits D ->
    blanks g1 -> blanks g2 -> blanks g3 -> blanks g4 -> blanks g5 ->
    cn_text (Y ++ g1 ++ nian :: g2 ++ M ++ g3 ++ yue :: g4 ++ D ++ g5 ++ [ri])
      Y M (Some D).

(** [iso_text txt Y M D]: [txt] is a date in the numeric form. *)
Inductive iso_text : str -> str -> str -> option str -> Prop :=
| iso_text_ym Y s1 M :
    year_digits Y -> short_digits M -> date_sep s1 = true ->
    iso_text (Y ++ s1 :: M) Y M None
| iso_text_ymd Y s1 M s2 D :
    year_digits Y -> short_digits M -> short_digits D ->
    date_sep s1 = true -> date_sep s2 = true ->
    iso_text (Y ++ s1 :: M ++ s2 :: D) Y M (Some D).

Definition written_date (X : str) : Prop :=
  exists Y M D, cn_text X Y M D \/ iso_text X Y M D.

(** The name also reads as some text on one line, white space and, at its
    end, a date text of the notation [T]: this is what the title-first
    pattern of that notation matches. *)
Definition ends_with_text (T : str -> str -> str -> option str -> Prop) (s : str)
    : Prop :=
  exists p g X Y M D,
    s = p ++ g ++ X /\ p <> [] /\ all dot p /\ blanks g /\ T X Y M D.

(** The name also reads as a date in the long form, white space and some
    text on one line: this is what the long date-first pattern matches. *)
Definition begins_with_cn_date (s : str) : Prop :=
  exists X Y M D g p,
    s = X ++ g ++ p /\ cn_text X Y M D /\ blanks g /\ p <> [] /\ all dot p.

(** What follows a date without a day also reads as a day and some text. *)
Definition cn_day_follows (s : str) : Prop :=
  exists g4 D g5 g p,
    s = g4 ++ D ++ g5 ++ ri :: g ++ p /\
    blanks g4 /\ short_digits D /\ blanks g5 /\ blanks g /\ p <> [] /\ all dot p.

Definition iso_day_follows (s : str) : Prop :=
  exists s2 D g p,
    s = s2 :: D ++ g ++ p /\
    date_sep s2 = true /\ short_digits D /\ blanks g /\ p <> [] /\ all dot p.

(** [\s*(?P<title>.+?)$], the end of the date-first patterns. *)
Definition title_end : cont :=
  fun b s gd => run (ws ;; title_grp ;; Eol) b s gd accept.

(** The last number a date text writes. *)
Definition last_number (M : str) (D : option str) : str :=
  match D with Some ds => ds | None => M end.

(** *** Trees and traces of the further properties *)

Definition fs_two_categories : node :=
  Dir [(U "srv", Dir
    [(U "images", Dir
       [(U "旅行", Dir [(U "Z", Dir [(U "z.bmp", File)])]);
        (U "Work", Dir [(U "2024-01-02 Launch", Dir [(U "a.png", File)])]);
        (U "art", Dir [(U "Sketch", Dir [(U "s.gif", File); (U "t.GIF", File)])])])])].

Definition fs_root_is_file : node :=
  Dir [(U "srv", Dir [(U "images", File)])].

(** The world after the visits of a trace: each one finds the tree in
    some state at some time and calls [get_catalog]. *)
Fixpoint visits (root : path) (trace : list (node * Q)) (w : world) : world :=
  match trace with
  | [] => w
  | (fs, t) :: trace' => visits root trace' (snd (get_catalog fs root t w))
  end.

(** The non-empty catalog of the cache is the scan of a tree of the trace,
    made at the time the cache holds. *)
Definition scanned_in (root : path) (trace : list (node * Q)) (w : world) : Prop :=
  deref w (cache_data w) <> [] ->
  exists fs', In (fs', cache_at w) trace
              /\ _scan_once fs' root = Ok (deref w (cache_data w)).

(** [int(str(z)) == z], as a test. *)
Definition reads_back (z : Z) : bool :=
  match int (str_of_int z) with Some v => (v =? z)%Z | None => false end.

(** *** Calendar dates and trees of the further properties *)

(** A date that [dt.date] can hold. *)
Definition valid_date (dt : date) : Prop :=
  (1 <= year dt <= 9999 /\ 1 <= month dt <= 12
   /\ 1 <= day dt <= days_in_month (year dt) (month dt))%Z.

(** A date of the proleptic Gregorian calendar, in the calendar's own
    words: thirty days has September, April, June and November, February
    has twenty-eight and, in a leap year (a year divisible by 4 and not by
    100, or divisible by 400), twenty-nine. *)
Definition calendar_date (dt : date) : Prop :=
  (1 <= year dt <= 9999 /\ 1 <= month dt <= 12 /\ 1 <= day dt <= 31 /\
   (day dt = 31 ->
    month dt <> 2 /\ month dt <> 4 /\ month dt <> 6 /\ month dt <> 9
    /\ month dt <> 11) /\
   (month dt = 2 -> day dt <= 29) /\
   (month dt = 2 -> day dt = 29 ->
    year dt mod 4 = 0 /\ (year dt mod 100 <> 0 \/ year dt mod 400 = 0)))%Z.

(** What every directory of a file system grants: the names of its
    entries are distinct and are well-formed components. *)
Fixpoint wf_tree (n : node) : Prop :=
  match n with
  | Dir es =>
      NoDup (map fst es) /\ Forall wf_comp (map fst es)
      /\ (fix sub (l : list (str * node)) : Prop :=
            match l with
            | [] => True
            | e :: l' => (let '(_, n') := e in wf_tree n') /\ sub l'
            end) es
  | _ => True
  end.

(** * Properties *)

(** ** Sorting *)

Section Sort.
Context {A : Type} (leb : A -> A -> bool).

Lemma insert_by_In x y l : In y (insert_by leb x l) <-> y = x \/ In y l.
Proof.
  induction l as [|z l IH]; simpl.
  - intuition congruence.
  - destruct (leb x z); simpl; rewrite ?IH; intuition congruence.
Qed.

Lemma sort_by_In y l : In y (sort_by leb l) <-> In y l.
Proof.
  induction l as [|z l IH]; simpl; [tauto|].
  rewrite insert_by_In, IH. intuition congruence.
Qed.

Hypothesis leb_total : forall x y, leb x y = true \/ leb y x = true.
Hypothesis leb_trans : forall x y z, leb x y = true -> leb y z = true -> leb x z = true.

Let le x y := leb x y = true.

Lemma insert_by_sorted x l : Sorted le l -> Sorted le (insert_by leb x l).
Proof.
  induction 1 as [|z l Hs IH Hr]; simpl.
  - repeat constructor.
  - destruct (leb x z) eqn:E.
    + constructor; [constructor; assumption | constructor; exact E].
    + constructor; [exact IH|].
      destruct (leb_total x z) as [C|C]; [congruence|].
      destruct l as [|u l]; simpl.
      * constructor; exact C.
      * destruct (leb x u); constructor; [exact C|].
        inversion Hr; assumption.
Qed.

Lemma sort_by_sorted l : StronglySorted le (sort_by leb l).
Proof.
  apply Sorted_StronglySorted.
  - intros x y z; apply leb_trans.
  - induction l; simpl; [constructor | apply insert_by_sorted; assumption].
Qed.
End Sort.

(** ** Order on strings, dates and sort keys *)

Lemma str_ltb_irrefl a : str_ltb a a = false.
Proof.
  induction a as [|x a IH]; simpl; [reflexivity|].
  rewrite N.ltb_irrefl, N.eqb_refl, IH. reflexivity.
Qed.

Lemma str_ltb_trans a b c :
  str_ltb a b = true -> str_ltb b c = true -> str_ltb a c = true.
Proof.
  revert b c; induction a as [|x a IH]; intros [|y b] [|z c]; simpl;
    try congruence.
  rewrite !orb_true_iff, !andb_true_iff, !N.ltb_lt, !N.eqb_eq.
  intros [H1|[H1 H1']] [H2|[H2 H2']]; subst.
  - left; lia.
  - left; lia.
  - left; lia.
  - right; split; [reflexivity | eapply IH; eassumption].
Qed.

Lemma str_ltb_connex a b :
  str_ltb a b = false -> str_ltb b a = false -> a = b.
Proof.
  revert b; induction a as [|x a IH]; intros [|y b]; simpl; try congruence.
  rewrite !orb_false_iff, !andb_false_iff, !N.ltb_ge, !N.eqb_neq.
  intros [H1 H1'] [H2 H2'].
  assert (x = y) by lia; subst.
  f_equal; apply IH; [destruct H1' | destruct H2']; congruence.
Qed.

Lemma str_leb_total a b : str_leb a b = true \/ str_leb b a = true.
Proof.
  unfold str_leb.
  destruct (str_ltb b a) eqn:E; [right | left; reflexivity].
  destruct (str_ltb a b) eqn:E'; [|reflexivity].
  pose proof (str_ltb_trans _ _ _ E E') as T.
  rewrite str_ltb_irrefl in T; discriminate.
Qed.

Lemma str_leb_trans a b c :
  str_leb a b = true -> str_leb b c = true -> str_leb a c = true.
Proof.
  unfold str_leb; rewrite !negb_true_iff; intros H1 H2.
  destruct (str_ltb c a) eqn:E; [|reflexivity].
  destruct (str_ltb b c) eqn:E'.
  - pose proof (str_ltb_trans _ _ _ E' E); congruence.
  - pose proof (str_ltb_connex _ _ E' H2); subst; congruence.
Qed.

Lemma date_ltb_lt a b : date_ltb a b = true <-> date_lt a b.
Proof.
  unfold date_ltb, date_lt.
  rewrite !orb_true_iff, !andb_true_iff, !orb_true_iff, !andb_true_iff,
    !Z.ltb_lt, !Z.eqb_eq.
  tauto.
Qed.

Lemma date_eqb_eq a b : date_eqb a b = true <-> a = b.
Proof.
  unfold date_eqb; rewrite !andb_true_iff, !Z.eqb_eq.
  destruct a, b; simpl; split.
  - intros [[-> ->] ->]; reflexivity.
  - intros e; inversion e; auto.
Qed.

Lemma date_lt_trichotomy a b : date_lt a b \/ a = b \/ date_lt b a.
Proof.
  destruct a as [y m d], b as [y' m' d']; unfold date_lt; simpl.
  destruct (Z.lt_trichotomy y y') as [?|[?|?]],
    (Z.lt_trichotomy m m') as [?|[?|?]],
    (Z.lt_trichotomy d d') as [?|[?|?]]; subst;
    first [right; left; reflexivity | left; lia | right; right; lia].
Qed.

Lemma date_lt_irrefl a : ~ date_lt a a.
Proof. unfold date_lt; lia. Qed.

Lemma date_lt_trans a b c : date_lt a b -> date_lt b c -> date_lt a c.
Proof. unfold date_lt; lia. Qed.

Lemma album_geb_order a b : album_geb a b = true <-> album_order a b.
Proof.
  unfold album_geb, album_order, album_key, key_leb, key_ltb, str_le, str_leb.
  destruct (Album.date a) as [da|], (Album.date b) as [db|]; simpl;
    try (intuition congruence).
  destruct (date_eqb da db) eqn:E.
  - apply date_eqb_eq in E; subst. split; [tauto|].
    intros [H|[_ H]]; [destruct (date_lt_irrefl _ H) | exact H].
  - assert (da <> db) as N
        by (intros e; apply date_eqb_eq in e; congruence).
    rewrite negb_true_iff. split.
    + intros H. left.
      destruct (date_lt_trichotomy da db) as [L|[L|L]];
        [apply date_ltb_lt in L; congruence | contradiction | exact L].
    + intros [H|[H _]]; [|contradiction].
      destruct (date_ltb da db) eqn:L; [|reflexivity].
      apply date_ltb_lt in L.
      destruct (date_lt_irrefl _ (date_lt_trans _ _ _ H L)).
Qed.

Lemma album_order_total a b : album_order a b \/ album_order b a.
Proof.
  unfold album_order.
  destruct (Album.date a) as [da|], (Album.date b) as [db|]; auto.
  - destruct (date_lt_trichotomy da db) as [L|[L|L]]; subst; auto.
    destruct (str_leb_total (Album.title a) (Album.title b)); auto.
  - destruct (str_leb_total (Album.title a) (Album.title b)); auto.
Qed.

Lemma album_order_trans a b c :
  album_order a b -> album_order b c -> album_order a c.
Proof.
  unfold album_order.
  destruct (Album.date a) as [da|], (Album.date b) as [db|],
    (Album.date c) as [dc|]; try tauto.
  - intros [H1|[-> H1]] [H2|[-> H2]].
    + left; eapply date_lt_trans; eassumption.
    + auto.
    + auto.
    + right; split; [reflexivity | eapply str_leb_trans; eassumption].
  - intros H1 H2; eapply str_leb_trans; eassumption.
Qed.

Lemma sort_albums_sorted l : StronglySorted album_order (sort_albums l).
Proof.
  unfold sort_albums.
  pose proof (sort_by_sorted (fun a b => key_leb (album_key b) (album_key a))) as S.
  eapply StronglySorted_ind with
    (P := fun l => StronglySorted album_order l);
    [constructor | | apply (S)].
  - intros x l' _ IH Hx. constructor; [exact IH|].
    eapply Forall_impl; [|exact Hx]. intros y; apply album_geb_order.
  - intros x y. destruct (album_order_total x y) as [H|H];
      apply album_geb_order in H; auto.
  - intros x y z H1 H2. apply album_geb_order.
    eapply album_order_trans; apply album_geb_order; eassumption.
Qed.

(** ** What a scan builds *)

Lemma scan_albums_In cat dirs a :
  In a (scan_albums cat dirs) ->
  exists d, In d dirs /\ images_of d <> [] /\
    a = Album.mk cat (fst d) (fst (parse_title_date (fst d)))
          (snd (parse_title_date (fst d)))
          (replace_backslash (cat ++ U "/" ++ fst d)) (images_of d).
Proof.
  induction dirs as [|d dirs IH]; simpl; [tauto|].
  fold (images_of d).
  destruct (images_of d) eqn:E; simpl.
  - intros H; destruct (IH H) as (d' & ? & ?); eauto.
  - destruct (parse_title_date (fst d)) as [t dt] eqn:P; simpl.
    intros [H|H].
    + exists d; rewrite E, P; simpl.
      split; [left; reflexivity | split; [discriminate | symmetry; exact H]].
    + destruct (IH H) as (d' & ? & ?); eauto.
Qed.

Lemma scan_categories_In dirs c :
  In c (scan_categories dirs) ->
  exists d, In d dirs /\ albums_of d <> [] /\
    c = Category.mk (fst d) (fst d) (albums_of d).
Proof.
  induction dirs as [|d dirs IH]; simpl; [tauto|].
  fold (albums_of d).
  destruct (albums_of d) eqn:E; simpl.
  - intros H; destruct (IH H) as (d' & ? & ?); eauto.
  - intros [H|H].
    + exists d; rewrite E.
      split; [left; reflexivity | split; [discriminate | symmetry; exact H]].
    + destruct (IH H) as (d' & ? & ?); eauto.
Qed.

Lemma scan_once_In fs root cats c :
  _scan_once fs root = Ok cats -> In c cats ->
  exists d, albums_of d <> [] /\ c = Category.mk (fst d) (fst d) (albums_of d).
Proof.
  unfold _scan_once.
  destruct (lookup fs root) as [[| |es]|]; try discriminate.
  - intros e; inversion e; subst; clear e. rewrite sort_by_In.
    intros H; apply scan_categories_In in H.
    destruct H as (d & _ & ? & ?); eauto.
  - intros e; inversion e; subst; simpl; tauto.
Qed.

Lemma album_of_category d a :
  In a (albums_of d) ->
  exists e, images_of e <> [] /\
    a = Album.mk (fst d) (fst e) (fst (parse_title_date (fst e)))
          (snd (parse_title_date (fst e)))
          (replace_backslash (fst d ++ U "/" ++ fst e)) (images_of e).
Proof.
  unfold albums_of, sort_albums. rewrite sort_by_In.
  intros H; apply scan_albums_In in H. destruct H as (e & _ & ? & ?); eauto.
Qed.

(** ** Album ordering *)

(** C5: within every category of a scan the albums are in descending order
    of the key (has a date, date, title): of two albums the earlier one is
    dated when the later one is, has the later date when both are dated,
    and the greater or equal title when the dates agree or both are
    undated. *)
Theorem albums_sorted_descending fs root cats c :
  _scan_once fs root = Ok cats -> In c cats ->
  StronglySorted album_order (Category.albums c).
Proof.
  intros Hs Hc.
  destruct (scan_once_In _ _ _ _ Hs Hc) as (d & _ & ->); simpl.
  apply sort_albums_sorted.
Qed.

(** On the fixture the category holds the albums of 2025-08-24 and
    2025-08-01 and the undated album "Z", in this order. *)
Lemma albums_sorted_descending_witness :
  exists c,
    _scan_once fs1 root1 = Ok [c] /\
    map (fun a => (Album.date a, Album.title a)) (Category.albums c)
    = [(Some (mkdate 2025 8 24), U "天安门");
       (Some (mkdate 2025 8 1), U "Hiking");
       (None, U "Z")] /\
    StronglySorted album_order (Category.albums c).
Proof.
  eexists. split; [vm_compute; reflexivity|].
  split; [vm_compute; reflexivity|].
  eapply (albums_sorted_descending fs1 root1);
    [vm_compute; reflexivity | left; reflexivity].
Defined.

(** ** Non-empty albums and categories *)

(** ** Relative paths *)

Lemma replace_backslash_id s : ~ In 92 s -> replace_backslash s = s.
Proof.
  induction s as [|c s IH]; simpl; [reflexivity|].
  intros H. destruct (N.eqb_spec c 92) as [->|_]; [tauto|].
  f_equal; apply IH; tauto.
Qed.

(** C10, as the code has it: the relative path of an album is its category
    name, a slash and its folder name with every backslash turned into a
    slash, hence exactly category + "/" + folder when neither name holds a
    backslash; the album's category is the category's name, which is also
    the category's relative path; and the cover is the relative path, a
    slash and the first image. *)
Theorem album_rel_dir fs root cats c a :
  _scan_once fs root = Ok cats -> In c cats -> In a (Category.albums c) ->
  Album.rel_dir a
  = replace_backslash (Album.category a ++ U "/" ++ Album.folder a) /\
  (~ In 92 (Album.category a) -> ~ In 92 (Album.folder a) ->
   Album.rel_dir a = Album.category a ++ U "/" ++ Album.folder a) /\
  Album.category a = Category.name c /\
  Category.rel_dir c = Category.name c /\
  Album.cover_relfile a
  = Some (Album.rel_dir a ++ U "/" ++ hd [] (Album.images a)).
Proof.
  intros Hs Hc Ha.
  destruct (scan_once_In _ _ _ _ Hs Hc) as (d & _ & ->); simpl in *.
  destruct (album_of_category _ _ Ha) as (e & He & ->); simpl.
  repeat split.
  - intros H1 H2. apply replace_backslash_id.
    rewrite !in_app_iff. intros [H|[H|H]]; try tauto.
    vm_compute in H. discriminate H.
  - unfold Album.cover_relfile; simpl.
    destruct (images_of e); [congruence | reflexivity].
Qed.

Lemma album_rel_dir_witness :
  exists c a,
    _scan_once fs1 root1 = Ok [c] /\ hd_error (Category.albums c) = Some a /\
    Album.rel_dir a = U "旅行/天安门 2025 年 8 月 24 日" /\
    Album.rel_dir a = Album.category a ++ U "/" ++ Album.folder a /\
    Album.cover_relfile a = Some (U "旅行/天安门 2025 年 8 月 24 日/a.png").
Proof.
  do 2 eexists. split; [vm_compute; reflexivity|].
  split; [vm_compute; reflexivity|].
  split; [vm_compute; reflexivity|].
  match goal with
  | |- ?r = _ /\ _ =>
      match r with
      | Album.rel_dir ?a =>
          destruct (album_rel_dir fs1 root1 _ _ a
                      ltac:(vm_compute; reflexivity)
                      ltac:(left; reflexivity)
                      ltac:(left; reflexivity)) as (_ & H & _)
      end
  end.
  split.
  - apply H; vm_compute; intuition discriminate.
  - vm_compute; reflexivity.
Defined.

(** A folder name with a backslash: the relative path is not
    category + "/" + folder. *)
Lemma album_rel_dir_backslash :
  exists c a,
    _scan_once fs_backslash root1 = Ok [c] /\ In a (Category.albums c) /\
    Album.folder a = U "a\b" /\
    Album.rel_dir a = U "cat/a/b" /\
    Album.rel_dir a <> Album.category a ++ U "/" ++ Album.folder a.
Proof.
  do 2 eexists. split; [vm_compute; reflexivity|].
  split; [left; reflexivity|].
  repeat split; vm_compute; congruence.
Qed.

(** ** The cache *)

Lemma deref_new w cats :
  nth (length (store w)) (store w ++ [cats]) [] = cats.
Proof. rewrite app_nth2, Nat.sub_diag; [reflexivity | lia]. Qed.

Lemma missing_root_step fs root now w :
  lookup fs root = None -> deref w (cache_data w) = [] ->
  exists r w',
    get_catalog fs root now w = (Ok r, w') /\
    deref w' r = [] /\ deref w' (cache_data w') = [].
Proof.
  intros Hr Hw. unfold get_catalog, _scan_once. rewrite Hr, Hw; simpl.
  rewrite orb_true_r. do 2 eexists. split; [reflexivity|].
  unfold deref; simpl. rewrite deref_new. auto.
Qed.

Lemma missing_root_calls fs root times w :
  lookup fs root = None -> deref w (cache_data w) = [] ->
  deref (calls fs root times w) (cache_data (calls fs root times w)) = [].
Proof.
  intros Hr. revert w. induction times as [|t ts IH]; simpl; intros w Hw.
  - exact Hw.
  - apply IH.
    destruct (missing_root_step fs root t w Hr Hw) as (r & w' & -> & _ & H).
    exact H.
Qed.



(** C3, as the code has it.  Once a call has left a non-empty catalog in
    the cache, a call made no later than 5 seconds after the stored scan
    time, whatever the tree has become, scans nothing and returns the very
    same reference, and the cache (its data and its timestamp) is left as
    it was.  While the cached catalog is empty a call scans again, whatever
    the time: it stores the new list under a reference that was not in use
    and stamps the cache with the time of the call, or raises what the
    scan raises and leaves the cache alone. *)
Theorem cache_hit_same_reference fs fs' root t1 t2 w r1 w1 :
  (get_catalog fs root t1 w = (Ok r1, w1) ->
   deref w1 r1 <> [] ->
   (t2 - cache_at w1 <= CACHE_TTL_SECONDS)%Q ->
   get_catalog fs' root t2 w1 = (Ok r1, w1)) /\
  (deref w (cache_data w) = [] ->
   get_catalog fs root t1 w
   = match _scan_once fs root with
     | Ok cats =>
         (Ok (length (store w)),
          mkworld (store w ++ [cats]) t1 (length (store w)))
     | Raise e => (Raise e, w)
     end).
Proof.
  split.
  - intros H1 Hne Ht.
    assert (cache_data w1 = r1) as Hd.
    { unfold get_catalog in H1.
      destruct (expired t1 w || is_empty (deref w (cache_data w))).
      - destruct (_scan_once fs root); inversion H1; reflexivity.
      - inversion H1; subst; reflexivity. }
    unfold get_catalog, expired.
    apply Qle_bool_iff in Ht. rewrite Ht, Hd. simpl.
    destruct (deref w1 r1); [congruence | reflexivity].
  - intros He. unfold get_catalog. rewrite He. simpl. rewrite orb_true_r.
    reflexivity.
Qed.

(** A hit although the tree has been emptied in between, and the scans of
    every call at process start, when the cached catalog is empty. *)
Lemma cache_hit_same_reference_witness :
  exists r1 w1,
    get_catalog fs1 root1 1000 initial_world = (Ok r1, w1) /\
    deref w1 r1 <> [] /\
    get_catalog fs_empty_root root1 1005 w1 = (Ok r1, w1) /\
    r1 = length (store initial_world) /\
    cache_at w1 = 1000%Q.
Proof.
  destruct (cache_hit_same_reference fs1 fs_empty_root root1 1000 1005 initial_world
              1%nat (mkworld (store initial_world ++
                                match _scan_once fs1 root1 with
                                | Ok cats => [cats]
                                | Raise _ => []
                                end) 1000 1%nat)) as [Hhit Hmiss].
  do 2 eexists. split; [rewrite Hmiss by reflexivity; vm_compute; reflexivity|].
  split; [vm_compute; discriminate|].
  split; [|split; reflexivity].
  apply Hhit;
    [rewrite Hmiss by reflexivity; vm_compute; reflexivity
    | vm_compute; discriminate | vm_compute; discriminate].
Defined.

(** With an existing but empty images root the catalog is empty, and a
    second call one second after the first scans again: it returns a new
    list object and moves the timestamp. *)
Lemma cache_miss_on_empty_catalog :
  exists r1 w1 r2 w2,
    get_catalog fs_empty_root root1 1000 initial_world = (Ok r1, w1) /\
    (1001 - cache_at w1 <= CACHE_TTL_SECONDS)%Q /\
    get_catalog fs_empty_root root1 1001 w1 = (Ok r2, w2) /\
    r2 <> r1 /\ ~ (cache_at w2 == cache_at w1)%Q /\ w2 <> w1.
Proof.
  do 4 eexists. split; [vm_compute; reflexivity|].
  split; [vm_compute; discriminate|].
  split; [vm_compute; reflexivity|].
  split; [vm_compute; discriminate|].
  split; [vm_compute; discriminate|].
  intros e. apply (f_equal cache_data) in e. vm_compute in e. discriminate e.
Qed.

(** ** The date filter *)

(** C8: the filter renders an absent date as the fixed marker and a date
    as year and month in the long form, followed by the day unless the day
    is unset (zero); a date built by [dt.date] always has a day, so every
    date that [parse_title_date] returns is rendered with its day. *)
Theorem jinja_cn_date_spec :
  jinja_cn_date None = U "未标注日期" /\
  (forall d,
     jinja_cn_date (Some d)
     = str_of_int (year d) ++ U " 年 " ++ str_of_int (month d) ++ U " 月"
       ++ (if Z.eq_dec (day d) 0 then []
           else U " " ++ str_of_int (day d) ++ U " 日")) /\
  (forall y m d dd,
     dt_date y m d = Some dd ->
     jinja_cn_date (Some dd)
     = str_of_int y ++ U " 年 " ++ str_of_int m ++ U " 月"
       ++ U " " ++ str_of_int d ++ U " 日") /\
  jinja_cn_date (Some (mkdate 2025 8 24)) = U "2025 年 8 月 24 日".
Proof.
  split; [reflexivity|]. split; [|split; [|vm_compute; reflexivity]].
  - intros d. unfold jinja_cn_date.
    destruct (Z.eq_dec (day d) 0) as [e|n].
    + rewrite e; reflexivity.
    + apply Z.eqb_neq in n. rewrite n. reflexivity.
  - intros y m d dd H. unfold dt_date in H.
    destruct ((1 <=? y) && (y <=? 9999) && (1 <=? m) && (m <=? 12)
              && (1 <=? d) && (d <=? days_in_month y m))%Z eqn:E; [|discriminate].
    inversion H; subst; clear H. unfold jinja_cn_date; simpl.
    rewrite !andb_true_iff, !Z.leb_le in E.
    assert ((d =? 0)%Z = false) as -> by (apply Z.eqb_neq; lia).
    reflexivity.
Qed.

(** ** The matcher *)

Lemma rev_cons_app (c : N) p b : rev (c :: p) ++ b = rev p ++ c :: b.
Proof. simpl. rewrite <- app_assoc. reflexivity. Qed.

Lemma within_dec hi n : room hi = true -> within (dec hi) n -> within hi (S n).
Proof. destruct hi as [[|h]|]; simpl; try discriminate; intros; lia. Qed.

Lemma within_room hi n : within hi (S n) -> room hi = true /\ within (dec hi) n.
Proof. destruct hi as [[|h]|]; simpl; intros; split; auto; lia. Qed.

Ltac splits := repeat match goal with |- _ /\ _ => split end.

Section Rep.
Context {A : Type} (cls : N -> bool).

(** Every success of a repetition takes some prefix of the class, of an
    allowed length, and succeeds in the continuation from there. *)
Lemma rep_inv greedy lo hi b s (k : str -> str -> option A) x :
  rep cls greedy lo hi b s k = Some x ->
  exists p q, s = p ++ q /\ all cls p /\ (lo <= length p)%nat /\
    within hi (length p) /\ k (rev p ++ b) q = Some x.
Proof.
  assert (Hstop : forall lo hi b s,
    match lo with O => k b s | S _ => None end = Some x ->
    exists p q, s = p ++ q /\ all cls p /\ (lo <= length p)%nat /\
      within hi (length p) /\ k (rev p ++ b) q = Some x).
  { intros [|n] hi' b' s' H; [|discriminate].
    exists [], s'. splits; auto; [constructor | destruct hi'; simpl; lia]. }
  revert lo hi b. induction s as [|c s IH]; intros lo hi b H.
  - apply Hstop. destruct greedy; simpl in H; [exact H|].
    destruct (match lo with O => k b [] | S _ => None end); [exact H | discriminate].
  - assert (Hmore :
      (if cls c && room hi
       then rep cls greedy (pred lo) (dec hi) (c :: b) s k else None) = Some x ->
      exists p q, c :: s = p ++ q /\ all cls p /\ (lo <= length p)%nat /\
        within hi (length p) /\ k (rev p ++ b) q = Some x).
    { destruct (cls c) eqn:Ec; [|discriminate].
      destruct (room hi) eqn:Er; [|discriminate]. simpl. intros H'.
      destruct (IH _ _ _ H') as (p & q & -> & Hp & Hlo & Hhi & Hk).
      exists (c :: p), q. rewrite rev_cons_app.
      splits; auto; [constructor; auto | simpl; lia | apply within_dec; auto]. }
    destruct greedy; simpl in H.
    + destruct (if cls c && room hi
                then rep cls true (pred lo) (dec hi) (c :: b) s k else None).
      * apply Hmore; exact H.
      * apply Hstop; exact H.
    + destruct (match lo with O => k b (c :: s) | S _ => None end) eqn:E.
      * inversion H; subst. apply Hstop; exact E.
      * apply Hmore; exact H.
Qed.

Lemma rep_none greedy lo hi b s (k : str -> str -> option A) :
  (forall p q, s = p ++ q -> all cls p -> (lo <= length p)%nat ->
               within hi (length p) -> k (rev p ++ b) q = None) ->
  rep cls greedy lo hi b s k = None.
Proof.
  intros H. destruct (rep cls greedy lo hi b s k) eqn:E; [|reflexivity].
  destruct (rep_inv _ _ _ _ _ _ _ E) as (p & q & Hs & Hp & Hlo & Hhi & Hk).
  rewrite (H p q Hs Hp Hlo Hhi) in Hk. discriminate.
Qed.

(** A greedy repetition first tries the longest run. *)
Lemma rep_greedy lo hi b p q (k : str -> str -> option A) x :
  all cls p -> (lo <= length p)%nat -> within hi (length p) ->
  stops cls q \/ hi = Some (length p) ->
  k (rev p ++ b) q = Some x ->
  rep cls true lo hi b (p ++ q) k = Some x.
Proof.
  revert lo hi b. induction p as [|c p IH]; intros lo hi b Hp Hlo Hhi Hq Hk.
  - simpl in *. assert (lo = 0)%nat by lia; subst.
    destruct q as [|c q]; simpl; [exact Hk|].
    destruct Hq as [Hq|Hq]; [simpl in Hq; rewrite Hq | rewrite Hq];
      simpl; rewrite ?andb_false_r; exact Hk.
  - inversion Hp; subst. simpl in Hhi.
    destruct (within_room _ _ Hhi) as [Hr Hd].
    cbn [rep app]. rewrite H1, Hr. simpl andb. cbv iota.
    rewrite (IH (pred lo) (dec hi) (c :: b)); auto.
    + simpl in Hlo; lia.
    + destruct Hq as [Hq|Hq]; [left; exact Hq | right].
      subst hi; reflexivity.
    + rewrite <- rev_cons_app; exact Hk.
Qed.

(** A lazy repetition stops at the first length the continuation accepts. *)
Lemma rep_lazy lo hi b p q (k : str -> str -> option A) x :
  all cls p -> (lo <= length p)%nat -> within hi (length p) ->
  (forall p1 p2, p = p1 ++ p2 -> p2 <> [] -> (lo <= length p1)%nat ->
                 k (rev p1 ++ b) (p2 ++ q) = None) ->
  k (rev p ++ b) q = Some x ->
  rep cls false lo hi b (p ++ q) k = Some x.
Proof.
  revert lo hi b. induction p as [|c p IH]; intros lo hi b Hp Hlo Hhi Hn Hk.
  - simpl in *. assert (lo = 0)%nat by lia; subst.
    destruct q; simpl; simpl in Hk; rewrite Hk; reflexivity.
  - inversion Hp; subst. simpl in Hhi.
    destruct (within_room _ _ Hhi) as [Hr Hd].
    cbn [rep app].
    assert (match lo with O => k b (c :: p ++ q) | S _ => None end = None) as E.
    { destruct lo; [|reflexivity].
      apply (Hn [] (c :: p)); [reflexivity | discriminate | simpl; lia]. }
    rewrite E, H1, Hr. simpl andb. cbv iota.
    apply IH; auto.
    + simpl in Hlo; lia.
    + intros p1 p2 -> Hp2 Hl. rewrite <- rev_cons_app.
      apply (Hn (c :: p1) p2); [reflexivity | exact Hp2 | simpl; lia].
    + rewrite <- rev_cons_app; exact Hk.
Qed.
End Rep.

(** *** Character classes *)

Lemma is_space_points c : is_space c = true -> In c space_points.
Proof.
  unfold is_space.
  rewrite !orb_true_iff, !andb_true_iff, !N.leb_le, !N.eqb_eq.
  intros H. simpl. lia.
Qed.

Lemma space_not_digit c : is_space c = true -> is_digit c = false.
Proof.
  intros H. apply is_space_points in H.
  apply negb_true_iff.
  revert c H. apply forallb_forall. vm_compute. reflexivity.
Qed.

Lemma digit_not_space c : is_digit c = true -> is_space c = false.
Proof.
  intros H. destruct (is_space c) eqn:E; [|reflexivity].
  apply space_not_digit in E. congruence.
Qed.

Lemma sep_not_digit c : date_sep c = true -> is_digit c = false.
Proof.
  unfold date_sep. rewrite !orb_true_iff, !N.eqb_eq.
  intros [[->| ->]| ->]; vm_compute; reflexivity.
Qed.

Lemma sep_not_space c : date_sep c = true -> is_space c = false.
Proof.
  unfold date_sep. rewrite !orb_true_iff, !N.eqb_eq.
  intros [[->| ->]| ->]; vm_compute; reflexivity.
Qed.

Lemma sep_not_nian c : date_sep c = true -> lit nian c = false.
Proof.
  unfold date_sep. rewrite !orb_true_iff, !N.eqb_eq.
  intros [[->| ->]| ->]; vm_compute; reflexivity.
Qed.

Lemma lit_eq a c : lit a c = true <-> c = a.
Proof. unfold lit. rewrite N.eqb_eq. split; congruence. Qed.

(** *** Stripping *)

Lemma lstrip_keeps p s c : In c s -> p c = false -> In c (lstrip p s).
Proof.
  induction s as [|x s IH]; simpl; [tauto|].
  intros [->|H] Hc.
  - rewrite Hc; left; reflexivity.
  - destruct (p x); [apply IH; auto | right; exact H].
Qed.

Lemma strip_keeps s c : In c s -> is_space c = false -> In c (strip s).
Proof.
  intros H Hc. unfold strip, rstrip.
  rewrite <- in_rev. apply lstrip_keeps; [|exact Hc].
  rewrite <- in_rev. apply lstrip_keeps; assumption.
Qed.

Lemma lstrip_head p s c t : lstrip p s = c :: t -> p c = false.
Proof.
  induction s as [|x s IH]; simpl; [discriminate|].
  destruct (p x) eqn:E; [exact IH|].
  intros e; inversion e; subst; exact E.
Qed.

Lemma lstrip_suffix p s : exists a, s = a ++ lstrip p s.
Proof.
  induction s as [|x s [a IH]]; simpl; [exists []; reflexivity|].
  destruct (p x); [exists (x :: a); simpl; f_equal; exact IH | exists []; reflexivity].
Qed.

Lemma lstrip_id p s : stops p s -> lstrip p s = s.
Proof. destruct s as [|c s]; simpl; [reflexivity|]. intros ->; reflexivity. Qed.

(** A stripped name neither begins nor ends with white space. *)
Lemma strip_head s c t : strip s = c :: t -> is_space c = false.
Proof.
  unfold strip, rstrip. intros H.
  destruct (lstrip_suffix is_space (rev (lstrip is_space s))) as [a Ha].
  apply (f_equal (@rev N)) in Ha. rewrite rev_involutive, rev_app_distr, H in Ha.
  destruct (lstrip is_space s) as [|x u] eqn:E; [discriminate|].
  inversion Ha; subst. eapply lstrip_head; exact E.
Qed.

Lemma strip_last s t c : strip s = t ++ [c] -> is_space c = false.
Proof.
  unfold strip, rstrip. intros H.
  apply (f_equal (@rev N)) in H. rewrite rev_involutive, rev_app_distr in H.
  simpl in H. eapply lstrip_head; exact H.
Qed.

Lemma strip_id s :
  stops is_space s -> stops is_space (rev s) -> strip s = s.
Proof.
  intros H1 H2. unfold strip, rstrip.
  rewrite (lstrip_id _ s H1), (lstrip_id _ _ H2). apply rev_involutive.
Qed.

(** *** Groups *)

Lemma get_set_other g g' v gd :
  group_eqb g g' = false -> get_group g (set_group g' v gd) = get_group g gd.
Proof. destruct g, g'; simpl; congruence. Qed.

Lemma firstn_prefix (p q : str) : firstn (length (p ++ q) - length q) (p ++ q) = p.
Proof.
  rewrite length_app, Nat.add_sub.
  rewrite firstn_app, Nat.sub_diag, firstn_all. simpl. apply app_nil_r.
Qed.

(** Every match of a pattern consumes a prefix of the text and leaves the
    groups it does not bind as they were. *)
Lemma run_inv r : forall b s gd k x,
  run r b s gd k = Some x ->
  exists p q gd', s = p ++ q /\ k (rev p ++ b) q gd' = Some x /\
    forall g, binds g r = false -> get_group g gd' = get_group g gd.
Proof.
  induction r as [| |cls|cls lo hi greedy|r1 IH|g r1 IH|r1 IH1 r2 IH2];
    intros b s gd k x H; simpl in H.
  - destruct b; [|discriminate]. exists [], s, gd; auto.
  - exists [], s, gd. splits; auto.
    destruct s as [|c [|c' s]]; try discriminate; auto.
    destruct (c =? 10); [exact H | discriminate].
  - destruct s as [|c s]; [discriminate|].
    destruct (cls c); [|discriminate].
    exists [c], s, gd; auto.
  - apply rep_inv in H. destruct H as (p & q & -> & _ & _ & _ & H).
    exists p, q, gd; auto.
  - destruct (run r1 b s gd k) eqn:E.
    + inversion H; subst. apply IH in E. exact E.
    + exists [], s, gd; auto.
  - apply IH in H. destruct H as (p & q & gd' & -> & H & Hg).
    do 3 eexists. splits; [reflexivity | exact H|].
    intros g' Hb. simpl in Hb. apply orb_false_iff in Hb. destruct Hb as [Hb1 Hb2].
    rewrite get_set_other; auto.
  - apply IH1 in H. destruct H as (p1 & q1 & gd1 & -> & H & Hg1).
    apply IH2 in H. destruct H as (p2 & q2 & gd2 & -> & H & Hg2).
    exists (p1 ++ p2), q2, gd2. rewrite <- app_assoc.
    splits; [reflexivity | rewrite rev_app_distr, <- app_assoc; exact H|].
    intros g Hb. simpl in Hb. apply orb_false_iff in Hb. destruct Hb as [Hb1 Hb2].
    rewrite Hg2, Hg1; auto.
Qed.

(** *** The title group is never blank *)

Lemma accept_inv b s gd m : accept b s gd = Some m -> m = mkmatch b s gd.
Proof. unfold accept; congruence. Qed.

Lemma title_first_inv rest s m :
  re_match (Bol ;; title_grp ;; rest) s = Some m ->
  exists p q, s = p ++ q /\ p <> [] /\ all dot p /\
    run rest (rev p) q (set_group Gtitle p no_groups) accept = Some m.
Proof.
  unfold re_match, title_grp. cbn [run]. intros H.
  apply rep_inv in H. destruct H as (p & q & -> & Hp & Hlo & _ & H).
  rewrite firstn_prefix, app_nil_r in H.
  exists p, q. splits; auto.
  destruct p; [simpl in Hlo; lia | discriminate].
Qed.

Lemma title_first_title rest s m :
  binds Gtitle rest = false ->
  re_match (Bol ;; title_grp ;; rest) s = Some m ->
  exists p q, s = p ++ q /\ p <> [] /\ g_title (m_groups m) = Some p.
Proof.
  intros Hb H. apply title_first_inv in H.
  destruct H as (p & q & -> & Hp & _ & H).
  apply run_inv in H. destruct H as (p' & q' & gd' & _ & H & Hg).
  apply accept_inv in H. subst m. simpl.
  exists p, q. splits; auto. apply (Hg Gtitle Hb).
Qed.

Lemma eol_inv b s gd k x :
  run Eol b s gd k = Some x -> (s = [] \/ s = [10]) /\ k b s gd = Some x.
Proof.
  simpl. destruct s as [|c [|c' s]]; try discriminate; auto.
  destruct (N.eqb_spec c 10); [subst; auto | discriminate].
Qed.

Lemma date_first_title dt s m :
  re_match (Bol ;; dt ;; ws ;; title_grp ;; Eol) s = Some m ->
  exists a p q, s = a ++ p ++ q /\ p <> [] /\ all dot p /\
    (q = [] \/ q = [10]) /\ g_title (m_groups m) = Some p.
Proof.
  unfold re_match. cbn [run]. intros H.
  apply run_inv in H. destruct H as (p1 & q1 & gd1 & -> & H & _).
  apply run_inv in H. destruct H as (p2 & q2 & gd2 & -> & H & _).
  unfold title_grp in H. cbn [run] in H.
  apply rep_inv in H. destruct H as (p & q & -> & Hp & Hlo & _ & H).
  apply eol_inv in H. destruct H as [Hq H].
  apply accept_inv in H. subst m. simpl.
  rewrite firstn_prefix.
  exists (p1 ++ p2), p, q. rewrite <- app_assoc. splits; auto.
  destruct p; [simpl in Hlo; lia | discriminate].
Qed.

Lemma app_last_split (a : str) p : p <> [] -> exists u c, a ++ p = u ++ [c] /\ In c p.
Proof.
  intros Hp. destruct (exists_last Hp) as (u & c & ->).
  exists (a ++ u), c. rewrite app_assoc. split; [reflexivity|].
  apply in_or_app; right; left; reflexivity.
Qed.

(** Whatever pattern matches a stripped folder name, the title it
    captures holds a character that is not white space: the branch
    [if not title] of [parse_title_date] is never taken. *)
Lemma title_capture_not_blank folder pat m :
  In pat (_cn_patterns ++ _iso_patterns) ->
  re_match pat (strip folder) = Some m ->
  exists t, g_title (m_groups m) = Some t /\ strip t <> [].
Proof.
  intros Hpat H.
  assert (Htf : forall rest, binds Gtitle rest = false ->
            re_match (Bol ;; title_grp ;; rest) (strip folder) = Some m ->
            exists t, g_title (m_groups m) = Some t /\ strip t <> []).
  { intros rest Hb H'. apply title_first_title in H'; [|exact Hb].
    destruct H' as (p & q & Hs & Hp & Ht). exists p. split; [exact Ht|].
    destruct p as [|c p]; [congruence|].
    pose proof (strip_head _ _ _ Hs) as Hc.
    intros E. pose proof (strip_keeps (c :: p) c (or_introl eq_refl) Hc) as Hin.
    rewrite E in Hin. exact Hin. }
  assert (Hdf : forall dt,
            re_match (Bol ;; dt ;; ws ;; title_grp ;; Eol) (strip folder) = Some m ->
            exists t, g_title (m_groups m) = Some t /\ strip t <> []).
  { intros dt H'. apply date_first_title in H'.
    destruct H' as (a & p & q & Hs & Hp & _ & Hq & Ht). exists p. split; [exact Ht|].
    destruct Hq as [-> | ->].
    - rewrite app_nil_r in Hs.
      destruct (app_last_split a p Hp) as (u & c & E & Hin).
      rewrite E in Hs. pose proof (strip_last _ _ _ Hs) as Hc.
      intros E'. pose proof (strip_keeps p c Hin Hc) as Hin'.
      rewrite E' in Hin'. exact Hin'.
    - rewrite app_assoc in Hs. apply strip_last in Hs. discriminate Hs. }
  simpl in Hpat. destruct Hpat as [<-|[<-|[<-|[<-|[]]]]].
  - apply (Htf (ws ;; cn_date ;; Eol)); [reflexivity | exact H].
  - apply (Hdf cn_date); exact H.
  - apply (Htf (ws ;; iso_date ;; Eol)); [reflexivity | exact H].
  - apply (Hdf iso_date); exact H.
Qed.

Lemma on_match_title pat folder m :
  In pat (_cn_patterns ++ _iso_patterns) ->
  re_match pat (strip folder) = Some m ->
  on_match pat (strip folder) (m_groups m)
  = (strip (or_empty (g_title (m_groups m))),
     _to_date (or_empty (g_y (m_groups m))) (or_empty (g_m (m_groups m)))
       (g_d (m_groups m))).
Proof.
  intros Hpat H.
  destruct (title_capture_not_blank _ _ _ Hpat H) as (t & Ht & Hne).
  unfold on_match. rewrite Ht. simpl or_empty.
  destruct (strip t); [congruence | reflexivity].
Qed.

(** ** The first matching pattern decides *)

Lemma parse_with_first before pat after name m :
  Forall (fun p => re_match p name = None) before ->
  re_match pat name = Some m ->
  parse_with (before ++ pat :: after) name = on_match pat name (m_groups m).
Proof.
  induction 1 as [|p before Hp _ IH]; simpl; intros Hm.
  - rewrite Hm; reflexivity.
  - rewrite Hp. apply IH; exact Hm.
Qed.

Lemma parse_first_match folder before pat after m :
  _cn_patterns ++ _iso_patterns = before ++ pat :: after ->
  Forall (fun p => re_match p (strip folder) = None) before ->
  re_match pat (strip folder) = Some m ->
  parse_title_date folder
  = (strip (or_empty (g_title (m_groups m))),
     _to_date (or_empty (g_y (m_groups m))) (or_empty (g_m (m_groups m)))
       (g_d (m_groups m))).
Proof.
  intros Hl Hb Hm. unfold parse_title_date. rewrite Hl.
  rewrite (parse_with_first _ _ _ _ _ Hb Hm).
  apply on_match_title; [|exact Hm].
  rewrite Hl. apply in_or_app; right; left; reflexivity.
Qed.

(** C2: when the first pattern that matches the name captures a year,
    month and day that form no calendar date, the result is the title
    captured by that match and an absent date, whatever the later patterns
    of the list would have matched. *)
Theorem invalid_date_keeps_match folder before pat after m :
  _cn_patterns ++ _iso_patterns = before ++ pat :: after ->
  Forall (fun p => re_match p (strip folder) = None) before ->
  re_match pat (strip folder) = Some m ->
  _to_date (or_empty (g_y (m_groups m))) (or_empty (g_m (m_groups m)))
    (g_d (m_groups m)) = None ->
  parse_title_date folder = (strip (or_empty (g_title (m_groups m))), None).
Proof.
  intros Hl Hb Hm Hd.
  rewrite (parse_first_match _ _ _ _ _ Hl Hb Hm), Hd. reflexivity.
Qed.

(** The second pattern matches with month 13; the third one would have
    found the valid date 2024-01-02 and is not tried. *)
Lemma invalid_date_keeps_match_witness :
  parse_title_date (U "2025年13月 2024-01-02") = (U "2024-01-02", None) /\
  exists m,
    re_match iso_title_first (U "2025年13月 2024-01-02") = Some m /\
    on_match iso_title_first (U "2025年13月 2024-01-02") (m_groups m)
    = (U "2025年13月", Some (mkdate 2024 1 2)).
Proof.
  split.
  - eapply eq_trans.
    + eapply (invalid_date_keeps_match (U "2025年13月 2024-01-02")
                [cn_title_first] cn_date_first _iso_patterns).
      * reflexivity.
      * constructor; [vm_compute; reflexivity | constructor].
      * vm_compute; reflexivity.
      * vm_compute; reflexivity.
    + vm_compute; reflexivity.
  - eexists; split; [vm_compute; reflexivity|].
    vm_compute; reflexivity.
Defined.

(** C7: a folder name that is only a date.  Every pattern asks for a title
    of at least one character, so part of the date is taken for it: the
    title is neither the name without its date nor the full name, and
    the day returned is not the day written.  Whatever the folder name,
    the title captured by a matching pattern is not blank, so the branch
    [if not title] is never taken. *)
Theorem date_only_name_parse :
  parse_title_date (U "2025-08-24") = (U "4", Some (mkdate 2025 8 2)) /\
  parse_title_date (U "2025 年 8 月 24 日") = (U "24 日", Some (mkdate 2025 8 1)) /\
  forall folder pat m,
    In pat (_cn_patterns ++ _iso_patterns) ->
    re_match pat (strip folder) = Some m ->
    is_empty (strip (or_empty (g_title (m_groups m)))) = false.
Proof.
  split; [vm_compute; reflexivity|]. split; [vm_compute; reflexivity|].
  intros folder pat m Hpat Hm.
  destruct (title_capture_not_blank folder pat m Hpat Hm) as (t & -> & Hne).
  simpl. destruct (strip t); [congruence | reflexivity].
Qed.

(** ** The media route *)

Lemma str_eqb_eq a b : str_eqb a b = true <-> a = b.
Proof.
  unfold str_eqb. destruct (list_eq_dec N.eq_dec a b); split; congruence.
Qed.

Lemma str_eqb_neq a b : str_eqb a b = false <-> a <> b.
Proof.
  unfold str_eqb. destruct (list_eq_dec N.eq_dec a b); split; congruence.
Qed.

Lemma relative_to_app p root rel : relative_to p root = Some rel -> p = root ++ rel.
Proof.
  revert p; induction root as [|r root IH]; simpl; intros p H.
  - inversion H; reflexivity.
  - destruct p as [|c p]; [discriminate|].
    destruct (str_eqb c r) eqn:E; [|discriminate].
    apply str_eqb_eq in E; subst. f_equal. apply IH; exact H.
Qed.

Lemma resolve_go_wf fs stack comps p :
  Forall wf_comp stack ->
  Forall (fun c => c = dotdot \/ wf_comp c) comps ->
  resolve_go fs stack comps = Ok p ->
  Forall wf_comp p.
Proof.
  revert stack; induction comps as [|c comps IH]; simpl; intros stack Hs Hc H.
  - inversion H; subst. apply Forall_rev; exact Hs.
  - inversion Hc; subst. destruct (str_eqb c dotdot) eqn:E.
    + eapply IH; [| |exact H]; [|assumption]. destruct stack; simpl; [constructor|].
      inversion Hs; assumption.
    + assert (resolve_go fs (c :: stack) comps = Ok p) as H'
        by (destruct (stat fs (rev stack ++ [c])); [exact H | exact H | discriminate]).
      eapply IH; [| |exact H']; [|assumption]. constructor; [|exact Hs].
      apply str_eqb_neq in E. tauto.
Qed.

Lemma split_slash_comps s : forall cur c,
  ~ In 47 cur -> In c (split_slash cur s) -> ~ In 47 c.
Proof.
  induction s as [|x s IH]; simpl; intros cur c Hcur.
  - intros [<-|[]]. rewrite <- in_rev. exact Hcur.
  - destruct (N.eqb_spec x 47) as [->|Hx].
    + intros [<-|H]; [rewrite <- in_rev; exact Hcur|].
      apply (IH [] c); [simpl; tauto | exact H].
    + apply IH. simpl. intros [e|H]; [congruence | tauto].
Qed.

Lemma parts_wf filename : Forall (fun c => c = dotdot \/ wf_comp c) (parts filename).
Proof.
  apply Forall_forall. intros c H. unfold parts in H.
  apply filter_In in H. destruct H as [H1 H2].
  apply andb_true_iff in H2. destruct H2 as [H2 H3].
  apply negb_true_iff in H2, H3. apply str_eqb_neq in H3.
  destruct (list_eq_dec N.eq_dec c dotdot) as [e|n]; [left; exact e|right].
  unfold wf_comp. splits; auto.
  - intros ->; discriminate.
  - apply (split_slash_comps filename [] c); simpl; tauto.
Qed.

Lemma resolved_wf fs root filename p :
  Forall wf_comp root -> resolve fs (joinpath root filename) = Ok p ->
  Forall wf_comp p.
Proof.
  intros Hr. unfold resolve, joinpath.
  destruct (is_abs filename).
  - apply resolve_go_wf; [constructor | apply parts_wf].
  - apply resolve_go_wf; [constructor|].
    apply Forall_app. split; [|apply parts_wf].
    eapply Forall_impl; [|exact Hr]. auto.
Qed.

Lemma normpath_go_front stack comps :
  front_dotdot stack ->
  exists dds keep, normpath_go stack comps = dds ++ keep /\
    Forall (fun c => c = dotdot) dds /\ Forall (fun c => c <> dotdot) keep.
Proof.
  revert stack; induction comps as [|c comps IH]; simpl; intros stack Hs.
  - destruct Hs as (keep & dds & -> & Hk & Hd).
    exists (rev dds), (rev keep). rewrite rev_app_distr.
    splits; auto; apply Forall_rev; assumption.
  - destruct (is_empty c || str_eqb c [46]); [apply IH; exact Hs|].
    destruct (str_eqb c dotdot) eqn:E; simpl.
    + apply str_eqb_eq in E; subst c.
      destruct stack as [|top below].
      * apply IH. exists [], [dotdot]. splits; auto.
      * destruct (str_eqb top dotdot) eqn:E'.
        -- apply IH. apply str_eqb_eq in E'; subst top.
           destruct Hs as (keep & dds & Hs & Hk & Hd).
           destruct keep as [|x keep].
           ++ simpl in Hs. subst dds.
              exists [], (dotdot :: dotdot :: below). splits; auto.
           ++ inversion Hs; subst. inversion Hk; subst. congruence.
        -- apply IH. apply str_eqb_neq in E'.
           destruct Hs as (keep & dds & Hs & Hk & Hd).
           destruct keep as [|x keep].
           ++ simpl in Hs. subst dds. inversion Hd; subst. congruence.
           ++ inversion Hs; subst. inversion Hk; subst.
              exists keep, dds. splits; auto.
    + apply IH. apply str_eqb_neq in E.
      destruct Hs as (keep & dds & -> & Hk & Hd).
      exists (c :: keep), dds. splits; auto.
Qed.

Lemma safe_join_within directory rel f :
  safe_join directory rel = Some f ->
  exists comps, f = directory ++ comps /\ ~ In dotdot comps.
Proof.
  unfold safe_join. destruct (is_abs rel); [discriminate|].
  destruct (normpath_go_front [] (split_slash [] rel)) as (dds & keep & E & Hd & Hk).
  { exists [], []. splits; auto. }
  rewrite E. destruct dds as [|d dds]; simpl.
  - destruct keep as [|c keep].
    + intros e; inversion e; subst. exists []; rewrite app_nil_r; auto.
    + destruct (str_eqb c dotdot); [discriminate|].
      intros e; inversion e; subst. exists (c :: keep). split; [reflexivity|].
      intros H. rewrite Forall_forall in Hk. apply (Hk _ H); reflexivity.
  - inversion Hd; subst.
    assert (str_eqb dotdot dotdot = true) as -> by (apply str_eqb_eq; reflexivity).
    discriminate.
Qed.

Lemma split_slash_app x s cur :
  ~ In 47 x -> split_slash cur (x ++ s) = split_slash (rev x ++ cur) s.
Proof.
  revert cur; induction x as [|c x IH]; simpl; intros cur H; [reflexivity|].
  destruct (N.eqb_spec c 47) as [->|_]; [tauto|].
  rewrite IH by tauto. rewrite <- app_assoc. reflexivity.
Qed.

Lemma split_join rel :
  Forall wf_comp rel -> rel <> [] -> split_slash [] (join_slash rel) = rel.
Proof.
  induction rel as [|x rel IH]; [congruence|]. intros H _.
  inversion H as [|? ? Hx Hrel]; subst. destruct Hx as (_ & _ & _ & Hx).
  destruct rel as [|y rel].
  - simpl. rewrite <- (app_nil_r x) at 1. rewrite split_slash_app by exact Hx.
    simpl. rewrite app_nil_r, rev_involutive. reflexivity.
  - change (join_slash (x :: y :: rel)) with (x ++ 47 :: join_slash (y :: rel)).
    rewrite split_slash_app by exact Hx. simpl split_slash at 1.
    rewrite app_nil_r, rev_involutive. f_equal.
    apply IH; [exact Hrel | discriminate].
Qed.

Lemma normpath_go_id stack rel :
  Forall wf_comp rel -> normpath_go stack rel = rev stack ++ rel.
Proof.
  revert stack; induction rel as [|c rel IH]; simpl; intros stack H.
  - rewrite app_nil_r; reflexivity.
  - inversion H as [|? ? Hc Hrel]; subst. destruct Hc as (H1 & H2 & H3 & _).
    destruct c as [|x c]; [congruence|]. simpl is_empty.
    assert (str_eqb (x :: c) [46] = false) as -> by (apply str_eqb_neq; exact H2).
    assert (str_eqb (x :: c) dotdot = false) as -> by (apply str_eqb_neq; exact H3).
    simpl. rewrite IH by exact Hrel. simpl. rewrite <- app_assoc. reflexivity.
Qed.

Lemma join_slash_no_backslash rel :
  Forall (fun c => ~ In 92 c) rel -> ~ In 92 (join_slash rel).
Proof.
  induction rel as [|x rel IH]; simpl; [tauto|]. intros H.
  inversion H; subst. destruct rel as [|y rel]; [assumption|].
  rewrite in_app_iff. intros [Hx|[Hx|Hx]]; [tauto | discriminate | ].
  apply IH; assumption.
Qed.

Lemma join_slash_not_abs rel : Forall wf_comp rel -> is_abs (join_slash rel) = false.
Proof.
  destruct rel as [|x rel]; [reflexivity|]. intros H.
  inversion H as [|? ? Hx _]; subst. destruct Hx as (H1 & _ & _ & H4).
  destruct x as [|c x]; [congruence|].
  assert (is_abs ((c :: x) ++ 47 :: join_slash rel) = false) as E.
  { simpl. apply N.eqb_neq. intros ->. apply H4; left; reflexivity. }
  destruct rel; simpl in *; [|exact E].
  apply N.eqb_neq. intros ->. apply H4; left; reflexivity.
Qed.

Lemma safe_join_plain root rel :
  Forall wf_comp rel -> Forall (fun c => ~ In 92 c) rel ->
  safe_join root (replace_backslash (str_of_rel rel)) = Some (root ++ rel).
Proof.
  intros Hw Hb. destruct rel as [|x rel].
  - vm_compute safe_join at 1. rewrite app_nil_r. reflexivity.
  - unfold str_of_rel.
    rewrite replace_backslash_id by (apply join_slash_no_backslash; exact Hb).
    unfold safe_join. rewrite join_slash_not_abs by exact Hw.
    rewrite split_join by (auto; discriminate).
    rewrite normpath_go_id by exact Hw. simpl.
    inversion Hw as [|? ? Hx _]; subst. destruct Hx as (_ & _ & Hx & _).
    assert (str_eqb x dotdot = false) as -> by (apply str_eqb_neq; exact Hx).
    reflexivity.
Qed.

Lemma wf_no_dotdot l : Forall wf_comp l -> ~ In dotdot l.
Proof.
  intros H Hin. rewrite Forall_forall in H.
  destruct (H _ Hin) as (_ & _ & Hd & _). congruence.
Qed.

Lemma safe_join_eq directory rel f :
  safe_join directory rel = Some f ->
  f = directory ++ normpath_go [] (split_slash [] rel).
Proof.
  unfold safe_join. destruct (is_abs rel); [discriminate|].
  destruct (normpath_go [] (split_slash [] rel)) as [|c comps].
  - intros e; inversion e. rewrite app_nil_r. reflexivity.
  - destruct (str_eqb c dotdot); [discriminate|]. intros e; inversion e. reflexivity.
Qed.

Lemma arg_error_refused p e :
  arg_error p = Some e ->
  (e = UnicodeEncodeError /\ exists c x, In c p /\ In x c /\ encodable x = false)
  \/ (e = ValueError /\ exists c, In c p /\ In 0 c).
Proof.
  unfold arg_error.
  destruct (existsb (existsb (fun c => negb (encodable c))) p) eqn:E1.
  - intros e'; inversion e'; subst. left. split; [reflexivity|].
    apply existsb_exists in E1. destruct E1 as (c & Hc & E1).
    apply existsb_exists in E1. destruct E1 as (x & Hx & E1).
    apply negb_true_iff in E1. eauto.
  - destruct (existsb (existsb (N.eqb 0)) p) eqn:E2; [|discriminate].
    intros e'; inversion e'; subst. right. split; [reflexivity|].
    apply existsb_exists in E2. destruct E2 as (c & Hc & E2).
    apply existsb_exists in E2. destruct E2 as (x & Hx & E2).
    apply N.eqb_eq in E2. subst x. eauto.
Qed.

Lemma resolve_go_raise fs stack comps e :
  resolve_go fs stack comps = Raise e ->
  (e = UnicodeEncodeError
   /\ exists c x, In c (rev stack ++ comps) /\ In x c /\ encodable x = false)
  \/ (e = ValueError /\ exists c, In c (rev stack ++ comps) /\ In 0 c).
Proof.
  revert stack; induction comps as [|c comps IH]; simpl; intros stack H;
    [discriminate|].
  assert (Hsub : forall st' d,
            In d (rev st' ++ comps) ->
            (st' = tl stack \/ st' = c :: stack) ->
            In d (rev stack ++ c :: comps)).
  { intros st' d Hd [->| ->].
    - apply in_app_iff in Hd. apply in_app_iff. destruct Hd as [Hd|Hd].
      + left. apply in_rev in Hd. apply -> in_rev.
        destruct stack; simpl in *; [tauto | right; exact Hd].
      + right; right; exact Hd.
    - simpl in Hd. rewrite <- app_assoc in Hd. exact Hd. }
  destruct (str_eqb c dotdot).
  - destruct (IH _ H) as [(-> & d & x & Hd & Hx)|(-> & d & Hd & Hx)];
      [left | right]; split; auto; eauto 10.
  - destruct (stat fs (rev stack ++ [c])) as [n|er|e'] eqn:Est.
    + destruct (IH _ H) as [(-> & d & x & Hd & Hx)|(-> & d & Hd & Hx)];
        [left | right]; split; auto; eauto 10.
    + destruct (IH _ H) as [(-> & d & x & Hd & Hx)|(-> & d & Hd & Hx)];
        [left | right]; split; auto; eauto 10.
    + inversion H; subst e'. unfold stat in Est.
      destruct (lookup fs (rev stack ++ [c])); [discriminate|].
      destruct (arg_error (rev stack ++ [c])) as [e0|] eqn:Ea;
        [|destruct (PATH_MAX <=? path_bytes (rev stack ++ [c]))%nat; discriminate].
      inversion Est; subst e0.
      assert (Hin : forall d, In d (rev stack ++ [c]) -> In d (rev stack ++ c :: comps)).
      { intros d Hd. apply in_app_iff in Hd. apply in_app_iff.
        destruct Hd as [Hd|[<-|[]]]; [left; exact Hd | right; left; reflexivity]. }
      destruct (arg_error_refused _ _ Ea) as [(-> & d & x & Hd & Hx)|(-> & d & Hd & Hx)];
        [left | right]; split; auto; eauto 10.
Qed.

Lemma walk_error_long n p :
  walk_error n p = ENAMETOOLONG -> exists c, In c p /\ (NAME_MAX < bytes_of c)%nat.
Proof.
  revert n; induction p as [|c p IH]; simpl; intros n H; [discriminate|].
  destruct n as [| |es]; try discriminate.
  destruct (find (fun e => str_eqb (fst e) c) es) as [e|].
  - destruct (IH _ H) as (d & Hd & Hl). exists d. auto.
  - destruct (NAME_MAX <? bytes_of c)%nat eqn:E; [|discriminate].
    apply Nat.ltb_lt in E. exists c. auto.
Qed.

Lemma exists_raise fs p e :
  exists_ fs p = Raise e ->
  e = OSError /\ lookup fs p = None /\
  ((PATH_MAX <= path_bytes p)%nat \/ exists c, In c p /\ (NAME_MAX < bytes_of c)%nat).
Proof.
  unfold exists_, stat. destruct (lookup fs p) as [n|]; [discriminate|].
  destruct (arg_error p); [discriminate|].
  destruct (PATH_MAX <=? path_bytes p)%nat eqn:E.
  - intros e'; inversion e'. apply Nat.leb_le in E. auto.
  - destruct (walk_error fs p) eqn:Ew; try discriminate.
    intros e'; inversion e'. apply walk_error_long in Ew. auto.
Qed.

(** C4, as the code has it, for an images root whose components are well
    formed.  A file is served only when the request resolves to a path
    within the images root that has an allowed extension and exists; the
    file served is a regular file within the root, namely the one named
    by the root-relative resolved path with every backslash read as a
    slash and the result normalised, which is the resolved path itself
    when no component of it holds a backslash.  A request that resolves
    outside the root is not found.  A request is answered by an exception
    only when the path holds a code point that cannot be encoded or NUL
    ([resolve] raises), or when it resolves within the root with an
    allowed extension to a path that names nothing and that the system
    refuses as too long ([exists] raises). *)
Theorem media_serves_inside_root fs root filename :
  Forall wf_comp root ->
  (forall f, media fs root filename = Served f ->
     exists p rel,
       resolve fs (joinpath root filename) = Ok p /\
       p = root ++ rel /\ ~ In dotdot rel /\
       allowed_ext (name_of p) = true /\
       exists_ fs p = Ok true /\
       f = root ++ normpath_go [] (split_slash [] (replace_backslash (str_of_rel rel))) /\
       (exists rel', f = root ++ rel' /\ ~ In dotdot rel') /\
       lookup fs f = Some File /\
       (Forall (fun c => ~ In 92 c) rel -> f = p)) /\
  (forall p, resolve fs (joinpath root filename) = Ok p ->
     (forall rel, p <> root ++ rel) ->
     media fs root filename = NotFound) /\
  (forall e, media fs root filename = Raises e ->
     (resolve fs (joinpath root filename) = Raise e
      /\ refused (joinpath root filename) e)
     \/ (exists p rel,
           resolve fs (joinpath root filename) = Ok p /\ p = root ++ rel /\
           allowed_ext (name_of p) = true /\
           e = OSError /\ lookup fs p = None /\
           ((PATH_MAX <= path_bytes p)%nat
            \/ exists c, In c p /\ (NAME_MAX < bytes_of c)%nat))).
Proof.
  intros Hroot. unfold media.
  destruct (resolve fs (joinpath root filename)) as [p|e0] eqn:Eres.
  - pose proof (resolved_wf fs root filename p Hroot Eres) as Hp.
    destruct (relative_to p root) as [rel|] eqn:Erel.
    + pose proof (relative_to_app _ _ _ Erel) as Ep.
      assert (Forall wf_comp rel) as Hrel.
      { rewrite Ep in Hp. apply Forall_app in Hp. tauto. }
      fold (allowed_ext (name_of p)).
      destruct (allowed_ext (name_of p)) eqn:Eext; simpl.
      * destruct (exists_ fs p) as [[|]|e1] eqn:Eex.
        -- splits.
           ++ intros f H. unfold send_from_directory in H.
              destruct (safe_join root (replace_backslash (str_of_rel rel)))
                as [g|] eqn:Ej; [|discriminate].
              destruct (lookup fs g) as [[| |]|] eqn:El; try discriminate.
              inversion H; subst g; clear H.
              exists p, rel. splits; auto.
              ** apply wf_no_dotdot; exact Hrel.
              ** apply safe_join_eq; exact Ej.
              ** apply safe_join_within in Ej. exact Ej.
              ** intros Hb. rewrite (safe_join_plain root rel Hrel Hb) in Ej.
                 congruence.
           ++ intros p' e Hout. inversion e; subst p'.
              destruct (Hout rel Ep).
           ++ intros e H. unfold send_from_directory in H.
              destruct (safe_join root (replace_backslash (str_of_rel rel)));
                [|discriminate].
              destruct (lookup fs p0) as [[| |]|]; discriminate.
        -- splits; try discriminate.
           intros p' e Hout. inversion e; subst p'. destruct (Hout rel Ep).
        -- splits; try discriminate.
           ++ intros p' e Hout. inversion e; subst p'. destruct (Hout rel Ep).
           ++ intros e H. inversion H; subst e1. right.
              destruct (exists_raise _ _ _ Eex) as (-> & Hl & Hlong).
              exists p, rel. splits; auto.
      * splits; try discriminate. intros p' e Hout. reflexivity.
    + splits; try discriminate. intros p' e Hout. reflexivity.
  - splits; try discriminate.
    intros e H. inversion H; subst e0. left. split; [reflexivity|].
    unfold resolve in Eres. apply resolve_go_raise in Eres. exact Eres.
Qed.

Lemma root1_wf : Forall wf_comp root1.
Proof. repeat constructor; vm_compute; intuition discriminate. Qed.

Lemma media_serves_inside_root_witness :
  media fs1 root1 (U "旅行/../旅行/Z/./z.bmp")
  = Served (root1 ++ [U "旅行"; U "Z"; U "z.bmp"]) /\
  resolve fs1 (joinpath root1 (U "旅行/../旅行/Z/./z.bmp"))
  = Ok (root1 ++ [U "旅行"; U "Z"; U "z.bmp"]) /\
  lookup fs1 (root1 ++ [U "旅行"; U "Z"; U "z.bmp"]) = Some File /\
  media fs1 root1 (U "//srv/images/旅行/Z/z.bmp")
  = Served (root1 ++ [U "旅行"; U "Z"; U "z.bmp"]) /\
  media fs1 root1 (U "../secret.jpg") = NotFound /\
  media fs1 root1 (U "旅行/../../secret.jpg") = NotFound /\
  media fs1 root1 (U "/srv/secret.jpg") = NotFound /\
  media fs1 root1 (U "旅行/notes/readme.txt") = NotFound /\
  media fs1 root1 (U "旅行/Z/missing.png") = NotFound.
Proof.
  assert (media fs1 root1 (U "旅行/../旅行/Z/./z.bmp")
          = Served (root1 ++ [U "旅行"; U "Z"; U "z.bmp"])) as H
    by (vm_compute; reflexivity).
  split; [exact H|].
  destruct (media_serves_inside_root fs1 root1 (U "旅行/../旅行/Z/./z.bmp") root1_wf)
    as (Hserved & Hout & _).
  destruct (Hserved _ H) as (p & rel & Hres & Hp & _ & _ & _ & _ & _ & Hf & Hplain).
  assert (p = root1 ++ [U "旅行"; U "Z"; U "z.bmp"]) as Ep.
  { vm_compute in Hres. inversion Hres; subst. vm_compute. reflexivity. }
  split; [rewrite Hres, Ep; reflexivity|]. split; [exact Hf|].
  split; [vm_compute; reflexivity|].
  split; [|splits; vm_compute; reflexivity].
  apply (proj1 (proj2 (media_serves_inside_root fs1 root1 (U "../secret.jpg") root1_wf))
           [U "srv"; U "secret.jpg"]); [vm_compute; reflexivity|].
  intros rel' E. vm_compute in E. discriminate E.
Defined.

(** The request names a directory whose name holds a backslash; the file
    served is another entry, reached by reading the backslash as a
    slash.  A request with NUL, or with a code point that cannot be
    encoded, and a request for a missing image with a name of more than
    255 bytes are answered by an exception, not by a 404. *)
Lemma media_backslash_serves_other_file :
  resolve fs_backslash_media (joinpath root1 (U "a\b.jpg"))
  = Ok (root1 ++ [U "a\b.jpg"]) /\
  lookup fs_backslash_media (root1 ++ [U "a\b.jpg"]) = Some (Dir []) /\
  media fs_backslash_media root1 (U "a\b.jpg") = Served (root1 ++ [U "a"; U "b.jpg"]) /\
  media fs1 root1 (U "x" ++ [0] ++ U "/../旅行/Z/z.bmp") = Raises ValueError /\
  media fs1 root1 (U "旅行/Z/" ++ [0xD800] ++ U ".bmp") = Raises UnicodeEncodeError /\
  media fs1 root1 (U "旅行/Z/" ++ repeat 120 256 ++ U ".jpg") = Raises OSError /\
  media fs1 root1 (U "旅行/Z/" ++ repeat 120 255 ++ U ".txt") = NotFound /\
  media fs1 root1 (U "旅行/Z/" ++ repeat 120 251 ++ U ".jpg") = NotFound.
Proof. splits; vm_compute; reflexivity. Qed.

(** ** Names made of a title and a date *)

(** *** Steps that succeed at the first try *)

Lemma run_ws g q b gd k x :
  blanks g -> stops is_space q ->
  k (rev g ++ b) q gd = Some x ->
  run ws b (g ++ q) gd k = Some x.
Proof.
  intros Hg Hq Hk. unfold ws. cbn [run].
  apply rep_greedy; simpl; auto; lia.
Qed.

Lemma run_digits grp lo hi ds q b gd k x :
  all is_digit ds -> (lo <= length ds <= hi)%nat ->
  stops is_digit q \/ length ds = hi ->
  k (rev ds ++ b) q (set_group grp ds gd) = Some x ->
  run (Grp grp (Rep is_digit lo (Some hi) true)) b (ds ++ q) gd k = Some x.
Proof.
  intros Hd Hl Hq Hk. cbn [run].
  apply rep_greedy; simpl; auto; try lia.
  - destruct Hq as [Hq|Hq]; [left; exact Hq | right; congruence].
  - rewrite firstn_prefix. exact Hk.
Qed.

Lemma run_title t q b gd k x :
  all dot t -> t <> [] ->
  (forall p1 p2, t = p1 ++ p2 -> p1 <> [] -> p2 <> [] ->
     k (rev p1 ++ b) (p2 ++ q) (set_group Gtitle p1 gd) = None) ->
  k (rev t ++ b) q (set_group Gtitle t gd) = Some x ->
  run title_grp b (t ++ q) gd k = Some x.
Proof.
  intros Ht Hne Hn Hk. unfold title_grp. cbn [run].
  apply rep_lazy; simpl; auto.
  - destruct t; [congruence | simpl; lia].
  - intros p1 p2 -> Hp2 Hl. rewrite <- app_assoc, firstn_prefix.
    apply Hn; auto. destruct p1; [simpl in Hl; lia | discriminate].
  - rewrite firstn_prefix. exact Hk.
Qed.

Lemma stops_app cls (a q : str) : a <> [] -> stops cls a -> stops cls (a ++ q).
Proof. destruct a; [congruence | simpl; auto]. Qed.

Lemma none_stops cls (s : str) : none cls s -> stops cls s.
Proof. destruct s; simpl; [auto | intros H; inversion H; auto]. Qed.

Lemma blanks_none_digit g : blanks g -> none is_digit g.
Proof. intros H. eapply Forall_impl; [|exact H]. apply space_not_digit. Qed.

Lemma yields_ws g q b gd k G :
  blanks g -> stops is_space q ->
  (forall b', yields (k b' q gd) G) ->
  yields (run ws b (g ++ q) gd k) G.
Proof.
  intros Hg Hq Hk. destruct (Hk (rev g ++ b)) as (m & E & Hm).
  exists m. split; [|exact Hm]. apply run_ws; assumption.
Qed.

Lemma yields_digits grp lo hi ds q b gd k G :
  all is_digit ds -> (lo <= length ds <= hi)%nat ->
  stops is_digit q \/ length ds = hi ->
  (forall b', yields (k b' q (set_group grp ds gd)) G) ->
  yields (run (Grp grp (Rep is_digit lo (Some hi) true)) b (ds ++ q) gd k) G.
Proof.
  intros Hd Hl Hq Hk. destruct (Hk (rev ds ++ b)) as (m & E & Hm).
  exists m. split; [|exact Hm]. apply run_digits; assumption.
Qed.

Lemma yields_chr cls c s b gd k G :
  cls c = true -> (forall b', yields (k b' s gd) G) ->
  yields (run (Chr cls) b (c :: s) gd k) G.
Proof. intros Hc Hk. simpl. rewrite Hc. apply Hk. Qed.

Lemma yields_title t q b gd k G :
  all dot t -> t <> [] ->
  (forall p1 p2 b', t = p1 ++ p2 -> p1 <> [] -> p2 <> [] ->
     k b' (p2 ++ q) (set_group Gtitle p1 gd) = None) ->
  (forall b', yields (k b' q (set_group Gtitle t gd)) G) ->
  yields (run title_grp b (t ++ q) gd k) G.
Proof.
  intros Ht Hne Hn Hk. destruct (Hk (rev t ++ b)) as (m & E & Hm).
  exists m. split; [|exact Hm]. apply run_title; auto.
Qed.

Lemma yields_opt_skip r b s gd k G :
  run r b s gd k = None -> yields (k b s gd) G -> yields (run (Opt r) b s gd k) G.
Proof. intros Hn Hk. simpl. rewrite Hn. exact Hk. Qed.

Lemma yields_opt_take r b s gd k G :
  yields (run r b s gd k) G -> yields (run (Opt r) b s gd k) G.
Proof. intros (m & E & Hm). exists m. simpl. rewrite E. auto. Qed.

Lemma yields_accept b s gd : yields (accept b s gd) gd.
Proof. eexists; split; reflexivity. Qed.

(** *** Steps that fail *)

Lemma digits_fail {A} lo hi b q (k : str -> str -> option A) :
  stops is_digit q -> rep is_digit true (S lo) hi b q k = None.
Proof. destruct q as [|c q]; simpl; [reflexivity | intros ->; reflexivity]. Qed.

Lemma none_suffix cls (a q s : str) : none cls s -> s = a ++ q -> none cls q.
Proof. intros H ->. apply Forall_app in H. tauto. Qed.

(** [\s*\d...] finds no digit in a text without digits. *)
Lemma ws_digits_fail grp lo hi rest s b gd k :
  none is_digit s ->
  run (ws ;; Grp grp (Rep is_digit (S lo) hi true) ;; rest) b s gd k = None.
Proof.
  intros Hs. unfold ws. cbn [run]. apply rep_none.
  intros p q E _ _ _. apply digits_fail.
  apply none_stops. eapply none_suffix; eassumption.
Qed.

Lemma sep_digits_fail grp lo hi s b gd k :
  none is_digit s ->
  run (Chr date_sep ;; Grp grp (Rep is_digit (S lo) hi true)) b s gd k = None.
Proof.
  intros Hs. cbn [run]. destruct s as [|c s]; [reflexivity|].
  destruct (date_sep c); [|reflexivity].
  apply digits_fail. inversion Hs; subst. apply none_stops; assumption.
Qed.

Lemma eol_fails p b gd k : p <> [] -> all dot p -> run Eol b p gd k = None.
Proof.
  intros Hne Hp. destruct p as [|c [|c' p]]; [congruence | | reflexivity].
  inversion Hp; subst. unfold dot in H1. apply negb_true_iff in H1.
  simpl. rewrite H1. reflexivity.
Qed.

(** *** The date patterns on a date text *)

Lemma stops_digit_blank g c r :
  blanks g -> is_digit c = false -> stops is_digit (g ++ c :: r).
Proof.
  intros Hg Hc. destruct g as [|x g]; simpl; [exact Hc|].
  inversion Hg; subst. apply space_not_digit; assumption.
Qed.

Lemma stops_space_digits ds q :
  all is_digit ds -> ds <> [] -> stops is_space (ds ++ q).
Proof.
  intros Hd Hne. destruct ds as [|x ds]; [congruence|]. simpl.
  inversion Hd; subst. apply digit_not_space; assumption.
Qed.

Lemma short_nonempty ds : short_digits ds -> ds <> [].
Proof. intros [_ H] ->. simpl in H. lia. Qed.

Lemma seq_step r1 r2 b s gd k G :
  yields (run r1 b s gd (fun b' s' gd' => run r2 b' s' gd' k)) G ->
  yields (run (r1 ;; r2) b s gd k) G.
Proof. exact (fun H => H). Qed.

Ltac next := intros ?b; cbv beta; try apply seq_step.

Lemma cn_ym_fwd Y g1 g2 M g3 :
  year_digits Y -> short_digits M -> blanks g1 -> blanks g2 -> blanks g3 ->
  date_fwd cn_date (Y ++ g1 ++ nian :: g2 ++ M ++ g3 ++ [yue]) Y M None.
Proof.
  intros [HY HYl] HM Hg1 Hg2 Hg3 rest b gd k G Hrest Hk.
  pose proof (short_nonempty _ HM) as HMne. destruct HM as [HM HMl].
  repeat (rewrite <- ?app_assoc; simpl app).
  unfold cn_date, y4, m12, d12. apply seq_step.
  apply (yields_digits Gy 4 4); auto; [lia|]. next.
  apply yields_ws; auto; [vm_compute; reflexivity|]. next.
  apply yields_chr; [apply N.eqb_refl|]. next.
  apply yields_ws; auto; [apply stops_space_digits; assumption|]. next.
  apply (yields_digits Gm 1 2); auto.
  { left. apply stops_digit_blank; [assumption | vm_compute; reflexivity]. }
  next.
  apply yields_ws; auto; [vm_compute; reflexivity|]. next.
  apply yields_chr; [apply N.eqb_refl|]. next.
  apply yields_opt_skip; [apply (ws_digits_fail Gd 0); exact Hrest | apply Hk].
Qed.

Lemma cn_ymd_fwd Y g1 g2 M g3 g4 D g5 :
  year_digits Y -> short_digits M -> short_digits D ->
  blanks g1 -> blanks g2 -> blanks g3 -> blanks g4 -> blanks g5 ->
  date_fwd cn_date
    (Y ++ g1 ++ nian :: g2 ++ M ++ g3 ++ yue :: g4 ++ D ++ g5 ++ [ri]) Y M (Some D).
Proof.
  intros [HY HYl] HM HD Hg1 Hg2 Hg3 Hg4 Hg5 rest b gd k G Hrest Hk.
  pose proof (short_nonempty _ HM) as HMne. destruct HM as [HM HMl].
  pose proof (short_nonempty _ HD) as HDne. destruct HD as [HD HDl].
  repeat (rewrite <- ?app_assoc; simpl app).
  unfold cn_date, y4, m12, d12. apply seq_step.
  apply (yields_digits Gy 4 4); auto; [lia|]. next.
  apply yields_ws; auto; [vm_compute; reflexivity|]. next.
  apply yields_chr; [apply N.eqb_refl|]. next.
  apply yields_ws; auto; [apply stops_space_digits; assumption|]. next.
  apply (yields_digits Gm 1 2); auto.
  { left. apply stops_digit_blank; [assumption | vm_compute; reflexivity]. }
  next.
  apply yields_ws; auto; [vm_compute; reflexivity|]. next.
  apply yields_chr; [apply N.eqb_refl|]. next.
  apply yields_opt_take. apply seq_step.
  apply yields_ws; auto; [apply stops_space_digits; assumption|]. next.
  apply (yields_digits Gd 1 2); auto.
  { left. apply stops_digit_blank; [assumption | vm_compute; reflexivity]. }
  next.
  apply yields_ws; auto; [vm_compute; reflexivity|]. next.
  apply yields_chr; [apply N.eqb_refl|]. next. apply Hk.
Qed.

Lemma iso_ym_fwd Y s1 M :
  year_digits Y -> short_digits M -> date_sep s1 = true ->
  date_fwd iso_date (Y ++ s1 :: M) Y M None.
Proof.
  intros [HY HYl] [HM HMl] Hs1 rest b gd k G Hrest Hk.
  repeat (rewrite <- ?app_assoc; simpl app).
  unfold iso_date, y4, m12, d12. apply seq_step.
  apply (yields_digits Gy 4 4); auto; [lia|]. next.
  apply yields_chr; [exact Hs1|]. next.
  apply (yields_digits Gm 1 2); auto.
  { left. apply none_stops; exact Hrest. }
  next.
  apply yields_opt_skip; [apply (sep_digits_fail Gd 0); exact Hrest | apply Hk].
Qed.

Lemma iso_ymd_fwd Y s1 M s2 D :
  year_digits Y -> short_digits M -> short_digits D ->
  date_sep s1 = true -> date_sep s2 = true ->
  date_fwd iso_date (Y ++ s1 :: M ++ s2 :: D) Y M (Some D).
Proof.
  intros [HY HYl] [HM HMl] [HD HDl] Hs1 Hs2 rest b gd k G Hrest Hk.
  repeat (rewrite <- ?app_assoc; simpl app).
  unfold iso_date, y4, m12, d12. apply seq_step.
  apply (yields_digits Gy 4 4); auto; [lia|]. next.
  apply yields_chr; [exact Hs1|]. next.
  apply (yields_digits Gm 1 2); auto.
  { left. simpl. apply sep_not_digit; exact Hs2. }
  next.
  apply yields_opt_take. apply seq_step.
  apply yields_chr; [exact Hs2|]. next.
  apply (yields_digits Gd 1 2); auto.
  left. apply none_stops; exact Hrest.
Qed.

(** *** The two layouts *)

Lemma cn_date_needs_digit : needs_digit cn_date.
Proof. intros b s gd k H. unfold cn_date, y4. cbn [run]. apply digits_fail; exact H. Qed.

Lemma iso_date_needs_digit : needs_digit iso_date.
Proof. intros b s gd k H. unfold iso_date, y4. cbn [run]. apply digits_fail; exact H. Qed.

Lemma last_not_space p : p <> [] -> stops is_space (rev p) ->
  exists c, In c p /\ is_space c = false.
Proof.
  intros Hne H. destruct (rev p) as [|c r] eqn:E.
  - apply (f_equal (@rev N)) in E. rewrite rev_involutive in E. simpl in E. congruence.
  - exists c. split; [|exact H]. apply in_rev. rewrite E. left; reflexivity.
Qed.

(** While the title is not complete, [\s*] followed by the date fails. *)
Lemma ws_date_fails dt r p2 rest b gd k :
  needs_digit dt -> none is_digit p2 -> p2 <> [] -> stops is_space (rev p2) ->
  run (ws ;; dt ;; r) b (p2 ++ rest) gd k = None.
Proof.
  intros Hdt Hp2 Hne Hlast. unfold ws. cbn [run]. apply rep_none.
  intros p q E Hp _ _. apply Hdt.
  destruct (last_not_space p2 Hne Hlast) as (c & Hc & Hcs).
  apply app_eq_app in E. destruct E as (l & [[E1 E2]|[E1 E2]]).
  - subst q. destruct l as [|x l].
    + rewrite app_nil_r in E1. subst p2.
      unfold all in Hp. rewrite Forall_forall in Hp. rewrite (Hp c Hc) in Hcs. discriminate.
    + simpl. unfold none in Hp2. rewrite Forall_forall in Hp2. apply Hp2.
      subst p2. apply in_or_app; right; left; reflexivity.
  - subst p. unfold all in Hp. rewrite Forall_forall in Hp.
    rewrite (Hp c) in Hcs; [discriminate | apply in_or_app; left; exact Hc].
Qed.

Lemma bol_step r s gd k G :
  yields (run r [] s gd k) G -> yields (run (Bol ;; r) [] s gd k) G.
Proof. exact (fun H => H). Qed.

Lemma dated_title_first t Y M D :
  set_date Y M D (set_group Gtitle t no_groups) = dated t Y M D.
Proof. destruct D; reflexivity. Qed.

Lemma dated_date_first t Y M D :
  set_group Gtitle t (set_date Y M D no_groups) = dated t Y M D.
Proof. destruct D; reflexivity. Qed.

Lemma title_prefix_facts t p1 p2 :
  title_ok t -> t = p1 ++ p2 -> p2 <> [] ->
  none is_digit p2 /\ stops is_space (rev p2) /\ all dot p2.
Proof.
  intros (_ & Hd & Hdot & _ & Hl) -> Hne.
  apply Forall_app in Hd. apply Forall_app in Hdot.
  splits; try tauto.
  rewrite rev_app_distr in Hl. destruct (rev p2) eqn:E; [|exact Hl].
  apply (f_equal (@rev N)) in E. rewrite rev_involutive in E. simpl in E. congruence.
Qed.

Lemma tf_fwd dt txt Y M D t g0 :
  needs_digit dt -> date_fwd dt txt Y M D -> stops is_space txt ->
  title_ok t -> blanks g0 ->
  yields (re_match (Bol ;; title_grp ;; ws ;; dt ;; Eol) (t ++ g0 ++ txt))
    (dated t Y M D).
Proof.
  intros Hnd Hfwd Htxt Ht Hg0. pose proof Ht as (Hne & Hdig & Hdot & Hhd & Hlast).
  unfold re_match. apply bol_step, seq_step.
  apply yields_title; auto.
  - intros p1 p2 b' E Hp1 Hp2.
    destruct (title_prefix_facts t p1 p2 Ht E Hp2) as (H1 & H2 & _).
    apply ws_date_fails; assumption.
  - next. apply yields_ws; auto. next.
    rewrite <- (app_nil_r txt). apply Hfwd; [constructor|].
    next. simpl. rewrite <- dated_title_first. apply yields_accept.
Qed.

Lemma df_fwd dt txt Y M D t g0 :
  date_fwd dt txt Y M D -> title_ok t -> blanks g0 ->
  yields (re_match (Bol ;; dt ;; ws ;; title_grp ;; Eol) (txt ++ g0 ++ t))
    (dated t Y M D).
Proof.
  intros Hfwd Ht Hg0. pose proof Ht as (Hne & Hdig & Hdot & Hhd & Hlast).
  unfold re_match. apply bol_step, seq_step.
  apply Hfwd.
  { apply Forall_app; split; [apply blanks_none_digit; exact Hg0 | exact Hdig]. }
  next. apply yields_ws; auto. next.
  rewrite <- (app_nil_r t) at 1. apply yields_title; auto.
  - intros p1 p2 b' E Hp1 Hp2. rewrite app_nil_r.
    destruct (title_prefix_facts t p1 p2 Ht E Hp2) as (_ & _ & H3).
    apply eol_fails; assumption.
  - next. simpl. rewrite <- dated_date_first. apply yields_accept.
Qed.

(** *** Where the long-form patterns cannot match *)

Lemma run_seq_eq r1 r2 b s gd k :
  run (r1 ;; r2) b s gd k = run r1 b s gd (fun b' s' gd' => run r2 b' s' gd' k).
Proof. reflexivity. Qed.

Lemma lstrip_blanks g q : blanks g -> lstrip is_space (g ++ q) = lstrip is_space q.
Proof.
  induction 1 as [|c g Hc _ IH]; simpl; [reflexivity|]. rewrite Hc. exact IH.
Qed.

Lemma cn_date_starts b s gd k x :
  run cn_date b s gd k = Some x -> starts_cn_year s = true.
Proof.
  unfold cn_date, y4, ws. cbn [run]. intros H.
  apply rep_inv in H. destruct H as (p & q & -> & Hp & Hlo & Hhi & H).
  apply rep_inv in H. destruct H as (pw & q' & -> & Hpw & _ & _ & H).
  destruct q' as [|c q']; [discriminate|].
  destruct (lit nian c) eqn:Ec; [|discriminate].
  simpl in Hhi.
  destruct p as [|d1 [|d2 [|d3 [|d4 [|d5 p]]]]]; simpl in Hlo, Hhi; try lia.
  inversion Hp as [|? ? H1 Hp1]; subst. inversion Hp1 as [|? ? H2 Hp2]; subst.
  inversion Hp2 as [|? ? H3 Hp3]; subst. inversion Hp3 as [|? ? H4 _]; subst.
  apply lit_eq in Ec. subst c.
  unfold starts_cn_year. simpl app. cbv iota beta.
  rewrite H1, H2, H3, H4, lstrip_blanks by exact Hpw.
  change (lstrip is_space (nian :: q')) with (nian :: q').
  reflexivity.
Qed.

Lemma cn_tf_inv s m :
  re_match cn_title_first s = Some m ->
  exists a c, s = a ++ c /\ a <> [] /\ starts_cn_year c = true.
Proof.
  intros H. apply title_first_inv in H. destruct H as (p & q & -> & Hp & _ & H).
  rewrite run_seq_eq in H. apply run_inv in H.
  destruct H as (p1 & q1 & gd1 & -> & H & _).
  rewrite run_seq_eq in H. apply cn_date_starts in H.
  exists (p ++ p1), q1. rewrite <- app_assoc. splits; auto.
  destruct p; [congruence | discriminate].
Qed.

Lemma cn_df_inv s m :
  re_match cn_date_first s = Some m -> starts_cn_year s = true.
Proof.
  unfold re_match, cn_date_first. intros H.
  change (run (cn_date ;; ws ;; title_grp ;; Eol) [] s no_groups accept = Some m) in H.
  rewrite run_seq_eq in H. apply cn_date_starts in H. exact H.
Qed.

Lemma cn_tf_none_tail x s : no_cn_year s -> re_match cn_title_first (x :: s) = None.
Proof.
  intros H. destruct (re_match cn_title_first (x :: s)) eqn:E; [|reflexivity].
  apply cn_tf_inv in E. destruct E as (a & c & Hs & Ha & E).
  destruct a as [|y a]; [congruence|]. inversion Hs; subst.
  rewrite (H a c eq_refl) in E. discriminate.
Qed.

Lemma no_cn_year_nil : no_cn_year [].
Proof.
  intros a c E. symmetry in E. apply app_eq_nil in E. destruct E; subst. reflexivity.
Qed.

Lemma no_cn_year_cons x s :
  starts_cn_year (x :: s) = false -> no_cn_year s -> no_cn_year (x :: s).
Proof.
  intros Hx Hs a c E. destruct a as [|y a]; simpl in E.
  - subst c. exact Hx.
  - inversion E; subst. apply (Hs a c eq_refl).
Qed.

Lemma starts_nondigit x s : is_digit x = false -> starts_cn_year (x :: s) = false.
Proof. intros H. destruct s as [|? [|? [|? ?]]]; simpl; rewrite ?H; reflexivity. Qed.

Lemma no_cn_year_app pre tail :
  none is_digit pre -> no_cn_year tail -> no_cn_year (pre ++ tail).
Proof.
  induction 1 as [|x pre Hx _ IH]; simpl; intros Ht; [exact Ht|].
  apply no_cn_year_cons; [apply starts_nondigit; exact Hx | apply IH; exact Ht].
Qed.

Lemma no_cn_year_none s : none is_digit s -> no_cn_year s.
Proof.
  intros H. rewrite <- (app_nil_r s). apply no_cn_year_app; [exact H | apply no_cn_year_nil].
Qed.

Lemma starts_short ds rest :
  (length ds < 4)%nat -> stops is_digit rest -> starts_cn_year (ds ++ rest) = false.
Proof.
  intros Hl Hr.
  destruct ds as [|d1 [|d2 [|d3 [|d4 ds]]]]; simpl in Hl; try lia;
    destruct rest as [|x [|x2 [|x3 [|x4 rest]]]]; simpl in *;
    rewrite ?Hr, ?andb_false_r; reflexivity.
Qed.

Lemma no_cn_year_block ds rest :
  (length ds < 4)%nat -> stops is_digit rest -> no_cn_year rest ->
  no_cn_year (ds ++ rest).
Proof.
  induction ds as [|d ds IH]; simpl; intros Hl Hr Hn; [exact Hn|].
  apply no_cn_year_cons.
  - apply (starts_short (d :: ds) rest); [simpl; lia | exact Hr].
  - apply IH; [lia | exact Hr | exact Hn].
Qed.

Lemma short_lt4 ds : short_digits ds -> (length ds < 4)%nat.
Proof. intros [_ H]; lia. Qed.

Lemma nian_not_digit : is_digit nian = false.
Proof. vm_compute; reflexivity. Qed.

Lemma yue_not_digit : is_digit yue = false.
Proof. vm_compute; reflexivity. Qed.

Lemma ri_not_digit : is_digit ri = false.
Proof. vm_compute; reflexivity. Qed.

(** The rest of a long-form text after its first digit. *)
Lemma no_cn_year_cn_month g2 M g3 r :
  short_digits M -> blanks g2 -> blanks g3 -> no_cn_year r ->
  no_cn_year (nian :: g2 ++ M ++ g3 ++ yue :: r).
Proof.
  intros HM Hg2 Hg3 Hr.
  apply no_cn_year_cons; [apply starts_nondigit, nian_not_digit|].
  apply no_cn_year_app; [apply blanks_none_digit; exact Hg2|].
  apply no_cn_year_block;
    [apply short_lt4; auto | apply stops_digit_blank; [auto | apply yue_not_digit]|].
  apply no_cn_year_app; [apply blanks_none_digit; exact Hg3|].
  apply no_cn_year_cons; [apply starts_nondigit, yue_not_digit | exact Hr].
Qed.

Lemma no_cn_year_cn_ymd_tail y1 Y' g1 g2 M g3 g4 D g5 rest :
  year_digits (y1 :: Y') -> short_digits M -> short_digits D ->
  blanks g1 -> blanks g2 -> blanks g3 -> blanks g4 -> blanks g5 ->
  none is_digit rest ->
  no_cn_year ((Y' ++ g1 ++ nian :: g2 ++ M ++ g3 ++ yue :: g4 ++ D ++ g5 ++ [ri])
              ++ rest).
Proof.
  intros [HY Hl] HM HD Hg1 Hg2 Hg3 Hg4 Hg5 Hr.
  repeat (rewrite <- ?app_assoc; simpl app).
  apply no_cn_year_block;
    [simpl in Hl; lia | apply stops_digit_blank; [auto | apply nian_not_digit]|].
  apply no_cn_year_app; [apply blanks_none_digit; exact Hg1|].
  apply no_cn_year_cn_month; auto.
  apply no_cn_year_app; [apply blanks_none_digit; exact Hg4|].
  apply no_cn_year_block;
    [apply short_lt4; auto | apply stops_digit_blank; [auto | apply ri_not_digit]|].
  apply no_cn_year_app; [apply blanks_none_digit; exact Hg5|].
  apply no_cn_year_cons; [apply starts_nondigit, ri_not_digit|].
  apply no_cn_year_none; exact Hr.
Qed.

(** *** Parsing a name made of a title and a date *)

Lemma to_date_dated Y M D y m d :
  int Y = Some y -> int M = Some m -> day_value D = Some d ->
  (forall ds, D = Some ds -> ds <> []) ->
  _to_date Y M D = dt_date y m d.
Proof.
  intros HY HM HD Hne. unfold _to_date. rewrite HY, HM.
  destruct D as [ds|]; simpl in HD.
  - destruct ds as [|c ds]; [destruct (Hne [] eq_refl eq_refl)|].
    simpl is_empty. cbv iota. rewrite HD. reflexivity.
  - inversion HD; reflexivity.
Qed.

Lemma parse_by before pat after name t Y M D :
  stops is_space name -> stops is_space (rev name) ->
  _cn_patterns ++ _iso_patterns = before ++ pat :: after ->
  Forall (fun p => re_match p name = None) before ->
  yields (re_match pat name) (dated t Y M D) ->
  title_ok t ->
  parse_title_date name = (t, _to_date Y M D).
Proof.
  intros H1 H2 Hl Hb (m & Hm & HG) (_ & _ & _ & Ht1 & Ht2).
  pose proof (strip_id name H1 H2) as Hs.
  rewrite <- Hs in Hb, Hm.
  rewrite (parse_first_match name before pat after m Hl Hb Hm), HG. simpl.
  rewrite (strip_id t Ht1 Ht2). reflexivity.
Qed.

Lemma date_text_starts txt Y M D :
  date_text txt Y M D -> year_digits Y ->
  exists y1 r, txt = y1 :: r /\ is_digit y1 = true.
Proof.
  intros H [HY Hl]. destruct Y as [|y1 Y']; [discriminate|].
  inversion HY; subst.
  inversion H; subst; simpl; eauto.
Qed.

Lemma date_text_ends txt Y M D :
  date_text txt Y M D -> short_digits M ->
  (forall ds, D = Some ds -> short_digits ds) ->
  exists u c, txt = u ++ [c] /\ is_space c = false.
Proof.
  assert (Hlast : forall pre ds, short_digits ds ->
            exists u c, pre ++ ds = u ++ [c] /\ is_space c = false).
  { intros pre ds Hds. pose proof (short_nonempty _ Hds) as Hne.
    destruct Hds as [Hds _].
    destruct (exists_last Hne) as (p' & c & ->).
    apply Forall_app in Hds. destruct Hds as [_ Hc]. inversion Hc; subst.
    exists (pre ++ p'), c. rewrite app_assoc.
    split; [reflexivity | apply digit_not_space; assumption]. }
  intros H HM HD. inversion H; subst.
  - exists (Y ++ g1 ++ nian :: g2 ++ M ++ g3), yue.
    split; [repeat (rewrite <- ?app_assoc; simpl app); reflexivity|].
    vm_compute; reflexivity.
  - exists (Y ++ g1 ++ nian :: g2 ++ M ++ g3 ++ yue :: g4 ++ D0 ++ g5), ri.
    split; [repeat (rewrite <- ?app_assoc; simpl app); reflexivity|].
    vm_compute; reflexivity.
  - destruct (Hlast (Y ++ [s1]) M HM) as (u & c & E & Hc).
    exists u, c. rewrite <- E, <- app_assoc. auto.
  - destruct (Hlast (Y ++ s1 :: M ++ [s2]) D0 (HD _ eq_refl)) as (u & c & E & Hc).
    exists u, c. rewrite <- E. repeat (rewrite <- ?app_assoc; simpl app). auto.
Qed.

Lemma stops_rev_last cls (u : str) c : cls c = false -> stops cls (rev (u ++ [c])).
Proof. intros H. rewrite rev_app_distr. simpl. exact H. Qed.

Lemma title_first_name_ends t g0 txt u c :
  title_ok t -> txt = u ++ [c] -> is_space c = false ->
  stops is_space (t ++ g0 ++ txt) /\ stops is_space (rev (t ++ g0 ++ txt)).
Proof.
  intros (Hne & _ & _ & Hhd & _) -> Hc. split.
  - apply stops_app; assumption.
  - rewrite !app_assoc. apply stops_rev_last; exact Hc.
Qed.

Lemma date_first_name_ends t g0 txt y1 r :
  title_ok t -> txt = y1 :: r -> is_digit y1 = true ->
  stops is_space (txt ++ g0 ++ t) /\ stops is_space (rev (txt ++ g0 ++ t)).
Proof.
  intros (Hne & _ & _ & _ & Hlast) -> Hy. split.
  - simpl. apply digit_not_space; exact Hy.
  - rewrite !rev_app_distr, <- app_assoc. apply stops_app; [|exact Hlast].
    intros E. apply (f_equal (@rev N)) in E. rewrite rev_involutive in E.
    simpl in E. congruence.
Qed.

Lemma starts_digit_stops txt : starts_digit txt -> stops is_space txt.
Proof. intros (y1 & r & -> & H). simpl. apply digit_not_space; exact H. Qed.

Lemma none_title_gap t g0 : title_ok t -> blanks g0 -> none is_digit (g0 ++ t).
Proof.
  intros (_ & Hd & _) Hg. apply Forall_app. split; [apply blanks_none_digit|]; assumption.
Qed.

Lemma cn_tf_parse txt Y M D t g0 :
  date_fwd cn_date txt Y M D -> starts_digit txt -> ends_nonspace txt ->
  title_ok t -> blanks g0 ->
  parse_title_date (t ++ g0 ++ txt) = (t, _to_date Y M D).
Proof.
  intros Hf Hs (u & c & Eu & Hc) Ht Hg.
  destruct (title_first_name_ends t g0 txt u c Ht Eu Hc) as [Ha Hb].
  apply (parse_by [] cn_title_first [cn_date_first; iso_title_first; iso_date_first]);
    auto.
  apply tf_fwd; auto using cn_date_needs_digit, starts_digit_stops.
Qed.

Lemma cn_df_parse txt y1 r Y M D t g0 :
  date_fwd cn_date txt Y M D -> txt = y1 :: r -> is_digit y1 = true ->
  no_cn_year (r ++ g0 ++ t) -> title_ok t -> blanks g0 ->
  parse_title_date (txt ++ g0 ++ t) = (t, _to_date Y M D).
Proof.
  intros Hf Etxt Hy Hn Ht Hg.
  destruct (date_first_name_ends t g0 txt y1 r Ht Etxt Hy) as [Ha Hb].
  apply (parse_by [cn_title_first] cn_date_first [iso_title_first; iso_date_first]);
    auto.
  - constructor; [|constructor]. rewrite Etxt. simpl. apply cn_tf_none_tail; exact Hn.
  - apply df_fwd; auto.
Qed.

Lemma all_forallb cls s : forallb cls s = true -> all cls s.
Proof. intros H. apply Forall_forall. apply forallb_forall; exact H. Qed.

Lemma title_okb_ok t : title_okb t = true -> title_ok t.
Proof.
  unfold title_okb, title_ok. rewrite !andb_true_iff, !negb_true_iff.
  intros ((((H1 & H2) & H3) & H4) & H5). splits.
  - intros ->; discriminate.
  - apply Forall_forall. intros c Hc.
    apply negb_true_iff. revert c Hc. apply forallb_forall. exact H2.
  - apply all_forallb; exact H3.
  - destruct t as [|c t]; simpl in *; [auto|]. rewrite orb_false_r in H4. exact H4.
  - destruct (rev t) as [|c r]; simpl in *; [auto|]. rewrite orb_false_r in H5. exact H5.
Qed.

Lemma year_digitsb_ok s : year_digitsb s = true -> year_digits s.
Proof.
  unfold year_digitsb. rewrite andb_true_iff, Nat.eqb_eq.
  intros [H1 H2]. split; [apply all_forallb|]; assumption.
Qed.

Lemma short_digitsb_ok s : short_digitsb s = true -> short_digits s.
Proof.
  unfold short_digitsb. rewrite !andb_true_iff, !Nat.leb_le.
  intros [[H1 H2] H3]. split; [apply all_forallb; assumption | lia].
Qed.

(** ** Names made of a title and a date: any title *)

(** *** Lists *)

Lemma last_occurrence {A} (c : A) l r l' r' :
  l ++ c :: r = l' ++ c :: r' -> ~ In c r -> ~ In c r' -> l = l' /\ r = r'.
Proof.
  revert l'; induction l as [|x l IH]; intros [|x' l'] E Hr Hr'; simpl in E.
  - inversion E; auto.
  - inversion E; subst. exfalso. apply Hr. apply in_or_app; right; left; reflexivity.
  - inversion E; subst. exfalso. apply Hr'. apply in_or_app; right; left; reflexivity.
  - inversion E; subst. destruct (IH l' H1 Hr Hr') as [-> ->]. auto.
Qed.

Lemma lstrip_run p (g : str) c q :
  Forall (fun x => p x = true) g -> p c = false -> lstrip p (g ++ c :: q) = c :: q.
Proof.
  induction 1 as [|x g Hx _ IH]; simpl; intros Hc; [rewrite Hc; reflexivity|].
  rewrite Hx. apply IH; exact Hc.
Qed.

(** The run of a class at the end of a text is what follows the last
    character outside the class. *)
Lemma split_last_not p (u : str) c r u' c' r' :
  u ++ c :: r = u' ++ c' :: r' ->
  Forall (fun x => p x = true) r -> Forall (fun x => p x = true) r' ->
  p c = false -> p c' = false ->
  u = u' /\ c = c' /\ r = r'.
Proof.
  intros E Hr Hr' Hc Hc'.
  apply (f_equal (@rev N)) in E. rewrite !rev_app_distr in E. simpl in E.
  rewrite <- !app_assoc in E. simpl in E.
  assert (c :: rev u = c' :: rev u') as E'.
  { rewrite <- (lstrip_run p (rev r) c (rev u)) by (auto using Forall_rev).
    rewrite <- (lstrip_run p (rev r') c' (rev u')) by (auto using Forall_rev).
    rewrite E. reflexivity. }
  injection E' as Ec Eu. subst c'.
  apply (f_equal (@rev N)) in Eu. rewrite !rev_involutive in Eu. subst u'.
  change (c :: rev u) with ([c] ++ rev u) in E. rewrite !app_assoc in E.
  apply app_inv_tail in E. apply app_inj_tail in E. destruct E as [E _].
  apply (f_equal (@rev N)) in E. rewrite !rev_involutive in E. auto.
Qed.

Lemma app_inv_len {A} (a a' y y' : list A) :
  a ++ y = a' ++ y' -> length y = length y' -> a = a' /\ y = y'.
Proof.
  revert a'; induction a as [|x a IH]; intros [|x' a'] E Hl; simpl in *.
  - auto.
  - subst y. simpl in Hl. rewrite length_app in Hl. lia.
  - subst y'. simpl in Hl. rewrite length_app in Hl. lia.
  - inversion E; subst. destruct (IH a' H1 Hl) as [-> ->]. auto.
Qed.

(** A text that ends with [n] characters of a class does not end with a
    character outside the class followed by fewer than [n] characters. *)
Lemma ends_in_class p (u ds v : str) c ms :
  u ++ ds = v ++ c :: ms ->
  Forall (fun x => p x = true) ds -> p c = false -> (length ms < length ds)%nat ->
  False.
Proof.
  intros E Hds Hc Hl.
  apply (f_equal (@rev N)) in E. rewrite !rev_app_distr in E. simpl in E.
  rewrite <- app_assoc in E. simpl in E.
  apply (f_equal (fun l => nth_error l (length ms))) in E.
  rewrite nth_error_app1 in E by (rewrite length_rev; exact Hl).
  rewrite nth_error_app2 in E by (rewrite length_rev; lia).
  rewrite length_rev, Nat.sub_diag in E. simpl in E.
  apply nth_error_In in E. apply in_rev in E.
  rewrite Forall_forall in Hds. rewrite (Hds c E) in Hc. discriminate.
Qed.

Lemma all_last p (u : str) c :
  Forall (fun x => p x = true) (u ++ [c]) -> p c = true.
Proof. intros H. apply Forall_app in H. destruct H as [_ H]. inversion H; assumption. Qed.

Lemma nonempty_last (p2 : str) :
  p2 <> [] -> stops is_space (rev p2) -> exists u c, p2 = u ++ [c] /\ is_space c = false.
Proof.
  intros Hne H. destruct (exists_last Hne) as (u & c & ->).
  rewrite rev_app_distr in H. simpl in H. eauto.
Qed.

(** *** What a match of each step tells *)

Lemma ws_inv b s gd k x :
  run ws b s gd k = Some x ->
  exists g q, s = g ++ q /\ blanks g /\ k (rev g ++ b) q gd = Some x.
Proof.
  unfold ws. cbn [run]. intros H. apply rep_inv in H.
  destruct H as (p & q & -> & Hp & _ & _ & H). eauto.
Qed.

Lemma digits_inv grp lo hi b s gd k x :
  run (Grp grp (Rep is_digit lo (Some hi) true)) b s gd k = Some x ->
  exists ds q, s = ds ++ q /\ all is_digit ds /\ (lo <= length ds <= hi)%nat /\
    k (rev ds ++ b) q (set_group grp ds gd) = Some x.
Proof.
  cbn [run]. intros H. apply rep_inv in H.
  destruct H as (p & q & -> & Hp & Hlo & Hhi & H).
  rewrite firstn_prefix in H. simpl in Hhi. exists p, q. splits; auto.
Qed.

Lemma chr_inv cls b s gd k x :
  run (Chr cls) b s gd k = Some x ->
  exists c q, s = c :: q /\ cls c = true /\ k (c :: b) q gd = Some x.
Proof.
  simpl. destruct s as [|c q]; [discriminate|].
  destruct (cls c) eqn:E; [|discriminate]. eauto.
Qed.

Lemma opt_inv r b s gd k x :
  run (Opt r) b s gd k = Some x -> run r b s gd k = Some x \/ k b s gd = Some x.
Proof. simpl. destruct (run r b s gd k); [intros e; inversion e; auto | auto]. Qed.

Lemma title_inv b s gd k x :
  run title_grp b s gd k = Some x ->
  exists p q, s = p ++ q /\ p <> [] /\ all dot p /\
    k (rev p ++ b) q (set_group Gtitle p gd) = Some x.
Proof.
  unfold title_grp. cbn [run]. intros H. apply rep_inv in H.
  destruct H as (p & q & -> & Hp & Hlo & _ & H).
  rewrite firstn_prefix in H. exists p, q. splits; auto.
  destruct p; [simpl in Hlo; lia | discriminate].
Qed.

Lemma year_of_digits ds : all is_digit ds -> (4 <= length ds <= 4)%nat -> year_digits ds.
Proof. intros H Hl. split; [exact H | lia]. Qed.

Lemma short_of_digits ds : all is_digit ds -> (1 <= length ds <= 2)%nat -> short_digits ds.
Proof. intros H Hl. split; [exact H | lia]. Qed.

(** Every match of the long date pattern reads a long date text. *)
Lemma cn_date_inv b s gd k x :
  run cn_date b s gd k = Some x ->
  exists X Y M D q b' gd',
    s = X ++ q /\ cn_text X Y M D /\ k b' q gd' = Some x.
Proof.
  unfold cn_date, y4, m12, d12. intros H.
  rewrite run_seq_eq in H. apply digits_inv in H.
  destruct H as (Y & q0 & -> & HY & HYl & H).
  rewrite run_seq_eq in H. apply ws_inv in H. destruct H as (g1 & q1 & -> & Hg1 & H).
  rewrite run_seq_eq in H. apply chr_inv in H. destruct H as (c1 & q2 & -> & Hc1 & H).
  apply lit_eq in Hc1. subst c1.
  rewrite run_seq_eq in H. apply ws_inv in H. destruct H as (g2 & q3 & -> & Hg2 & H).
  rewrite run_seq_eq in H. apply digits_inv in H.
  destruct H as (M & q4 & -> & HM & HMl & H).
  rewrite run_seq_eq in H. apply ws_inv in H. destruct H as (g3 & q5 & -> & Hg3 & H).
  rewrite run_seq_eq in H. apply chr_inv in H. destruct H as (c2 & q6 & -> & Hc2 & H).
  apply lit_eq in Hc2. subst c2.
  apply opt_inv in H. destruct H as [H|H].
  - rewrite run_seq_eq in H. apply ws_inv in H. destruct H as (g4 & q7 & -> & Hg4 & H).
    rewrite run_seq_eq in H. apply digits_inv in H.
    destruct H as (D & q8 & -> & HD & HDl & H).
    rewrite run_seq_eq in H. apply ws_inv in H. destruct H as (g5 & q9 & -> & Hg5 & H).
    apply chr_inv in H. destruct H as (c3 & q10 & -> & Hc3 & H).
    apply lit_eq in Hc3. subst c3.
    exists (Y ++ g1 ++ nian :: g2 ++ M ++ g3 ++ yue :: g4 ++ D ++ g5 ++ [ri]),
      Y, M, (Some D), q10. do 2 eexists.
    split; [repeat (rewrite <- ?app_assoc; simpl app); reflexivity|].
    split; [|exact H].
    apply cn_text_ymd; auto using year_of_digits, short_of_digits.
  - exists (Y ++ g1 ++ nian :: g2 ++ M ++ g3 ++ [yue]), Y, M, None, q6.
    do 2 eexists.
    split; [repeat (rewrite <- ?app_assoc; simpl app); reflexivity|].
    split; [|exact H].
    apply cn_text_ym; auto using year_of_digits, short_of_digits.
Qed.

(** Every match of the numeric date pattern reads a numeric date text. *)
Lemma iso_date_inv b s gd k x :
  run iso_date b s gd k = Some x ->
  exists X Y M D q b' gd',
    s = X ++ q /\ iso_text X Y M D /\ k b' q gd' = Some x.
Proof.
  unfold iso_date, y4, m12, d12. intros H.
  rewrite run_seq_eq in H. apply digits_inv in H.
  destruct H as (Y & q0 & -> & HY & HYl & H).
  rewrite run_seq_eq in H. apply chr_inv in H. destruct H as (s1 & q1 & -> & Hs1 & H).
  rewrite run_seq_eq in H. apply digits_inv in H.
  destruct H as (M & q2 & -> & HM & HMl & H).
  apply opt_inv in H. destruct H as [H|H].
  - rewrite run_seq_eq in H. apply chr_inv in H. destruct H as (s2 & q3 & -> & Hs2 & H).
    apply digits_inv in H. destruct H as (D & q4 & -> & HD & HDl & H).
    exists (Y ++ s1 :: M ++ s2 :: D), Y, M, (Some D), q4. do 2 eexists.
    split; [repeat (rewrite <- ?app_assoc; simpl app); reflexivity|].
    split; [|exact H].
    apply iso_text_ymd; auto using year_of_digits, short_of_digits.
  - exists (Y ++ s1 :: M), Y, M, None, q2. do 2 eexists.
    split; [repeat (rewrite <- ?app_assoc; simpl app); reflexivity|].
    split; [|exact H].
    apply iso_text_ym; auto using year_of_digits, short_of_digits.
Qed.

(** *** Date texts *)

Lemma cn_text_date_text X Y M D : cn_text X Y M D -> date_text X Y M D.
Proof. intros H; inversion H; subst; constructor; assumption. Qed.

Lemma iso_text_date_text X Y M D : iso_text X Y M D -> date_text X Y M D.
Proof. intros H; inversion H; subst; constructor; assumption. Qed.

Lemma cn_text_digits X Y M D :
  cn_text X Y M D ->
  year_digits Y /\ short_digits M /\ forall ds, D = Some ds -> short_digits ds.
Proof.
  intros H; inversion H; subst; splits; auto; intros ds E; inversion E; subst; auto.
Qed.

Lemma iso_text_digits X Y M D :
  iso_text X Y M D ->
  year_digits Y /\ short_digits M /\ forall ds, D = Some ds -> short_digits ds.
Proof.
  intros H; inversion H; subst; splits; auto; intros ds E; inversion E; subst; auto.
Qed.

Lemma cn_text_fwd X Y M D : cn_text X Y M D -> date_fwd cn_date X Y M D.
Proof.
  intros H; inversion H; subst; [apply cn_ym_fwd | apply cn_ymd_fwd]; assumption.
Qed.

Lemma iso_text_fwd X Y M D : iso_text X Y M D -> date_fwd iso_date X Y M D.
Proof.
  intros H; inversion H; subst; [apply iso_ym_fwd | apply iso_ymd_fwd]; assumption.
Qed.

Lemma cn_text_last X Y M D :
  cn_text X Y M D -> exists u c, X = u ++ [c] /\ (c = yue \/ c = ri).
Proof.
  intros H; inversion H; subst.
  - exists (Y ++ g1 ++ nian :: g2 ++ M ++ g3), yue.
    split; [repeat (rewrite <- ?app_assoc; simpl app); reflexivity | auto].
  - exists (Y ++ g1 ++ nian :: g2 ++ M ++ g3 ++ yue :: g4 ++ D0 ++ g5), ri.
    split; [repeat (rewrite <- ?app_assoc; simpl app); reflexivity | auto].
Qed.

Lemma digits_last pre ds :
  short_digits ds -> exists u c, pre ++ ds = u ++ [c] /\ is_digit c = true.
Proof.
  intros Hds. pose proof (short_nonempty _ Hds) as Hne. destruct Hds as [Hds _].
  destruct (exists_last Hne) as (p' & c & ->).
  exists (pre ++ p'), c. rewrite app_assoc. split; [reflexivity|].
  eapply all_last; exact Hds.
Qed.

Lemma iso_text_last X Y M D :
  iso_text X Y M D -> exists u c, X = u ++ [c] /\ is_digit c = true.
Proof.
  intros H; inversion H; subst.
  - destruct (digits_last (Y ++ [s1]) M) as (u & c & E & Hc); [assumption|].
    exists u, c. rewrite <- E, <- app_assoc. auto.
  - destruct (digits_last (Y ++ s1 :: M ++ [s2]) D0) as (u & c & E & Hc); [assumption|].
    exists u, c. rewrite <- E. repeat (rewrite <- ?app_assoc; simpl app). auto.
Qed.

Lemma written_last X :
  written_date X ->
  exists u c, X = u ++ [c] /\ (c = yue \/ c = ri \/ is_digit c = true).
Proof.
  intros (Y & M & D & [H|H]).
  - destruct (cn_text_last _ _ _ _ H) as (u & c & E & [Hc|Hc]); eauto 6.
  - destruct (iso_text_last _ _ _ _ H) as (u & c & E & Hc); eauto 6.
Qed.

Lemma yue_not_space : is_space yue = false.
Proof. vm_compute; reflexivity. Qed.

Lemma ri_not_space : is_space ri = false.
Proof. vm_compute; reflexivity. Qed.

Lemma written_last_not_space X :
  written_date X -> exists u c, X = u ++ [c] /\ is_space c = false.
Proof.
  intros H. destruct (written_last X H) as (u & c & E & [->|[->|Hc]]);
    exists u; eexists; (split; [exact E|]);
    auto using yue_not_space, ri_not_space, digit_not_space.
Qed.

Lemma not_in_class cls (g : str) c : all cls g -> cls c = false -> ~ In c g.
Proof.
  intros Hg Hc Hin. unfold all in Hg. rewrite Forall_forall in Hg.
  rewrite (Hg c Hin) in Hc. discriminate.
Qed.

Lemma nian_not_space : is_space nian = false.
Proof. vm_compute; reflexivity. Qed.

(** A long date text holds [nian] once, after the year. *)
Lemma cn_text_split X Y M D :
  cn_text X Y M D ->
  exists g1 R, X = Y ++ g1 ++ nian :: R /\ year_digits Y /\ blanks g1 /\ ~ In nian R.
Proof.
  intros H; inversion H; subst.
  - exists g1, (g2 ++ M ++ g3 ++ [yue]). splits; auto.
    rewrite !in_app_iff. simpl.
    intros [Hi|[Hi|[Hi|[Hi|[]]]]];
      [apply (not_in_class is_space g2 nian) | apply (not_in_class is_digit M nian)
       | apply (not_in_class is_space g3 nian) | discriminate Hi];
      auto using nian_not_space, nian_not_digit.
    destruct H1; assumption.
  - exists g1, (g2 ++ M ++ g3 ++ yue :: g4 ++ D0 ++ g5 ++ [ri]). splits; auto.
    rewrite !in_app_iff. simpl. rewrite !in_app_iff. simpl.
    intros [Hi|[Hi|[Hi|[Hi|[Hi|[Hi|[Hi|[Hi|[]]]]]]]]];
      [apply (not_in_class is_space g2 nian) | apply (not_in_class is_digit M nian)
       | apply (not_in_class is_space g3 nian) | discriminate Hi
       | apply (not_in_class is_space g4 nian) | apply (not_in_class is_digit D0 nian)
       | apply (not_in_class is_space g5 nian) | discriminate Hi];
      auto using nian_not_space, nian_not_digit.
    + destruct H1; assumption.
    + destruct H2; assumption.
Qed.

Lemma year_last Y : year_digits Y -> exists u c, Y = u ++ [c] /\ is_digit c = true.
Proof.
  intros [HY Hl]. assert (Y <> []) as Hne by (intros ->; discriminate).
  destruct (exists_last Hne) as (u & c & ->). exists u, c.
  split; [reflexivity | eapply all_last; exact HY].
Qed.

Lemma trailing_run p (u g u' g' : str) :
  u ++ g = u' ++ g' ->
  Forall (fun x => p x = true) g -> Forall (fun x => p x = true) g' ->
  (exists v c, u = v ++ [c] /\ p c = false) ->
  (exists v c, u' = v ++ [c] /\ p c = false) ->
  u = u' /\ g = g'.
Proof.
  intros E Hg Hg' (v & c & -> & Hc) (v' & c' & -> & Hc').
  rewrite <- !app_assoc in E. simpl in E.
  apply (split_last_not p) in E; auto.
  destruct E as (-> & -> & ->). auto.
Qed.

(** Where a long date text ends a name, it begins at one place only. *)
Lemma cn_text_unique a X Y M D a' X' Y' M' D' :
  cn_text X Y M D -> cn_text X' Y' M' D' -> a ++ X = a' ++ X' -> a = a'.
Proof.
  intros H H' E.
  destruct (cn_text_split _ _ _ _ H) as (g1 & R & -> & HY & Hg1 & HR).
  destruct (cn_text_split _ _ _ _ H') as (g1' & R' & -> & HY' & Hg1' & HR').
  rewrite !app_assoc in E. apply last_occurrence in E; auto.
  destruct E as [E _].
  destruct (year_last _ HY) as (u & c & EY & Hc).
  destruct (year_last _ HY') as (u' & c' & EY' & Hc').
  apply (trailing_run is_space) in E; auto.
  - destruct E as [E _]. destruct HY as [_ Hl], HY' as [_ Hl'].
    apply app_inv_len in E; [tauto | lia].
  - exists (a ++ u), c. rewrite EY, app_assoc. auto using digit_not_space.
  - exists (a' ++ u'), c'. rewrite EY', app_assoc. auto using digit_not_space.
Qed.

Lemma iso_ym_unique a Y s1 M a' Y' s1' M' :
  year_digits Y -> year_digits Y' -> short_digits M -> short_digits M' ->
  date_sep s1 = true -> date_sep s1' = true ->
  a ++ Y ++ s1 :: M = a' ++ Y' ++ s1' :: M' -> a = a'.
Proof.
  intros [HY Hl] [HY' Hl'] [HM _] [HM' _] Hs Hs' E.
  rewrite !app_assoc in E.
  apply (split_last_not is_digit) in E; auto using sep_not_digit.
  destruct E as (E & _ & _). apply app_inv_len in E; [tauto | lia].
Qed.

Lemma iso_ymd_ym_clash a Y s1 M a' Y' :
  year_digits Y' -> short_digits M -> date_sep s1 = true ->
  a ++ Y ++ s1 :: M = a' ++ Y' -> False.
Proof.
  intros [HY' Hl'] [HM HMl] Hs E. symmetry in E. rewrite app_assoc in E.
  apply (ends_in_class is_digit) in E; auto using sep_not_digit. lia.
Qed.

Lemma iso_text_forms X Y M D :
  iso_text X Y M D ->
  year_digits Y /\ short_digits M /\
  ((exists s1, X = Y ++ s1 :: M /\ D = None /\ date_sep s1 = true)
   \/ (exists s1 s2 Dd, X = Y ++ s1 :: M ++ s2 :: Dd /\ D = Some Dd /\
         date_sep s1 = true /\ date_sep s2 = true /\ short_digits Dd)).
Proof. intros H; inversion H; subst; splits; auto; [left | right]; eauto 10. Qed.

(** Where a numeric date text ends a name, it begins at one place only. *)
Lemma iso_text_unique a X Y M D a' X' Y' M' D' :
  iso_text X Y M D -> iso_text X' Y' M' D' -> a ++ X = a' ++ X' -> a = a'.
Proof.
  intros H H' E.
  destruct (iso_text_forms _ _ _ _ H)
    as (HY & HM & [(s1 & -> & _ & Hs1)|(s1 & s2 & Dd & -> & _ & Hs1 & Hs2 & HD)]);
  destruct (iso_text_forms _ _ _ _ H')
    as (HY' & HM' & [(s1' & -> & _ & Hs1')
                    |(s1' & s2' & Dd' & -> & _ & Hs1' & Hs2' & HD')]).
  - eapply iso_ym_unique; [| | | | | |exact E]; eauto.
  - exfalso.
    change (a' ++ Y' ++ s1' :: M' ++ s2' :: Dd')
      with (a' ++ Y' ++ [s1'] ++ M' ++ s2' :: Dd') in E.
    rewrite !app_assoc in E. destruct HD' as [HD' _]. pose proof HM as [HM0 _].
    apply (split_last_not is_digit) in E; auto using sep_not_digit.
    destruct E as (E & _ & _). symmetry in E. rewrite <- !app_assoc in E.
    eapply iso_ymd_ym_clash; [| | |exact E]; eauto.
  - exfalso.
    change (a ++ Y ++ s1 :: M ++ s2 :: Dd)
      with (a ++ Y ++ [s1] ++ M ++ s2 :: Dd) in E.
    rewrite !app_assoc in E. destruct HD as [HD _]. pose proof HM' as [HM0 _].
    apply (split_last_not is_digit) in E; auto using sep_not_digit.
    destruct E as (E & _ & _). rewrite <- !app_assoc in E.
    eapply iso_ymd_ym_clash; [| | |exact E]; eauto.
  - change (a ++ Y ++ s1 :: M ++ s2 :: Dd)
      with (a ++ Y ++ [s1] ++ M ++ s2 :: Dd) in E.
    change (a' ++ Y' ++ s1' :: M' ++ s2' :: Dd')
      with (a' ++ Y' ++ [s1'] ++ M' ++ s2' :: Dd') in E.
    rewrite !app_assoc in E. destruct HD as [HD _]. destruct HD' as [HD' _].
    apply (split_last_not is_digit) in E; auto using sep_not_digit.
    destruct E as (E & _ & _). rewrite <- !app_assoc in E.
    eapply iso_ym_unique; [| | | | | |exact E]; eauto.
Qed.

(** *** Names that end with white space or a line break *)

Lemma ends_newline_not_stripped (u : str) : ~ stops is_space (rev (u ++ [10])).
Proof. rewrite rev_app_distr. simpl. discriminate. Qed.

Lemma shape_suffix t p1 p2 :
  title_shape t -> t = p1 ++ p2 -> p2 <> [] -> stops is_space (rev p2) /\ all dot p2.
Proof.
  intros (_ & Hdot & _ & Hl) -> Hne. apply Forall_app in Hdot. split; [|tauto].
  rewrite rev_app_distr in Hl. destruct (rev p2) eqn:E; [|exact Hl].
  apply (f_equal (@rev N)) in E. rewrite rev_involutive in E. simpl in E. congruence.
Qed.

Lemma shape_gap_end t g0 : title_shape t -> stops is_space (rev (g0 ++ t)).
Proof.
  intros (Hne & _ & _ & Hl). rewrite rev_app_distr. apply stops_app; [|exact Hl].
  intros E. apply (f_equal (@rev N)) in E. rewrite rev_involutive in E.
  simpl in E. congruence.
Qed.

(** *** The title-first patterns *)

Section TitleFirst.
Variable dt : regex.
Variable T : str -> str -> str -> option str -> Prop.
Hypothesis dt_inv : forall b s gd k x,
  run dt b s gd k = Some x ->
  exists X Y M D q b' gd', s = X ++ q /\ T X Y M D /\ k b' q gd' = Some x.
Hypothesis T_unique : forall a X Y M D a' X' Y' M' D',
  T X Y M D -> T X' Y' M' D' -> a ++ X = a' ++ X' -> a = a'.
Hypothesis T_written : forall X Y M D, T X Y M D -> written_date X.

(** What [\s*], the date and the end of the name match is white space and
    a date text. *)
Lemma ws_date_eol_inv b s gd m :
  run (ws ;; dt ;; Eol) b s gd accept = Some m ->
  exists g X Y M D q,
    s = g ++ X ++ q /\ blanks g /\ T X Y M D /\ (q = [] \/ q = [10]).
Proof.
  intros H. rewrite run_seq_eq in H. apply ws_inv in H.
  destruct H as (g & q1 & -> & Hg & H).
  rewrite run_seq_eq in H. apply dt_inv in H.
  destruct H as (X & Y & M & D & q & b' & gd' & -> & HT & H).
  apply eol_inv in H. destruct H as [Hq _].
  exists g, X, Y, M, D, q. auto.
Qed.

(** While the title is not complete, the rest of the pattern fails, digits
    or not in the title. *)
Lemma lazy_fails txt Y M D p2 g0 b gd :
  T txt Y M D -> blanks g0 -> p2 <> [] -> stops is_space (rev p2) ->
  run (ws ;; dt ;; Eol) b (p2 ++ g0 ++ txt) gd accept = None.
Proof.
  intros HT Hg0 Hne Hlast.
  destruct (run (ws ;; dt ;; Eol) b (p2 ++ g0 ++ txt) gd accept) as [m|] eqn:E;
    [exfalso | reflexivity].
  apply ws_date_eol_inv in E.
  destruct E as (g & X & Y' & M' & D' & q & E & Hg & HT' & [-> | ->]).
  - rewrite app_nil_r in E. rewrite app_assoc in E.
    apply (T_unique _ _ _ _ _ _ _ _ _ _ HT HT') in E.
    destruct (nonempty_last p2 Hne Hlast) as (u & c & -> & Hc).
    assert (In c g) as Hin
      by (rewrite <- E; apply in_or_app; left; apply in_or_app; right; left; reflexivity).
    unfold blanks, all in Hg. rewrite Forall_forall in Hg.
    rewrite (Hg c Hin) in Hc. discriminate.
  - destruct (written_last_not_space txt (T_written _ _ _ _ HT)) as (u & c & -> & Hc).
    rewrite !app_assoc in E. apply app_inj_tail in E. destruct E as [_ ->].
    discriminate Hc.
Qed.

Lemma tf_reads txt Y M D t g0 :
  date_fwd dt txt Y M D -> T txt Y M D -> stops is_space txt ->
  title_shape t -> blanks g0 ->
  yields (re_match (Bol ;; title_grp ;; ws ;; dt ;; Eol) (t ++ g0 ++ txt))
    (dated t Y M D).
Proof.
  intros Hfwd HT Htxt Ht Hg0. pose proof Ht as (Hne & Hdot & Hhd & Hlast).
  destruct (written_last_not_space txt (T_written _ _ _ _ HT)) as (u & c & Etxt & Hc).
  unfold re_match. apply bol_step, seq_step.
  apply yields_title; auto.
  - intros p1 p2 b' E Hp1 Hp2.
    destruct (shape_suffix t p1 p2 Ht E Hp2) as [H1 _].
    apply lazy_fails with (Y := Y) (M := M) (D := D); assumption.
  - next. apply yields_ws; auto.
    next.
    rewrite <- (app_nil_r txt). apply Hfwd; [constructor|].
    next. simpl. rewrite <- dated_title_first. apply yields_accept.
Qed.

(** A match of the pattern on a stripped name reads the name as some text,
    white space and a date. *)
Lemma tf_match_ends s m :
  re_match (Bol ;; title_grp ;; ws ;; dt ;; Eol) s = Some m ->
  stops is_space (rev s) -> ends_with_text T s.
Proof.
  intros H Hend. apply title_first_inv in H.
  destruct H as (p & q & -> & Hp & Hdot & H).
  apply ws_date_eol_inv in H.
  destruct H as (g & X & Y & M & D & q' & -> & Hg & HT & [-> | ->]).
  - rewrite app_nil_r. exists p, g, X, Y, M, D. splits; auto.
  - exfalso. rewrite !app_assoc in Hend.
    exact (ends_newline_not_stripped _ Hend).
Qed.
End TitleFirst.

(** *** The date-first patterns *)

Lemma title_tail_reads t g0 b gd :
  title_shape t -> blanks g0 ->
  yields (title_end b (g0 ++ t) gd) (set_group Gtitle t gd).
Proof.
  intros (Hne & Hdot & Hhd & Hlast) Hg0. unfold title_end. apply seq_step.
  apply yields_ws; auto. next.
  rewrite <- (app_nil_r t) at 1. apply yields_title; auto.
  - intros p1 p2 b' E Hp1 Hp2. rewrite app_nil_r.
    apply eol_fails; [exact Hp2|]. subst t. apply Forall_app in Hdot. tauto.
  - next. simpl. apply yields_accept.
Qed.

Lemma title_end_inv b s gd m :
  title_end b s gd = Some m ->
  exists g p q, s = g ++ p ++ q /\ blanks g /\ p <> [] /\ all dot p /\
    (q = [] \/ q = [10]).
Proof.
  unfold title_end. intros H. rewrite run_seq_eq in H. apply ws_inv in H.
  destruct H as (g & q1 & -> & Hg & H).
  rewrite run_seq_eq in H. apply title_inv in H.
  destruct H as (p & q & -> & Hp & Hdot & H).
  apply eol_inv in H. destruct H as [Hq _]. exists g, p, q. auto.
Qed.

Lemma cn_ym_reads Y g1 g2 M g3 rest b gd k G :
  year_digits Y -> short_digits M -> blanks g1 -> blanks g2 -> blanks g3 ->
  (forall b' gd', run (ws ;; d12 ;; ws ;; Chr (lit ri)) b' rest gd' k = None) ->
  (forall b', yields (k b' rest (set_date Y M None gd)) G) ->
  yields (run cn_date b ((Y ++ g1 ++ nian :: g2 ++ M ++ g3 ++ [yue]) ++ rest) gd k) G.
Proof.
  intros [HY HYl] HM Hg1 Hg2 Hg3 Hnone Hk.
  pose proof (short_nonempty _ HM) as HMne. destruct HM as [HM HMl].
  repeat (rewrite <- ?app_assoc; simpl app).
  unfold cn_date, y4, m12. apply seq_step.
  apply (yields_digits Gy 4 4); auto; [lia|]. next.
  apply yields_ws; auto; [vm_compute; reflexivity|]. next.
  apply yields_chr; [apply N.eqb_refl|]. next.
  apply yields_ws; auto; [apply stops_space_digits; assumption|]. next.
  apply (yields_digits Gm 1 2); auto.
  { left. apply stops_digit_blank; [assumption | vm_compute; reflexivity]. }
  next.
  apply yields_ws; auto; [vm_compute; reflexivity|]. next.
  apply yields_chr; [apply N.eqb_refl|]. next.
  apply yields_opt_skip; [apply Hnone | apply Hk].
Qed.

Lemma cn_ymd_reads Y g1 g2 M g3 g4 D g5 rest b gd k G :
  year_digits Y -> short_digits M -> short_digits D ->
  blanks g1 -> blanks g2 -> blanks g3 -> blanks g4 -> blanks g5 ->
  (forall b', yields (k b' rest (set_date Y M (Some D) gd)) G) ->
  yields (run cn_date b
            ((Y ++ g1 ++ nian :: g2 ++ M ++ g3 ++ yue :: g4 ++ D ++ g5 ++ [ri]) ++ rest)
            gd k) G.
Proof.
  intros [HY HYl] HM HD Hg1 Hg2 Hg3 Hg4 Hg5 Hk.
  pose proof (short_nonempty _ HM) as HMne. destruct HM as [HM HMl].
  pose proof (short_nonempty _ HD) as HDne. destruct HD as [HD HDl].
  repeat (rewrite <- ?app_assoc; simpl app).
  unfold cn_date, y4, m12, d12. apply seq_step.
  apply (yields_digits Gy 4 4); auto; [lia|]. next.
  apply yields_ws; auto; [vm_compute; reflexivity|]. next.
  apply yields_chr; [apply N.eqb_refl|]. next.
  apply yields_ws; auto; [apply stops_space_digits; assumption|]. next.
  apply (yields_digits Gm 1 2); auto.
  { left. apply stops_digit_blank; [assumption | vm_compute; reflexivity]. }
  next.
  apply yields_ws; auto; [vm_compute; reflexivity|]. next.
  apply yields_chr; [apply N.eqb_refl|]. next.
  apply yields_opt_take. apply seq_step.
  apply yields_ws; auto; [apply stops_space_digits; assumption|]. next.
  apply (yields_digits Gd 1 2); auto.
  { left. apply stops_digit_blank; [assumption | vm_compute; reflexivity]. }
  next.
  apply yields_ws; auto; [vm_compute; reflexivity|]. next.
  apply yields_chr; [apply N.eqb_refl|]. next. apply Hk.
Qed.

Lemma iso_ym_reads Y s1 M rest b gd k G :
  year_digits Y -> short_digits M -> date_sep s1 = true ->
  length M = 2%nat \/ stops is_digit rest ->
  (forall b' gd', run (Chr date_sep ;; d12) b' rest gd' k = None) ->
  (forall b', yields (k b' rest (set_date Y M None gd)) G) ->
  yields (run iso_date b ((Y ++ s1 :: M) ++ rest) gd k) G.
Proof.
  intros [HY HYl] [HM HMl] Hs1 Hstop Hnone Hk.
  repeat (rewrite <- ?app_assoc; simpl app).
  unfold iso_date, y4, m12. apply seq_step.
  apply (yields_digits Gy 4 4); auto; [lia|]. next.
  apply yields_chr; [exact Hs1|]. next.
  apply (yields_digits Gm 1 2); auto; [tauto|].
  next.
  apply yields_opt_skip; [apply Hnone | apply Hk].
Qed.

Lemma iso_ymd_reads Y s1 M s2 D rest b gd k G :
  year_digits Y -> short_digits M -> short_digits D ->
  date_sep s1 = true -> date_sep s2 = true ->
  length D = 2%nat \/ stops is_digit rest ->
  (forall b', yields (k b' rest (set_date Y M (Some D) gd)) G) ->
  yields (run iso_date b ((Y ++ s1 :: M ++ s2 :: D) ++ rest) gd k) G.
Proof.
  intros [HY HYl] [HM HMl] [HD HDl] Hs1 Hs2 Hstop Hk.
  repeat (rewrite <- ?app_assoc; simpl app).
  unfold iso_date, y4, m12, d12. apply seq_step.
  apply (yields_digits Gy 4 4); auto; [lia|]. next.
  apply yields_chr; [exact Hs1|]. next.
  apply (yields_digits Gm 1 2); auto.
  { left. simpl. apply sep_not_digit; exact Hs2. }
  next.
  apply yields_opt_take. apply seq_step.
  apply yields_chr; [exact Hs2|]. next.
  apply (yields_digits Gd 1 2); auto. tauto.
Qed.

(** The optional day does not match where no day and text follow. *)
Lemma cn_day_none s b gd :
  ~ cn_day_follows s -> stops is_space (rev s) ->
  run (ws ;; d12 ;; ws ;; Chr (lit ri)) b s gd title_end = None.
Proof.
  intros Hn Hend.
  destruct (run (ws ;; d12 ;; ws ;; Chr (lit ri)) b s gd title_end) as [m|] eqn:E;
    [exfalso; apply Hn | reflexivity].
  rewrite run_seq_eq in E. apply ws_inv in E. destruct E as (g4 & q1 & -> & Hg4 & E).
  rewrite run_seq_eq in E. unfold d12 in E. apply digits_inv in E.
  destruct E as (D & q2 & -> & HD & HDl & E).
  rewrite run_seq_eq in E. apply ws_inv in E. destruct E as (g5 & q3 & -> & Hg5 & E).
  apply chr_inv in E. destruct E as (c & q4 & -> & Hc & E).
  apply lit_eq in Hc. subst c.
  apply title_end_inv in E. destruct E as (g & p & q & -> & Hg & Hp & Hdot & [-> | ->]).
  - rewrite app_nil_r. exists g4, D, g5, g, p. splits; auto using short_of_digits.
  - exfalso.
    assert (g4 ++ D ++ g5 ++ ri :: g ++ p ++ [10]
            = (g4 ++ D ++ g5 ++ ri :: g ++ p) ++ [10]) as E'
      by (repeat (rewrite <- ?app_assoc; simpl app); reflexivity).
    rewrite E' in Hend. exact (ends_newline_not_stripped _ Hend).
Qed.

Lemma iso_day_none s b gd :
  ~ iso_day_follows s -> stops is_space (rev s) ->
  run (Chr date_sep ;; d12) b s gd title_end = None.
Proof.
  intros Hn Hend.
  destruct (run (Chr date_sep ;; d12) b s gd title_end) as [m|] eqn:E;
    [exfalso; apply Hn | reflexivity].
  rewrite run_seq_eq in E. apply chr_inv in E. destruct E as (s2 & q1 & -> & Hs2 & E).
  unfold d12 in E. apply digits_inv in E.
  destruct E as (D & q2 & -> & HD & HDl & E).
  apply title_end_inv in E. destruct E as (g & p & q & -> & Hg & Hp & Hdot & [-> | ->]).
  - rewrite app_nil_r. exists s2, D, g, p. splits; auto using short_of_digits.
  - exfalso.
    assert (s2 :: D ++ g ++ p ++ [10] = (s2 :: D ++ g ++ p) ++ [10]) as E'
      by (repeat (rewrite <- ?app_assoc; simpl app); reflexivity).
    rewrite E' in Hend. exact (ends_newline_not_stripped _ Hend).
Qed.

Lemma cn_df_reads txt Y M D t g0 :
  cn_text txt Y M D -> title_shape t -> blanks g0 ->
  (D = None -> ~ cn_day_follows (g0 ++ t)) ->
  yields (re_match cn_date_first (txt ++ g0 ++ t)) (dated t Y M D).
Proof.
  intros H Ht Hg0 Hday. unfold re_match, cn_date_first. apply bol_step, seq_step.
  fold title_end.
  inversion H; subst.
  - apply cn_ym_reads; auto.
    + intros b' gd'. apply cn_day_none; [auto | apply shape_gap_end; exact Ht].
    + intros b'. rewrite <- dated_date_first. apply title_tail_reads; assumption.
  - apply cn_ymd_reads; auto.
    intros b'. rewrite <- dated_date_first. apply title_tail_reads; assumption.
Qed.

Lemma digit_not_sep c : is_digit c = true -> date_sep c = false.
Proof.
  intros H. destruct (date_sep c) eqn:E; [|reflexivity].
  apply sep_not_digit in E. congruence.
Qed.

(** A number of one digit followed by one more digit and nothing else: the
    pattern first reads two digits, finds no title and gives the second
    digit back. *)
Lemma yields_digits_back grp m1 d b gd (k : cont) G :
  is_digit m1 = true -> is_digit d = true ->
  k (d :: m1 :: b) [] (set_group grp [m1; d] gd) = None ->
  yields (k (m1 :: b) [d] (set_group grp [m1] gd)) G ->
  yields (run (Grp grp (Rep is_digit 1 (Some 2%nat) true)) b [m1; d] gd k) G.
Proof.
  intros Hm Hd Hnone (m & E & HG). cbn [run rep]. rewrite Hm, Hd. simpl.
  rewrite Hnone, E. exists m. auto.
Qed.

Lemma one_digit ds :
  short_digits ds -> length ds = 1%nat -> exists m1, ds = [m1] /\ is_digit m1 = true.
Proof.
  intros [H _] Hl. destruct ds as [|m1 [|m2 ds]]; try discriminate.
  inversion H; subst. eauto.
Qed.

Lemma iso_df_reads_one txt Y M D c :
  iso_text txt Y M D -> length (last_number M D) = 1%nat ->
  is_digit c = true -> title_shape [c] ->
  yields (re_match iso_date_first (txt ++ [c])) (dated [c] Y M D).
Proof.
  intros H Hl Hc Ht. unfold re_match, iso_date_first.
  apply bol_step, seq_step. fold title_end.
  assert (Htail : forall b gd, yields (title_end b [c] gd) (set_group Gtitle [c] gd)).
  { intros b gd. apply (title_tail_reads [c] [] b gd Ht). constructor. }
  destruct (iso_text_forms _ _ _ _ H)
    as ([HY HYl] & HM & [(s1 & -> & -> & Hs1)|(s1 & s2 & Dd & -> & -> & Hs1 & Hs2 & HD)]);
    simpl in Hl.
  - destruct (one_digit M HM Hl) as (m1 & -> & Hm1).
    repeat (rewrite <- ?app_assoc; simpl app).
    unfold iso_date, y4, m12. apply seq_step.
    apply (yields_digits Gy 4 4); auto; [lia|]. next.
    apply yields_chr; [exact Hs1|]. next.
    apply yields_digits_back; auto.
    apply yields_opt_skip.
    + cbn [run]. rewrite (digit_not_sep _ Hc). reflexivity.
    + rewrite <- dated_date_first. apply Htail.
  - destruct (one_digit Dd HD Hl) as (d1 & -> & Hd1). destruct HM as [HM HMl].
    repeat (rewrite <- ?app_assoc; simpl app).
    unfold iso_date, y4, m12, d12. apply seq_step.
    apply (yields_digits Gy 4 4); auto; [lia|]. next.
    apply yields_chr; [exact Hs1|]. next.
    apply (yields_digits Gm 1 2); auto.
    { left. simpl. apply sep_not_digit; exact Hs2. }
    next.
    apply yields_opt_take. apply seq_step.
    apply yields_chr; [exact Hs2|]. next.
    apply yields_digits_back; auto.
Qed.

Lemma iso_df_reads txt Y M D t g0 :
  iso_text txt Y M D -> title_shape t -> blanks g0 ->
  (D = None -> ~ iso_day_follows (g0 ++ t)) ->
  length (last_number M D) = 2%nat \/ stops is_digit (g0 ++ t)
  \/ length (g0 ++ t) = 1%nat ->
  yields (re_match iso_date_first (txt ++ g0 ++ t)) (dated t Y M D).
Proof.
  intros H Ht Hg0 Hday Hstop.
  assert (length (last_number M D) = 2%nat \/ stops is_digit (g0 ++ t)
          \/ exists c, g0 = [] /\ t = [c] /\ is_digit c = true
                       /\ length (last_number M D) = 1%nat) as Hcases.
  { destruct Hstop as [Hs|[Hs|Hs]]; auto.
    destruct Ht as (Hne & _). destruct g0 as [|x g0].
    - destruct t as [|c [|c' t]]; simpl in Hs; try congruence; try lia.
      destruct (is_digit c) eqn:Ec; [|right; left; exact Ec].
      destruct (iso_text_digits _ _ _ _ H) as (_ & [_ HMl] & HD).
      destruct D as [ds|]; simpl.
      + destruct (HD ds eq_refl) as [_ HDl].
        destruct (Nat.eq_dec (length ds) 2); [auto | right; right].
        exists c. splits; auto. lia.
      + destruct (Nat.eq_dec (length M) 2); [auto | right; right].
        exists c. splits; auto. lia.
    - right; left. simpl. inversion Hg0; subst. apply space_not_digit; assumption. }
  clear Hstop. destruct Hcases as [Hs|[Hs|(c & -> & -> & Hc & Hl)]].
  - unfold re_match, iso_date_first. apply bol_step, seq_step. fold title_end.
    inversion H; subst.
    + apply iso_ym_reads; auto.
      * intros b' gd'. apply iso_day_none; [auto | apply shape_gap_end; exact Ht].
      * intros b'. rewrite <- dated_date_first. apply title_tail_reads; assumption.
    + apply iso_ymd_reads; auto.
      intros b'. rewrite <- dated_date_first. apply title_tail_reads; assumption.
  - unfold re_match, iso_date_first. apply bol_step, seq_step. fold title_end.
    inversion H; subst.
    + apply iso_ym_reads; auto.
      * intros b' gd'. apply iso_day_none; [auto | apply shape_gap_end; exact Ht].
      * intros b'. rewrite <- dated_date_first. apply title_tail_reads; assumption.
    + apply iso_ymd_reads; auto.
      intros b'. rewrite <- dated_date_first. apply title_tail_reads; assumption.
  - simpl. apply iso_df_reads_one; assumption.
Qed.

(** A match of the long date-first pattern on a stripped name reads the
    name as a long date, white space and some text. *)
Lemma cn_df_match_begins s m :
  re_match cn_date_first s = Some m -> stops is_space (rev s) ->
  begins_with_cn_date s.
Proof.
  unfold re_match, cn_date_first. intros H Hend.
  change (run (cn_date ;; ws ;; title_grp ;; Eol) [] s no_groups accept = Some m) in H.
  rewrite run_seq_eq in H. apply cn_date_inv in H.
  destruct H as (X & Y & M & D & q & b' & gd' & -> & HT & H).
  fold (title_end b' q gd') in H. apply title_end_inv in H.
  destruct H as (g & p & q' & -> & Hg & Hp & Hdot & [-> | ->]).
  - rewrite app_nil_r. exists X, Y, M, D, g, p. splits; auto.
  - exfalso. rewrite !app_assoc in Hend. exact (ends_newline_not_stripped _ Hend).
Qed.

(** *** Where the other patterns cannot match *)

Lemma cn_written X Y M D : cn_text X Y M D -> written_date X.
Proof. intros H. exists Y, M, D. auto. Qed.

Lemma iso_written X Y M D : iso_text X Y M D -> written_date X.
Proof. intros H. exists Y, M, D. auto. Qed.

Lemma cn_ends_last s :
  ends_with_text cn_text s -> exists u c, s = u ++ [c] /\ (c = yue \/ c = ri).
Proof.
  intros (p & g & X & Y & M & D & -> & _ & _ & _ & H).
  destruct (cn_text_last _ _ _ _ H) as (u & c & -> & Hc).
  exists (p ++ g ++ u), c. rewrite <- !app_assoc. auto.
Qed.

Lemma iso_ends_last s :
  ends_with_text iso_text s -> exists u c, s = u ++ [c] /\ is_digit c = true.
Proof.
  intros (p & g & X & Y & M & D & -> & _ & _ & _ & H).
  destruct (iso_text_last _ _ _ _ H) as (u & c & -> & Hc).
  exists (p ++ g ++ u), c. rewrite <- !app_assoc. auto.
Qed.

Lemma cn_tf_match_ends s m :
  re_match cn_title_first s = Some m -> stops is_space (rev s) ->
  ends_with_text cn_text s.
Proof. apply (tf_match_ends cn_date cn_text cn_date_inv). Qed.

Lemma iso_tf_match_ends s m :
  re_match iso_title_first s = Some m -> stops is_space (rev s) ->
  ends_with_text iso_text s.
Proof. apply (tf_match_ends iso_date iso_text iso_date_inv). Qed.

Lemma none_unless {A} (o : option A) (P : Prop) :
  (forall m, o = Some m -> P) -> ~ P -> o = None.
Proof. intros H Hn. destruct o as [m|]; [destruct (Hn (H m eq_refl)) | reflexivity]. Qed.

(** The long title-first pattern needs a name that ends with [yue] or
    [ri]. *)
Lemma cn_tf_none_digit_end u c :
  is_digit c = true -> re_match cn_title_first (u ++ [c]) = None.
Proof.
  intros Hc. apply (none_unless _ (ends_with_text cn_text (u ++ [c]))).
  - intros m E. apply (cn_tf_match_ends _ _ E).
    rewrite rev_app_distr. simpl. apply digit_not_space; exact Hc.
  - intros E. destruct (cn_ends_last _ E) as (u' & c' & E' & Hc').
    apply app_inj_tail in E'. destruct E' as [_ <-].
    destruct Hc' as [-> | ->];
      [rewrite yue_not_digit in Hc | rewrite ri_not_digit in Hc]; discriminate.
Qed.

(** The long date-first pattern needs [nian] after the year. *)
Lemma cn_df_none_iso txt Y M D rest :
  iso_text txt Y M D -> re_match cn_date_first (txt ++ rest) = None.
Proof.
  intros H. destruct (re_match cn_date_first (txt ++ rest)) as [m|] eqn:E;
    [exfalso | reflexivity].
  apply cn_df_inv in E.
  destruct (iso_text_forms _ _ _ _ H)
    as ([HY Hl] & _ & [(s1 & -> & _ & Hs1)|(s1 & s2 & Dd & -> & _ & Hs1 & _)]);
    destruct Y as [|d1 [|d2 [|d3 [|d4 [|d5 Y]]]]]; simpl in Hl; try lia;
    unfold starts_cn_year in E; cbn [app lstrip] in E;
    rewrite (sep_not_space _ Hs1), (sep_not_nian _ Hs1) in E;
    rewrite !andb_false_r in E; discriminate.
Qed.

(** *** Parsing a name made of a title and a date *)

Lemma parse_reads before pat after name t Y M D :
  stops is_space name -> stops is_space (rev name) ->
  _cn_patterns ++ _iso_patterns = before ++ pat :: after ->
  Forall (fun p => re_match p name = None) before ->
  yields (re_match pat name) (dated t Y M D) ->
  title_shape t ->
  parse_title_date name = (t, _to_date Y M D).
Proof.
  intros H1 H2 Hl Hb (m & Hm & HG) (_ & _ & Ht1 & Ht2).
  pose proof (strip_id name H1 H2) as Hs.
  rewrite <- Hs in Hb, Hm.
  rewrite (parse_first_match name before pat after m Hl Hb Hm), HG. simpl.
  rewrite (strip_id t Ht1 Ht2). reflexivity.
Qed.

Lemma title_first_ends t g0 txt :
  title_shape t -> written_date txt ->
  stops is_space (t ++ g0 ++ txt) /\ stops is_space (rev (t ++ g0 ++ txt)) /\
  exists u c, t ++ g0 ++ txt = u ++ [c] /\ (c = yue \/ c = ri \/ is_digit c = true).
Proof.
  intros (Hne & _ & Hhd & _) Hw.
  destruct (written_last txt Hw) as (u & c & -> & Hc). splits.
  - apply stops_app; assumption.
  - rewrite !app_assoc. apply stops_rev_last.
    destruct Hc as [->|[->|Hc]];
      auto using yue_not_space, ri_not_space, digit_not_space.
  - exists (t ++ g0 ++ u), c. rewrite <- !app_assoc. auto.
Qed.

Lemma written_first txt :
  written_date txt -> exists y1 r, txt = y1 :: r /\ is_digit y1 = true.
Proof.
  intros (Y & M & D & [H|H]);
    [apply cn_text_date_text in H as H'; destruct (cn_text_digits _ _ _ _ H) as [HY _]
    |apply iso_text_date_text in H as H'; destruct (iso_text_digits _ _ _ _ H) as [HY _]];
    exact (date_text_starts _ _ _ _ H' HY).
Qed.

Lemma date_first_ends t g0 txt :
  title_shape t -> written_date txt ->
  stops is_space (txt ++ g0 ++ t) /\ stops is_space (rev (txt ++ g0 ++ t)).
Proof.
  intros Ht Hw. destruct (written_first txt Hw) as (y1 & r & -> & Hy). split.
  - simpl. apply digit_not_space; exact Hy.
  - rewrite app_assoc, rev_app_distr. destruct Ht as (Hne & _ & _ & Hlast).
    apply stops_app; [|exact Hlast].
    intros E. apply (f_equal (@rev N)) in E. rewrite rev_involutive in E.
    simpl in E. congruence.
Qed.

Lemma to_date_written Y M D y m d :
  short_digits M -> (forall ds, D = Some ds -> short_digits ds) ->
  int Y = Some y -> int M = Some m -> day_value D = Some d ->
  _to_date Y M D = dt_date y m d.
Proof.
  intros HM HD HiY HiM Hid. apply to_date_dated; auto.
  intros ds E. apply short_nonempty, HD; exact E.
Qed.


(** *** Names that read in one way only *)

Lemma not_begins_cn s : stops is_digit s -> ~ begins_with_cn_date s.
Proof.
  intros Hs (X & Y & M & D & g & p & -> & H & _).
  destruct (written_first X (cn_written _ _ _ _ H)) as (y1 & r & -> & Hy).
  simpl in Hs. congruence.
Qed.

Lemma not_ends_cn u c : c <> yue -> c <> ri -> ~ ends_with_text cn_text (u ++ [c]).
Proof.
  intros H1 H2 E. destruct (cn_ends_last _ E) as (u' & c' & E' & Hc').
  apply app_inj_tail in E'. destruct E' as [_ <-]. tauto.
Qed.

Lemma not_ends_iso u c : is_digit c = false -> ~ ends_with_text iso_text (u ++ [c]).
Proof.
  intros H E. destruct (iso_ends_last _ E) as (u' & c' & E' & Hc').
  apply app_inj_tail in E'. destruct E' as [_ <-]. congruence.
Qed.

Lemma not_iso_day s : stops date_sep s -> ~ iso_day_follows s.
Proof. intros Hs (s2 & D & g & p & -> & H & _). simpl in Hs. congruence. Qed.

Lemma title_shapeb_ok t :
  negb (is_empty t) && forallb dot t
  && negb (existsb is_space (firstn 1 t)) && negb (existsb is_space (firstn 1 (rev t)))
  = true ->
  title_shape t.
Proof.
  unfold title_shape. rewrite !andb_true_iff, !negb_true_iff.
  intros (((H1 & H2) & H3) & H4). splits.
  - intros ->; discriminate.
  - apply all_forallb; exact H2.
  - destruct t as [|c t]; simpl in *; [auto|]. rewrite orb_false_r in H3. exact H3.
  - destruct (rev t) as [|c r]; simpl in *; [auto|]. rewrite orb_false_r in H4. exact H4.
Qed.



(** * Further properties *)

(** ** Names without a date *)

Lemma bol_run r s gd k : run (Bol ;; r) [] s gd k = run r [] s gd k.
Proof. reflexivity. Qed.

Lemma title_first_needs_digit dt s :
  needs_digit dt -> none is_digit s ->
  re_match (Bol ;; title_grp ;; ws ;; dt ;; Eol) s = None.
Proof.
  intros Hdt Hs.
  destruct (re_match (Bol ;; title_grp ;; ws ;; dt ;; Eol) s) as [m|] eqn:E;
    [|reflexivity].
  apply title_first_inv in E. destruct E as (p & q & -> & _ & _ & H).
  rewrite run_seq_eq in H. apply run_inv in H.
  destruct H as (p1 & q1 & gd1 & -> & H & _).
  rewrite run_seq_eq, Hdt in H; [discriminate|].
  apply none_stops. apply Forall_app in Hs. destruct Hs as [_ Hs].
  apply Forall_app in Hs. tauto.
Qed.

Lemma date_first_needs_digit dt r s :
  needs_digit dt -> none is_digit s -> re_match (Bol ;; dt ;; r) s = None.
Proof.
  intros Hdt Hs. unfold re_match. rewrite bol_run, run_seq_eq.
  apply Hdt, none_stops, Hs.
Qed.

Lemma no_digit_no_match s pat :
  none is_digit s -> In pat (_cn_patterns ++ _iso_patterns) -> re_match pat s = None.
Proof.
  intros Hs Hpat. simpl in Hpat. destruct Hpat as [<-|[<-|[<-|[<-|[]]]]].
  - apply title_first_needs_digit; [apply cn_date_needs_digit | exact Hs].
  - apply date_first_needs_digit; [apply cn_date_needs_digit | exact Hs].
  - apply title_first_needs_digit; [apply iso_date_needs_digit | exact Hs].
  - apply date_first_needs_digit; [apply iso_date_needs_digit | exact Hs].
Qed.

Lemma lstrip_incl p s c : In c (lstrip p s) -> In c s.
Proof.
  destruct (lstrip_suffix p s) as [a E]. intros H. rewrite E.
  apply in_or_app; right; exact H.
Qed.

Lemma strip_incl s c : In c (strip s) -> In c s.
Proof.
  unfold strip, rstrip. rewrite <- in_rev. intros H.
  apply lstrip_incl in H. rewrite <- in_rev in H. apply lstrip_incl in H. exact H.
Qed.

Lemma parse_with_none pats name :
  (forall pat, In pat pats -> re_match pat name = None) ->
  parse_with pats name = (name, None).
Proof.
  induction pats as [|p pats IH]; simpl; intros H; [reflexivity|].
  rewrite (H p (or_introl eq_refl)). apply IH. intros q Hq. apply H; right; exact Hq.
Qed.

(** X1: a folder name without any decimal digit matches no pattern: the
    whole stripped name is the title and there is no date. *)
Theorem parse_without_digit folder :
  none is_digit folder -> parse_title_date folder = (strip folder, None).
Proof.
  intros H. unfold parse_title_date. apply parse_with_none.
  intros pat Hpat. apply no_digit_no_match; [|exact Hpat].
  apply Forall_forall. intros c Hc. apply strip_incl in Hc.
  unfold none in H. rewrite Forall_forall in H. apply H; exact Hc.
Qed.

Lemma none_forallb cls s : forallb (fun c => negb (cls c)) s = true -> none cls s.
Proof.
  intros H. apply Forall_forall. intros c Hc. apply negb_true_iff.
  revert c Hc. apply forallb_forall. exact H.
Qed.

Lemma parse_without_digit_witness :
  parse_title_date (U "  天安门 Hiking ") = (U "天安门 Hiking", None).
Proof.
  pose proof (parse_without_digit (U "  天安门 Hiking ")
                ltac:(apply none_forallb; vm_compute; reflexivity)) as H.
  vm_compute in H |- *. exact H.
Defined.

(** ** The title and the date that are returned *)

Lemma strip_idem s : strip (strip s) = strip s.
Proof.
  apply strip_id.
  - destruct (strip s) as [|c t] eqn:E; simpl; [auto|]. eapply strip_head; exact E.
  - destruct (rev (strip s)) as [|c r] eqn:E; simpl; [auto|].
    apply (f_equal (@rev N)) in E. rewrite rev_involutive in E. simpl in E.
    eapply strip_last; exact E.
Qed.

Lemma parse_with_cases pats name :
  parse_with pats name = (name, None) \/
  exists pat m, In pat pats /\ re_match pat name = Some m /\
    parse_with pats name = on_match pat name (m_groups m).
Proof.
  induction pats as [|p pats IH]; simpl; [left; reflexivity|].
  destruct (re_match p name) as [m|] eqn:E.
  - right. exists p, m. auto.
  - destruct IH as [IH|(q & m & Hq & Hm & IH)]; [left; exact IH|].
    right. exists q, m. auto.
Qed.

(** X2: whatever the folder name, the title returned has no white space at
    its ends, and it is not empty unless the name is blank. *)
Theorem parse_title_stripped folder :
  strip (fst (parse_title_date folder)) = fst (parse_title_date folder) /\
  (strip folder <> [] -> fst (parse_title_date folder) <> []).
Proof.
  unfold parse_title_date.
  destruct (parse_with_cases (_cn_patterns ++ _iso_patterns) (strip folder))
    as [E|(pat & m & Hpat & Hm & E)]; rewrite E.
  - simpl. split; [apply strip_idem | auto].
  - rewrite (on_match_title pat folder m Hpat Hm). simpl.
    split; [apply strip_idem|]. intros _.
    destruct (title_capture_not_blank folder pat m Hpat Hm) as (t & -> & Hne).
    exact Hne.
Qed.

Lemma dt_date_valid y m d dt : dt_date y m d = Some dt -> valid_date dt.
Proof.
  unfold dt_date, valid_date.
  destruct ((1 <=? y) && (y <=? 9999) && (1 <=? m) && (m <=? 12)
            && (1 <=? d) && (d <=? days_in_month y m))%Z eqn:E; [|discriminate].
  intros e; inversion e; subst; simpl.
  rewrite !andb_true_iff, !Z.leb_le in E. lia.
Qed.

Lemma to_date_valid y m d dt : _to_date y m d = Some dt -> valid_date dt.
Proof.
  unfold _to_date. destruct (int y); [|discriminate]. destruct (int m); [|discriminate].
  destruct (match d with
            | Some ds => if is_empty ds then Some 1%Z else int ds
            | None => Some 1%Z
            end); [|discriminate].
  apply dt_date_valid.
Qed.

Lemma valid_calendar dt : valid_date dt -> calendar_date dt.
Proof.
  destruct dt as [y m d].
  unfold valid_date, calendar_date, days_in_month, is_leap. simpl.
  intros (Hy & Hm & Hd).
  destruct (Z.eqb_spec m 2), (Z.eqb_spec m 4), (Z.eqb_spec m 6),
    (Z.eqb_spec m 9), (Z.eqb_spec m 11), (Z.eqb_spec (y mod 4) 0),
    (Z.eqb_spec (y mod 100) 0), (Z.eqb_spec (y mod 400) 0);
    simpl in Hd; repeat split; intros; subst; try lia; auto; try congruence;
    Z.to_euclidean_division_equations; lia.
Qed.

(** X3: a date returned by [parse_title_date] is always a date of the
    calendar: year 1 to 9999, month 1 to 12, day 1 to 31, no 31st in
    February, April, June, September or November, no 30th of February,
    and a 29th of February only in a leap year. *)
Theorem parse_date_valid folder t dt :
  parse_title_date folder = (t, Some dt) -> calendar_date dt.
Proof.
  unfold parse_title_date.
  destruct (parse_with_cases (_cn_patterns ++ _iso_patterns) (strip folder))
    as [E|(pat & m & Hpat & Hm & E)]; rewrite E.
  - discriminate.
  - rewrite (on_match_title pat folder m Hpat Hm).
    intros e; inversion e. apply valid_calendar. eapply to_date_valid; eassumption.
Qed.

Lemma parse_date_valid_witness :
  parse_title_date (U "Leap 2024-02-29") = (U "Leap", Some (mkdate 2024 2 29)) /\
  calendar_date (mkdate 2024 2 29) /\
  parse_title_date (U "Leap 2025-02-29") = (U "Leap", None) /\
  parse_title_date (U "Leap 1900-02-29") = (U "Leap", None) /\
  parse_title_date (U "Fall 2025-09-31") = (U "Fall", None).
Proof.
  assert (parse_title_date (U "Leap 2024-02-29")
          = (U "Leap", Some (mkdate 2024 2 29))) as H by (vm_compute; reflexivity).
  split; [exact H|]. split; [exact (parse_date_valid _ _ _ H)|].
  splits; vm_compute; reflexivity.
Defined.

(** ** White space around a folder name *)

Lemma lstrip_all p s : Forall (fun c => p c = true) s -> lstrip p s = [].
Proof. induction 1 as [|c s Hc _ IH]; simpl; [reflexivity|]. rewrite Hc; exact IH. Qed.

Lemma lstrip_app_all p g q :
  Forall (fun c => p c = true) g -> lstrip p (g ++ q) = lstrip p q.
Proof. induction 1 as [|c g Hc _ IH]; simpl; [reflexivity|]. rewrite Hc; exact IH. Qed.

Lemma strip_pad_right s g : blanks g -> strip (s ++ g) = strip s.
Proof.
  intros Hg. unfold strip. induction s as [|c s IH]; simpl.
  - rewrite (lstrip_all _ _ Hg). reflexivity.
  - destruct (is_space c); [exact IH|].
    unfold rstrip. change (c :: s ++ g) with ((c :: s) ++ g).
    rewrite rev_app_distr, lstrip_app_all; [reflexivity|].
    apply Forall_rev; exact Hg.
Qed.

Lemma strip_pad g s g' : blanks g -> blanks g' -> strip (g ++ s ++ g') = strip s.
Proof.
  intros Hg Hg'. rewrite app_assoc, strip_pad_right by exact Hg'.
  unfold strip. rewrite lstrip_app_all by exact Hg. reflexivity.
Qed.

(** X4: white space before and after a folder name does not change what
    is parsed from it. *)
Theorem parse_ignores_padding g s g' :
  blanks g -> blanks g' ->
  parse_title_date (g ++ s ++ g') = parse_title_date s.
Proof.
  intros Hg Hg'. unfold parse_title_date. rewrite strip_pad by assumption.
  reflexivity.
Qed.

Lemma parse_ignores_padding_witness :
  parse_title_date (U "  " ++ U "2025-08 Hiking" ++ U " ")
  = parse_title_date (U "2025-08 Hiking").
Proof.
  apply parse_ignores_padding; apply all_forallb; vm_compute; reflexivity.
Defined.

(** ** Extensions *)

Lemma lower_dot c :
  ((if (65 <=? c) && (c <=? 90) then c + 32 else c) =? 46) = (c =? 46).
Proof.
  destruct ((65 <=? c) && (c <=? 90)) eqn:E; [|reflexivity].
  apply andb_true_iff in E. destruct E as [E1 E2].
  apply N.leb_le in E1, E2.
  transitivity false; [|symmetry]; apply N.eqb_neq; lia.
Qed.

Lemma rfind_dot_lower s i : rfind_dot (lower s) i = rfind_dot s i.
Proof.
  revert i; induction s as [|c s IH]; simpl; intros i; [reflexivity|].
  fold (lower s). rewrite IH, lower_dot. reflexivity.
Qed.

Lemma suffix_lower s : suffix (lower s) = lower (suffix s).
Proof.
  unfold suffix. rewrite rfind_dot_lower.
  assert (length (lower s) = length s) as -> by (unfold lower; apply length_map).
  destruct (rfind_dot s 0) as [i|]; [|reflexivity].
  destruct ((0 <? i) && (i <? length s - 1))%nat; [|reflexivity].
  unfold lower. apply skipn_map.
Qed.

Lemma lower_idem s : lower (lower s) = lower s.
Proof.
  unfold lower. rewrite map_map. apply map_ext. intros c.
  destruct ((65 <=? c) && (c <=? 90)) eqn:E; [|rewrite E; reflexivity].
  apply andb_true_iff in E. destruct E as [E1 E2]. apply N.leb_le in E1, E2.
  assert ((65 <=? c + 32) && (c + 32 <=? 90) = false) as ->; [|reflexivity].
  apply andb_false_iff. right. apply N.leb_gt. lia.
Qed.

Lemma allowed_ext_lower s : allowed_ext (lower s) = allowed_ext s.
Proof. unfold allowed_ext. rewrite suffix_lower, lower_idem. reflexivity. Qed.

(** X5: whether an entry is an allowed image depends on its name only up
    to the case of the letters A-Z. *)
Theorem allowed_image_ignores_case a b n :
  lower a = lower b -> allowed_image (a, n) = allowed_image (b, n).
Proof.
  intros H. unfold allowed_image. simpl.
  rewrite <- (allowed_ext_lower a), <- (allowed_ext_lower b), H. reflexivity.
Qed.

Lemma allowed_image_ignores_case_witness :
  allowed_image (U "Photo.JPeG", File) = allowed_image (U "photo.jpeg", File) /\
  allowed_image (U "photo.jpeg", File) = true.
Proof.
  split; [|vm_compute; reflexivity].
  apply allowed_image_ignores_case. vm_compute; reflexivity.
Defined.

Lemma rfind_dot_none s i : ~ In 46 s -> rfind_dot s i = None.
Proof.
  revert i; induction s as [|c s IH]; simpl; intros i H; [reflexivity|].
  rewrite IH by tauto.
  destruct (N.eqb_spec c 46) as [->|_]; [tauto | reflexivity].
Qed.

Lemma rfind_dot_last stem rest i :
  ~ In 46 rest -> rfind_dot (stem ++ 46 :: rest) i = Some (i + length stem)%nat.
Proof.
  intros H. revert i; induction stem as [|c stem IH]; simpl; intros i.
  - rewrite rfind_dot_none by exact H. f_equal; lia.
  - rewrite IH. f_equal; lia.
Qed.

Lemma in_lower_dot s : In 46 s -> In 46 (lower s).
Proof.
  intros H. unfold lower. apply in_map_iff. exists 46. split; [reflexivity | exact H].
Qed.

(** X6: a name made of a non-empty stem and an allowed extension, in any
    mix of upper and lower case, has an allowed extension; the extension
    alone, as the name of a hidden file, has not. *)
Theorem allowed_ext_stem stem e :
  stem <> [] -> In (lower e) ALLOWED_EXTS ->
  allowed_ext (stem ++ e) = true /\ allowed_ext e = false.
Proof.
  intros Hstem He.
  assert (exists rest, e = 46 :: rest /\ rest <> [] /\ ~ In 46 rest) as (rest & -> & Hr & Hd).
  { destruct e as [|c rest].
    - simpl in He. repeat (destruct He as [He|He]; [discriminate|]). destruct He.
    - exists rest.
      assert (lower (c :: rest) = 46 :: lower rest /\ lower rest <> []
              /\ ~ In 46 (lower rest)) as (H1 & H2 & H3).
      { simpl in He.
        repeat (destruct He as [He|He];
                [inversion He as [[E1 E2]]; simpl; rewrite <- E1;
                 fold (lower rest); rewrite <- E2;
                 splits; [reflexivity | discriminate
                         | simpl; intuition discriminate] |]).
        destruct He. }
      splits.
      + f_equal. simpl in H1. inversion H1 as [E]. rewrite E.
        pose proof (lower_dot c) as L. rewrite E in L. simpl in L.
        symmetry in L. apply N.eqb_eq in L. exact L.
      + destruct rest; [simpl in H2; congruence | discriminate].
      + intros H. apply H3, in_lower_dot, H. }
  split.
  - unfold allowed_ext, suffix. rewrite rfind_dot_last by exact Hd. simpl Nat.add.
    assert (((0 <? length stem) && (length stem <? length (stem ++ 46%N :: rest) - 1))%nat
            = true) as ->.
    { rewrite length_app. simpl. apply andb_true_iff.
      destruct stem; [congruence|]. destruct rest; [congruence|].
      split; [reflexivity | apply Nat.ltb_lt; simpl; lia]. }
    rewrite skipn_app, skipn_all, Nat.sub_diag.
    change (existsb (str_eqb (lower (46 :: rest))) ALLOWED_EXTS = true).
    apply existsb_exists. exists (lower (46 :: rest)).
    split; [exact He | apply str_eqb_eq; reflexivity].
  - unfold allowed_ext, suffix. change (46 :: rest) with ([] ++ 46 :: rest).
    rewrite rfind_dot_last by exact Hd. reflexivity.
Qed.

Lemma allowed_ext_stem_witness :
  allowed_ext (U "a.b" ++ U ".WebP") = true /\ allowed_ext (U ".WebP") = false.
Proof.
  apply allowed_ext_stem; [vm_compute; discriminate|].
  vm_compute. tauto.
Defined.

(** ** What a scan reports *)

(** X7: the categories of a scan are in ascending order of their names. *)
Theorem categories_sorted_by_name fs root cats :
  _scan_once fs root = Ok cats ->
  StronglySorted (fun a b => str_le (Category.name a) (Category.name b)) cats.
Proof.
  unfold _scan_once. destruct (lookup fs root) as [[| |es]|]; try discriminate.
  - intros e; inversion e; subst.
    apply (sort_by_sorted (fun a b => str_leb (Category.name a) (Category.name b))).
    + intros x y; apply str_leb_total.
    + intros x y z; apply str_leb_trans.
  - intros e; inversion e; constructor.
Qed.

Lemma categories_sorted_by_name_witness :
  exists cats,
    _scan_once fs_two_categories root1 = Ok cats /\
    map Category.name cats = [U "Work"; U "art"; U "旅行"] /\
    StronglySorted (fun a b => str_le (Category.name a) (Category.name b)) cats.
Proof.
  eexists. split; [vm_compute; reflexivity|].
  split; [vm_compute; reflexivity|].
  apply (categories_sorted_by_name fs_two_categories root1).
  vm_compute; reflexivity.
Defined.

Lemma sorted_dirs_In es d :
  In d (sorted_dirs es) <-> In d es /\ is_dir (snd d) = true.
Proof. unfold sorted_dirs. rewrite sort_by_In, filter_In. tauto. Qed.

Lemma images_of_In d i :
  In i (images_of d) <->
  In (i, File) (entries_of (snd d)) /\ allowed_ext i = true.
Proof.
  unfold images_of. rewrite sort_by_In, in_map_iff. split.
  - intros ([j n] & <- & H). apply filter_In in H. destruct H as [H1 H2].
    unfold allowed_image in H2. simpl in *. apply andb_true_iff in H2.
    destruct H2 as [H2 H3]. destruct n; try discriminate. auto.
  - intros [H1 H2]. exists (i, File). split; [reflexivity|].
    apply filter_In. split; [exact H1 | exact H2].
Qed.

Lemma dir_entry (d : str * node) :
  is_dir (snd d) = true -> d = (fst d, Dir (entries_of (snd d))).
Proof. destruct d as [n [| |es]]; simpl; try discriminate. reflexivity. Qed.

Lemma scan_once_dirs fs root cats c :
  _scan_once fs root = Ok cats -> In c cats ->
  exists es d, lookup fs root = Some (Dir es) /\ In d (sorted_dirs es) /\
    albums_of d <> [] /\ c = Category.mk (fst d) (fst d) (albums_of d).
Proof.
  unfold _scan_once.
  destruct (lookup fs root) as [[| |es]|]; try discriminate.
  - intros e; inversion e; subst; clear e. rewrite sort_by_In.
    intros H; apply scan_categories_In in H.
    destruct H as (d & ? & ? & ?). exists es, d. auto.
  - intros e; inversion e; subst; simpl; tauto.
Qed.

Lemma NoDup_fst_unique {A B} (l : list (A * B)) k v v' :
  NoDup (map fst l) -> In (k, v) l -> In (k, v') l -> v = v'.
Proof.
  induction l as [|[k0 v0] l IH]; simpl; [tauto|].
  intros Hnd H1 H2. inversion Hnd as [|? ? Hk Hl]; subst.
  destruct H1 as [H1|H1], H2 as [H2|H2].
  - congruence.
  - inversion H1; subst. exfalso. apply Hk. apply in_map_iff. exists (k, v'). auto.
  - inversion H2; subst. exfalso. apply Hk. apply in_map_iff. exists (k, v). auto.
  - apply IH; assumption.
Qed.

(** C6: every album of a scan has a non-empty list of images in ascending
    order and every category has a non-empty list of albums.  An album is
    a directory of its category's directory, and its images are exactly
    the regular files of that directory with an allowed extension: a
    directory that holds no such file (only a text file, or only a
    directory named like an image) never becomes an album, and a category
    directory whose folders are all such never becomes a category.  Entry
    names are distinct within a directory. *)
Theorem scan_keeps_nonempty fs root cats c :
  _scan_once fs root = Ok cats -> In c cats ->
  Category.albums c <> [] /\
  exists es ces,
    lookup fs root = Some (Dir es) /\ In (Category.name c, Dir ces) es /\
    (forall a, In a (Category.albums c) ->
       Album.images a <> [] /\
       StronglySorted str_le (Album.images a) /\
       exists aes,
         In (Album.folder a, Dir aes) ces /\
         forall i, In i (Album.images a) <->
                   In (i, File) aes /\ allowed_ext i = true) /\
    (NoDup (map fst ces) ->
     forall folder aes,
       In (folder, Dir aes) ces ->
       (forall i, In (i, File) aes -> allowed_ext i = false) ->
       forall a, In a (Category.albums c) -> Album.folder a <> folder) /\
    (NoDup (map fst es) ->
     forall name ces',
       In (name, Dir ces') es ->
       (forall folder aes i,
          In (folder, Dir aes) ces' -> In (i, File) aes -> allowed_ext i = false) ->
       forall c', In c' cats -> Category.name c' <> name).
Proof.
  intros Hs Hc.
  destruct (scan_once_dirs _ _ _ _ Hs Hc) as (es & d & Hl & Hd & Hne & ->).
  simpl. split; [exact Hne|].
  apply sorted_dirs_In in Hd. destruct Hd as [Hd Hdir].
  rewrite (dir_entry d Hdir) in Hd.
  exists es, (entries_of (snd d)). splits; auto.
  - intros a Ha. unfold albums_of, sort_albums in Ha. rewrite sort_by_In in Ha.
    apply scan_albums_In in Ha. destruct Ha as (e & He & Hi & ->). simpl.
    apply sorted_dirs_In in He. destruct He as [He Hedir].
    splits; auto.
    + apply (sort_by_sorted str_leb); [apply str_leb_total | apply str_leb_trans].
    + exists (entries_of (snd e)). split.
      * rewrite <- dir_entry by exact Hedir. exact He.
      * intros i. apply images_of_In.
  - intros Hnd folder aes Hin Hnone a Ha E.
    unfold albums_of, sort_albums in Ha. rewrite sort_by_In in Ha.
    apply scan_albums_In in Ha. destruct Ha as (e & He & Hi & ->). simpl in E.
    apply sorted_dirs_In in He. destruct He as [He Hedir].
    rewrite (dir_entry e Hedir), E in He.
    pose proof (NoDup_fst_unique _ _ _ _ Hnd Hin He) as Eaes.
    inversion Eaes; subst aes.
    destruct (images_of e) as [|i imgs] eqn:Ei; [congruence|].
    assert (In i (images_of e)) as Hi' by (rewrite Ei; left; reflexivity).
    apply images_of_In in Hi'. destruct Hi' as [Hf Hext].
    rewrite (Hnone i Hf) in Hext. discriminate.
  - intros Hnd name ces' Hin Hnone c' Hc' E.
    destruct (scan_once_dirs _ _ _ _ Hs Hc') as (es' & d' & Hl' & Hd' & Hne' & ->).
    rewrite Hl in Hl'. inversion Hl'; subst es'. simpl in E.
    apply sorted_dirs_In in Hd'. destruct Hd' as [Hd' Hdir'].
    rewrite (dir_entry d' Hdir'), E in Hd'.
    pose proof (NoDup_fst_unique _ _ _ _ Hnd Hin Hd') as Eces.
    inversion Eces; subst ces'.
    destruct (albums_of d') as [|a l] eqn:Ea; [congruence|].
    assert (In a (albums_of d')) as Ha by (rewrite Ea; left; reflexivity).
    unfold albums_of, sort_albums in Ha. rewrite sort_by_In in Ha.
    apply scan_albums_In in Ha. destruct Ha as (e & He & Hi & _).
    apply sorted_dirs_In in He. destruct He as [He Hedir].
    rewrite (dir_entry e Hedir) in He.
    destruct (images_of e) as [|i imgs] eqn:Ei; [congruence|].
    assert (In i (images_of e)) as Hi' by (rewrite Ei; left; reflexivity).
    apply images_of_In in Hi'. destruct Hi' as [Hf Hext].
    rewrite (Hnone _ _ i He Hf) in Hext. discriminate.
Qed.

(** On the fixture the folder "notes" holds only a text file and the
    category "drafts" only such a folder: neither is in the result. *)
Lemma scan_keeps_nonempty_witness :
  exists c,
    _scan_once fs1 root1 = Ok [c] /\
    Category.name c = U "旅行" /\
    map Album.folder (Category.albums c)
    = [U "天安门 2025 年 8 月 24 日"; U "2025-08 Hiking"; U "Z"] /\
    Category.albums c <> [] /\
    (forall a, In a (Category.albums c) -> Album.folder a <> U "notes") /\
    Category.name c <> U "drafts".
Proof.
  assert (exists c, _scan_once fs1 root1 = Ok [c]) as [c Hs]
    by (eexists; vm_compute; reflexivity).
  exists c. split; [exact Hs|].
  destruct (scan_keeps_nonempty fs1 root1 [c] c Hs (or_introl eq_refl))
    as (Hne & es & ces & Hl & Hin & _ & Hnotes & Hdrafts).
  assert (Category.name c = U "旅行") as En
    by (vm_compute in Hs; inversion Hs; subst; vm_compute; reflexivity).
  split; [exact En|].
  split; [vm_compute in Hs; inversion Hs; subst; vm_compute; reflexivity|].
  split; [exact Hne|].
  assert (es = entries_of (Dir
            [(U "旅行", Dir
               [(U "Z", Dir [(U "z.bmp", File)]);
                (U "2025-08 Hiking", Dir [(U "x.gif", File)]);
                (U "天安门 2025 年 8 月 24 日",
                 Dir [(U "b.JPG", File); (U "a.png", File); (U "n.txt", File)]);
                (U "notes", Dir [(U "readme.txt", File)])]);
             (U "drafts", Dir [(U "todo", Dir [(U "list.txt", File)])])])) as Ees.
  { vm_compute in Hl. inversion Hl; subst. vm_compute. reflexivity. }
  assert (NoDup (map fst es)) as Nes.
  { rewrite Ees. vm_compute. repeat constructor; simpl; intuition discriminate. }
  assert (ces = [(U "Z", Dir [(U "z.bmp", File)]);
                 (U "2025-08 Hiking", Dir [(U "x.gif", File)]);
                 (U "天安门 2025 年 8 月 24 日",
                  Dir [(U "b.JPG", File); (U "a.png", File); (U "n.txt", File)]);
                 (U "notes", Dir [(U "readme.txt", File)])]) as Eces.
  { rewrite En, Ees in Hin. vm_compute in Hin.
    destruct Hin as [Hin|[Hin|[]]]; [|discriminate Hin].
    inversion Hin; subst. vm_compute. reflexivity. }
  split.
  - apply (Hnotes ltac:(rewrite Eces; vm_compute;
                         repeat constructor; simpl; intuition discriminate)
             (U "notes") [(U "readme.txt", File)]).
    + rewrite Eces. vm_compute. tauto.
    + intros i Hi. vm_compute in Hi. destruct Hi as [Hi|[]].
      inversion Hi; subst. vm_compute. reflexivity.
  - apply (Hdrafts Nes (U "drafts") [(U "todo", Dir [(U "list.txt", File)])]).
    + rewrite Ees. vm_compute. tauto.
    + intros folder aes i H1 H2. vm_compute in H1. destruct H1 as [H1|[]].
      inversion H1; subst. vm_compute in H2. destruct H2 as [H2|[]].
      inversion H2; subst. vm_compute. reflexivity.
    + left; reflexivity.
Defined.

(** X8: whatever a scan reports is on disk: a category is a directory of
    the images root, an album a directory of its category, the images of
    an album are exactly the regular files of that directory that have an
    allowed extension, and title and date are parsed from the folder
    name. *)
Theorem scan_reports_the_tree fs root cats c a :
  _scan_once fs root = Ok cats -> In c cats -> In a (Category.albums c) ->
  exists es ces aes,
    lookup fs root = Some (Dir es) /\
    In (Category.name c, Dir ces) es /\
    In (Album.folder a, Dir aes) ces /\
    (forall i, In i (Album.images a) <-> In (i, File) aes /\ allowed_ext i = true) /\
    (Album.title a, Album.date a) = parse_title_date (Album.folder a).
Proof.
  intros Hs Hc Ha.
  destruct (scan_once_dirs _ _ _ _ Hs Hc) as (es & d & Hl & Hd & _ & ->).
  simpl in *. apply sorted_dirs_In in Hd. destruct Hd as [Hd Hdir].
  unfold albums_of, sort_albums in Ha. rewrite sort_by_In in Ha.
  apply scan_albums_In in Ha. destruct Ha as (e & He & _ & ->). simpl.
  apply sorted_dirs_In in He. destruct He as [He Hedir].
  exists es, (entries_of (snd d)), (entries_of (snd e)).
  splits; auto.
  - rewrite <- dir_entry by exact Hdir. exact Hd.
  - rewrite <- dir_entry by exact Hedir. exact He.
  - intros i. apply images_of_In.
  - destruct (parse_title_date (fst e)); reflexivity.
Qed.

Lemma scan_reports_the_tree_witness :
  exists c a es ces aes,
    _scan_once fs1 root1 = Ok [c] /\ nth_error (Category.albums c) 0 = Some a /\
    lookup fs1 root1 = Some (Dir es) /\
    In (Category.name c, Dir ces) es /\
    In (Album.folder a, Dir aes) ces /\
    (forall i, In i (Album.images a) <-> In (i, File) aes /\ allowed_ext i = true) /\
    (Album.title a, Album.date a) = parse_title_date (Album.folder a).
Proof.
  assert (exists c a, _scan_once fs1 root1 = Ok [c]
                      /\ nth_error (Category.albums c) 0 = Some a) as (c & a & Hs & Ha).
  { do 2 eexists. split; vm_compute; reflexivity. }
  destruct (scan_reports_the_tree fs1 root1 [c] c a Hs (or_introl eq_refl))
    as (es & ces & aes & H).
  { eapply nth_error_In; exact Ha. }
  exists c, a, es, ces, aes. tauto.
Defined.

Lemma scan_albums_complete cat dirs d :
  In d dirs -> images_of d <> [] ->
  In (Album.mk cat (fst d) (fst (parse_title_date (fst d)))
        (snd (parse_title_date (fst d)))
        (replace_backslash (cat ++ U "/" ++ fst d)) (images_of d))
     (scan_albums cat dirs).
Proof.
  induction dirs as [|e dirs IH]; simpl; [tauto|].
  fold (images_of e). intros [->|H] Hne.
  - destruct (images_of d) eqn:E; [congruence|]. simpl.
    destruct (parse_title_date (fst d)); simpl. left; reflexivity.
  - destruct (images_of e); simpl; [apply IH; assumption|].
    destruct (parse_title_date (fst e)). right. apply IH; assumption.
Qed.

Lemma scan_categories_complete dirs d :
  In d dirs -> albums_of d <> [] ->
  In (Category.mk (fst d) (fst d) (albums_of d)) (scan_categories dirs).
Proof.
  induction dirs as [|e dirs IH]; simpl; [tauto|].
  fold (albums_of e). intros [->|H] Hne.
  - destruct (albums_of d) eqn:E; [congruence|]. left; reflexivity.
  - destruct (albums_of e); simpl; [|right]; apply IH; assumption.
Qed.

(** X9: nothing that qualifies is left out: an image file with an allowed
    extension, directly in a directory of a directory of the images root,
    is an image of an album of that name in a category of that name. *)
Theorem scan_misses_nothing fs root es c ces a aes i :
  lookup fs root = Some (Dir es) ->
  In (c, Dir ces) es -> In (a, Dir aes) ces -> In (i, File) aes ->
  allowed_ext i = true ->
  exists cats cat alb,
    _scan_once fs root = Ok cats /\
    In cat cats /\ Category.name cat = c /\
    In alb (Category.albums cat) /\ Album.category alb = c /\
    Album.folder alb = a /\ In i (Album.images alb).
Proof.
  intros Hl Hc Ha Hi Hext. unfold _scan_once. rewrite Hl.
  assert (In i (images_of (a, Dir aes))) as Himg by (apply images_of_In; auto).
  assert (images_of (a, Dir aes) <> []) as Hne
    by (intros E; rewrite E in Himg; exact Himg).
  assert (In (a, Dir aes) (sorted_dirs ces)) as Ha' by (apply sorted_dirs_In; auto).
  pose proof (scan_albums_complete c _ _ Ha' Hne) as Halb.
  assert (In (c, Dir ces) (sorted_dirs es)) as Hc' by (apply sorted_dirs_In; auto).
  set (alb := Album.mk c a (fst (parse_title_date a)) (snd (parse_title_date a))
                (replace_backslash (c ++ U "/" ++ a)) (images_of (a, Dir aes))) in *.
  assert (In alb (albums_of (c, Dir ces))) as Halb'.
  { unfold albums_of, sort_albums. rewrite sort_by_In. exact Halb. }
  assert (albums_of (c, Dir ces) <> []) as Hne'
    by (intros E; rewrite E in Halb'; exact Halb').
  pose proof (scan_categories_complete _ _ Hc' Hne') as Hcat.
  eexists _, (Category.mk c c (albums_of (c, Dir ces))), alb.
  splits; try reflexivity; auto.
  rewrite sort_by_In. exact Hcat.
Qed.

Lemma scan_misses_nothing_witness :
  exists cats cat alb,
    _scan_once fs1 root1 = Ok cats /\
    In cat cats /\ Category.name cat = U "旅行" /\
    In alb (Category.albums cat) /\ Album.category alb = U "旅行" /\
    Album.folder alb = U "Z" /\ In (U "z.bmp") (Album.images alb).
Proof.
  eapply (scan_misses_nothing fs1 root1);
    [vm_compute; reflexivity | left; reflexivity | left; reflexivity
    | left; reflexivity | vm_compute; reflexivity].
Defined.

Lemma total_images_bound l :
  Forall (fun a => Album.images a <> []) l ->
  (length l <= fold_right (fun a n => length (Album.images a) + n) 0 l)%nat.
Proof.
  induction 1 as [|a l Ha _ IH]; simpl; [lia|].
  destruct (Album.images a); [congruence | simpl; lia].
Qed.

(** X10: a category of a scan counts at least one album and at least as
    many images as albums, and its cover is the cover of its first album:
    the album's relative path, a slash and the album's first image. *)
Theorem category_totals_and_cover fs root cats c :
  _scan_once fs root = Ok cats -> In c cats ->
  (1 <= Category.total_albums c <= Category.total_images c)%nat /\
  exists a rest i imgs,
    Category.albums c = a :: rest /\ Album.images a = i :: imgs /\
    Category.cover_relfile c = Some (Album.rel_dir a ++ U "/" ++ i).
Proof.
  intros Hs Hc.
  destruct (scan_once_In _ _ _ _ Hs Hc) as (d & Hne & ->).
  unfold Category.total_albums, Category.total_images, Category.cover_relfile.
  simpl.
  assert (Forall (fun a => Album.images a <> []) (albums_of d)) as Himgs.
  { apply Forall_forall. intros a Ha.
    destruct (album_of_category _ _ Ha) as (e & He & ->). exact He. }
  split.
  - split; [|apply total_images_bound; exact Himgs].
    destruct (albums_of d); [congruence | simpl; lia].
  - destruct (albums_of d) as [|a rest]; [congruence|].
    inversion Himgs as [|? ? Ha _]; subst.
    destruct (Album.images a) as [|i imgs] eqn:E; [congruence|].
    exists a, rest, i, imgs. splits; auto.
    simpl. unfold Album.cover_relfile. rewrite E.
    change (U "/") with [47].
    destruct (Album.rel_dir a); reflexivity.
Qed.

Lemma category_totals_and_cover_witness :
  exists c,
    _scan_once fs1 root1 = Ok [c] /\
    Category.total_albums c = 3%nat /\ Category.total_images c = 4%nat /\
    Category.cover_relfile c = Some (U "旅行/天安门 2025 年 8 月 24 日/a.png") /\
    (1 <= Category.total_albums c <= Category.total_images c)%nat.
Proof.
  eexists. split; [vm_compute; reflexivity|].
  split; [vm_compute; reflexivity|]. split; [vm_compute; reflexivity|].
  split; [vm_compute; reflexivity|].
  eapply (category_totals_and_cover fs1 root1);
    [vm_compute; reflexivity | left; reflexivity].
Defined.

(** ** What the cache keeps *)

Lemma get_catalog_cases fs root now w :
  get_catalog fs root now w = (Ok (cache_data w), w) /\
    expired now w = false /\ deref w (cache_data w) <> []
  \/ (exists cats,
        _scan_once fs root = Ok cats /\
        get_catalog fs root now w
        = (Ok (length (store w)), mkworld (store w ++ [cats]) now (length (store w))))
  \/ (exists e, _scan_once fs root = Raise e /\ get_catalog fs root now w = (Raise e, w)).
Proof.
  unfold get_catalog.
  destruct (expired now w) eqn:E1; simpl.
  - destruct (_scan_once fs root) as [cats|e]; [right; left | right; right]; eauto.
  - destruct (deref w (cache_data w)) eqn:E2; simpl.
    + destruct (_scan_once fs root) as [cats|e]; [right; left | right; right]; eauto.
    + left. splits; auto; discriminate.
Qed.

(** X11: a call never changes a catalog it has handed out: the store only
    grows, every earlier reference keeps its catalog, and the reference a
    successful call returns is the one the cache then holds, which is
    always a reference of the store. *)
Theorem get_catalog_keeps_store fs root now w res w' :
  (cache_data w < length (store w))%nat ->
  get_catalog fs root now w = (res, w') ->
  (exists ext, store w' = store w ++ ext) /\
  (forall r, (r < length (store w))%nat -> deref w' r = deref w r) /\
  (cache_data w' < length (store w'))%nat /\
  (forall r, res = Ok r -> r = cache_data w').
Proof.
  intros Hv H.
  destruct (get_catalog_cases fs root now w)
    as [(E & _)|[(cats & _ & E)|(e & _ & E)]]; rewrite E in H;
    inversion H; subst; clear H.
  - splits; auto; [exists []; rewrite app_nil_r; reflexivity|].
    intros r e; inversion e; reflexivity.
  - simpl. splits.
    + eauto.
    + intros r Hr. unfold deref; simpl. apply app_nth1; exact Hr.
    + rewrite length_app; simpl; lia.
    + intros r e; inversion e; reflexivity.
  - splits; auto; [exists []; rewrite app_nil_r; reflexivity|].
    intros r Hr; discriminate.
Qed.

Lemma get_catalog_keeps_store_witness :
  exists r1 w1 r2 w2,
    get_catalog fs1 root1 1000 initial_world = (Ok r1, w1) /\
    get_catalog fs_empty_root root1 1010 w1 = (Ok r2, w2) /\
    r2 <> r1 /\ deref w2 r2 = [] /\ deref w2 r1 = deref w1 r1 /\ deref w1 r1 <> [].
Proof.
  assert (exists r1 w1, get_catalog fs1 root1 1000 initial_world = (Ok r1, w1))
    as (r1 & w1 & H1) by (do 2 eexists; vm_compute; reflexivity).
  assert (exists r2 w2, get_catalog fs_empty_root root1 1010 w1 = (Ok r2, w2))
    as (r2 & w2 & H2).
  { vm_compute in H1. inversion H1; subst. do 2 eexists. vm_compute; reflexivity. }
  exists r1, w1, r2, w2.
  destruct (get_catalog_keeps_store fs1 root1 1000 initial_world _ _
              ltac:(vm_compute; lia) H1) as (_ & _ & Hv1 & Hr1).
  destruct (get_catalog_keeps_store fs_empty_root root1 1010 w1 _ _ Hv1 H2)
    as (_ & Hkeep & _ & _).
  pose proof (Hr1 r1 eq_refl) as E1.
  vm_compute in H1. inversion H1; subst.
  vm_compute in H2. inversion H2; subst.
  splits;
    [reflexivity | reflexivity | vm_compute; discriminate | vm_compute; reflexivity
    | apply Hkeep; vm_compute; lia | vm_compute; discriminate].
Defined.

Lemma unchanged_tree_step fs root cats now w :
  _scan_once fs root = Ok cats ->
  deref w (cache_data w) = [] \/ deref w (cache_data w) = cats ->
  exists r w',
    get_catalog fs root now w = (Ok r, w') /\ deref w' r = cats /\
    deref w' (cache_data w') = cats.
Proof.
  intros Hs Hw.
  destruct (get_catalog_cases fs root now w)
    as [(E & _ & Hne)|[(cats' & Hs' & E)|(e & Hs' & _)]].
  - exists (cache_data w), w. destruct Hw as [Hw|Hw]; [congruence|]. auto.
  - rewrite Hs in Hs'. inversion Hs'; subst cats'.
    do 2 eexists. split; [exact E|]. unfold deref; simpl.
    rewrite deref_new. auto.
  - rewrite Hs in Hs'. discriminate.
Qed.

Lemma unchanged_tree_calls fs root cats times w :
  _scan_once fs root = Ok cats ->
  deref w (cache_data w) = [] \/ deref w (cache_data w) = cats ->
  deref (calls fs root times w) (cache_data (calls fs root times w)) = []
  \/ deref (calls fs root times w) (cache_data (calls fs root times w)) = cats.
Proof.
  intros Hs. revert w. induction times as [|t ts IH]; simpl; intros w Hw; [exact Hw|].
  apply IH.
  destruct (unchanged_tree_step fs root cats t w Hs Hw) as (r & w' & -> & _ & H).
  right; exact H.
Qed.

(** X12: over an unchanged tree the cache cannot be told from a scan: from
    process start, after any calls at any times, a call returns the
    catalog that a scan of the tree gives. *)
Theorem unchanged_tree_same_catalog fs root cats times now :
  _scan_once fs root = Ok cats ->
  exists r w',
    get_catalog fs root now (calls fs root times initial_world) = (Ok r, w') /\
    deref w' r = cats.
Proof.
  intros Hs.
  destruct (unchanged_tree_step fs root cats now (calls fs root times initial_world) Hs)
    as (r & w' & E & D & _).
  - apply unchanged_tree_calls; [exact Hs | left; reflexivity].
  - eauto.
Qed.

Lemma unchanged_tree_same_catalog_witness :
  exists cats r w',
    _scan_once fs1 root1 = Ok cats /\
    get_catalog fs1 root1 1003 (calls fs1 root1 times1 initial_world) = (Ok r, w') /\
    deref w' r = cats.
Proof.
  assert (exists cats, _scan_once fs1 root1 = Ok cats) as (cats & Hs)
    by (eexists; vm_compute; reflexivity).
  destruct (unchanged_tree_same_catalog fs1 root1 cats times1 1003 Hs)
    as (r & w' & H1 & H2).
  exists cats, r, w'. auto.
Defined.

Lemma not_a_directory_calls fs root n times :
  lookup fs root = Some n -> is_dir n = false ->
  calls fs root times initial_world = initial_world.
Proof.
  intros Hl Hn. induction times as [|t ts IH]; simpl; [reflexivity|].
  unfold get_catalog, _scan_once. rewrite Hl.
  destruct n; try discriminate; simpl; rewrite orb_true_r; exact IH.
Qed.

(** X13: when the images root exists and is not a directory, every call
    from process start raises [NotADirectoryError], the index page with
    it, and the cache stays as it was at start. *)
Theorem root_not_a_directory fs root n times now :
  lookup fs root = Some n -> is_dir n = false ->
  get_catalog fs root now (calls fs root times initial_world)
  = (Raise NotADirectoryError, initial_world) /\
  index fs root now (calls fs root times initial_world)
  = (Raise NotADirectoryError, initial_world).
Proof.
  intros Hl Hn. rewrite (not_a_directory_calls fs root n times Hl Hn).
  unfold index, get_catalog, _scan_once. rewrite Hl.
  destruct n; try discriminate; simpl; rewrite orb_true_r; auto.
Qed.

Lemma root_not_a_directory_witness :
  get_catalog fs_root_is_file root1 1003 (calls fs_root_is_file root1 times1 initial_world)
  = (Raise NotADirectoryError, initial_world) /\
  index fs_root_is_file root1 1003 (calls fs_root_is_file root1 times1 initial_world)
  = (Raise NotADirectoryError, initial_world).
Proof.
  apply (root_not_a_directory fs_root_is_file root1 File); reflexivity.
Defined.

(** ** Pages *)

Lemma find_category_spec cats category :
  match find_category cats category with
  | Some c => In c cats /\ Category.name c = category
  | None => forall c, In c cats -> Category.name c <> category
  end.
Proof.
  unfold find_category.
  destruct (find (fun c => str_eqb (Category.name c) category) cats) as [c|] eqn:E.
  - apply find_some in E. destruct E as [H1 H2]. apply str_eqb_eq in H2. auto.
  - intros c Hc. apply (find_none _ _ E) in Hc. apply str_eqb_neq in Hc. exact Hc.
Qed.

Lemma find_album_spec c album :
  match find_album c album with
  | Some a => In a (Category.albums c) /\ Album.folder a = album
  | None => forall a, In a (Category.albums c) -> Album.folder a <> album
  end.
Proof.
  unfold find_album.
  destruct (find (fun a => str_eqb (Album.folder a) album) (Category.albums c))
    as [a|] eqn:E.
  - apply find_some in E. destruct E as [H1 H2]. apply str_eqb_eq in H2. auto.
  - intros a Ha. apply (find_none _ _ E) in Ha. apply str_eqb_neq in Ha. exact Ha.
Qed.

(** X14: a page shows what was asked for: a category page is a category of
    the catalog with the requested name, an album page an album of that
    category with the requested folder name, and the category page is not
    found exactly when the catalog has no category of that name. *)
Theorem pages_match_request category album fs root now w r w' :
  get_catalog fs root now w = (Ok r, w') ->
  (view_category category fs root now w = (Ok Page404, w') <->
   forall c, In c (deref w' r) -> Category.name c <> category) /\
  (forall cat,
     view_category category fs root now w = (Ok (CategoryPage cat), w') ->
     In cat (deref w' r) /\ Category.name cat = category) /\
  (forall cat alb,
     view_album category album fs root now w = (Ok (AlbumPage cat alb), w') ->
     In cat (deref w' r) /\ Category.name cat = category /\
     In alb (Category.albums cat) /\ Album.folder alb = album).
Proof.
  intros Hg. unfold view_category, view_album. rewrite Hg.
  pose proof (find_category_spec (deref w' r) category) as Hc.
  destruct (find_category (deref w' r) category) as [c|].
  - destruct Hc as [Hc1 Hc2]. splits.
    + split; [discriminate|]. intros H. destruct (H c Hc1 Hc2).
    + intros cat e; inversion e; subst; auto.
    + intros cat alb. pose proof (find_album_spec c album) as Ha.
      destruct (find_album c album) as [a|]; [|discriminate].
      intros e; inversion e; subst. tauto.
  - splits.
    + split; [intros _; exact Hc | reflexivity].
    + intros cat e; discriminate.
    + intros cat alb e; discriminate.
Qed.

Lemma pages_match_request_witness :
  exists r w',
    get_catalog fs1 root1 1000 initial_world = (Ok r, w') /\
    view_category (U "drafts") fs1 root1 1000 initial_world = (Ok Page404, w') /\
    forall c, In c (deref w' r) -> Category.name c <> U "drafts".
Proof.
  assert (exists r w', get_catalog fs1 root1 1000 initial_world = (Ok r, w'))
    as (r & w' & Hg) by (do 2 eexists; vm_compute; reflexivity).
  exists r, w'. split; [exact Hg|].
  destruct (pages_match_request (U "drafts") (U "todo") fs1 root1 1000
              initial_world r w' Hg) as (H & _).
  assert (view_category (U "drafts") fs1 root1 1000 initial_world = (Ok Page404, w')) as E.
  { vm_compute in Hg. inversion Hg; subst. vm_compute; reflexivity. }
  split; [exact E | apply H; exact E].
Defined.

(** *** Names are distinct *)

Lemma wf_tree_dir (es : list (str * node)) :
  wf_tree (Dir es) ->
  NoDup (map fst es) /\ Forall wf_comp (map fst es) /\
  forall e, In e es -> wf_tree (snd e).
Proof.
  simpl. intros (H1 & H2 & H3). splits; auto.
  clear H1 H2. induction es as [|[c n] es IH]; simpl; [tauto|].
  destruct H3 as [Hn Hs]. intros e [<-|He]; [exact Hn | apply IH; assumption].
Qed.

Lemma find_entry (es : list (str * node)) c n :
  NoDup (map fst es) -> In (c, n) es ->
  find (fun e => str_eqb (fst e) c) es = Some (c, n).
Proof.
  induction es as [|[c' n'] es IH]; simpl; [tauto|].
  intros Hnd [e|H]; inversion Hnd; subst.
  - inversion e; subst.
    assert (str_eqb c c = true) as -> by (apply str_eqb_eq; reflexivity). reflexivity.
  - destruct (str_eqb c' c) eqn:E; [|apply IH; assumption].
    apply str_eqb_eq in E. subst c'. exfalso. apply H2.
    apply in_map_iff. exists (c, n). auto.
Qed.

Lemma lookup_app n p q :
  lookup n (p ++ q) = match lookup n p with Some n' => lookup n' q | None => None end.
Proof.
  revert n; induction p as [|c p IH]; simpl; intros n; [reflexivity|].
  destruct n as [| |es]; try reflexivity.
  destruct (find (fun e => str_eqb (fst e) c) es); [apply IH | reflexivity].
Qed.

Lemma lookup_wf n p n' : wf_tree n -> lookup n p = Some n' -> wf_tree n'.
Proof.
  revert n; induction p as [|c p IH]; simpl; intros n Hn H.
  - inversion H; subst; exact Hn.
  - destruct n as [| |es]; try discriminate.
    destruct (find (fun e => str_eqb (fst e) c) es) as [e|] eqn:E; [|discriminate].
    apply find_some in E. destruct E as [E _].
    apply (IH (snd e)); [|exact H].
    apply (wf_tree_dir es Hn); exact E.
Qed.

Lemma insert_by_perm {A} (leb : A -> A -> bool) x l :
  Permutation (insert_by leb x l) (x :: l).
Proof.
  induction l as [|y l IH]; simpl; [reflexivity|].
  destruct (leb x y); [reflexivity|].
  rewrite IH. apply perm_swap.
Qed.

Lemma sort_by_perm {A} (leb : A -> A -> bool) l : Permutation (sort_by leb l) l.
Proof.
  induction l as [|x l IH]; simpl; [reflexivity|].
  rewrite insert_by_perm. constructor; exact IH.
Qed.

Lemma NoDup_map_sort {A B} (f : A -> B) leb l :
  NoDup (map f l) -> NoDup (map f (sort_by leb l)).
Proof.
  intros H. eapply Permutation_NoDup; [|exact H].
  apply Permutation_map. symmetry. apply sort_by_perm.
Qed.

Lemma NoDup_map_filter {A B} (f : A -> B) p l :
  NoDup (map f l) -> NoDup (map f (filter p l)).
Proof.
  induction l as [|x l IH]; simpl; [auto|].
  intros H; inversion H; subst.
  destruct (p x); simpl; [|apply IH; assumption].
  constructor; [|apply IH; assumption].
  intros Hin. apply H2. apply in_map_iff in Hin. destruct Hin as (y & E & Hy).
  apply filter_In in Hy. apply in_map_iff. exists y. tauto.
Qed.

Lemma sorted_dirs_NoDup (es : list (str * node)) : NoDup (map fst es) -> NoDup (map fst (sorted_dirs es)).
Proof. intros H. unfold sorted_dirs. apply NoDup_map_sort, NoDup_map_filter, H. Qed.

Lemma scan_albums_folders cat (dirs : list (str * node)) :
  NoDup (map fst dirs) -> NoDup (map Album.folder (scan_albums cat dirs)).
Proof.
  induction dirs as [|d dirs IH]; simpl; [constructor|].
  intros H; inversion H; subst.
  destruct (is_empty _); [apply IH; assumption|].
  destruct (parse_title_date (fst d)). simpl.
  constructor; [|apply IH; assumption].
  intros Hin. apply in_map_iff in Hin. destruct Hin as (a & E & Ha).
  apply scan_albums_In in Ha. destruct Ha as (e & He & _ & ->). simpl in E.
  apply H2. apply in_map_iff. exists e. auto.
Qed.

Lemma scan_categories_names (dirs : list (str * node)) :
  NoDup (map fst dirs) -> NoDup (map Category.name (scan_categories dirs)).
Proof.
  induction dirs as [|d dirs IH]; simpl; [constructor|].
  intros H; inversion H; subst.
  destruct (is_empty _); [apply IH; assumption|]. simpl.
  constructor; [|apply IH; assumption].
  intros Hin. apply in_map_iff in Hin. destruct Hin as (c & E & Hc).
  apply scan_categories_In in Hc. destruct Hc as (e & He & _ & ->). simpl in E.
  apply H2. apply in_map_iff. exists e. auto.
Qed.

Lemma find_unique {A} (f : A -> str) l x :
  NoDup (map f l) -> In x l ->
  find (fun y => str_eqb (f y) (f x)) l = Some x.
Proof.
  induction l as [|y l IH]; simpl; [tauto|].
  intros Hnd [->|H]; inversion Hnd; subst.
  - assert (str_eqb (f x) (f x) = true) as -> by (apply str_eqb_eq; reflexivity).
    reflexivity.
  - destruct (str_eqb (f y) (f x)) eqn:E; [|apply IH; assumption].
    apply str_eqb_eq in E. exfalso. apply H2. rewrite E. apply in_map; exact H.
Qed.

(** X15: in the scan of a tree whose directories have distinct entry
    names, category names are distinct and so are the folder names within
    a category: looking up a category by its name, and an album by its
    folder name, gives back that category and that album. *)
Theorem catalog_lookup_round_trip fs root cats c a :
  wf_tree fs -> _scan_once fs root = Ok cats ->
  In c cats -> In a (Category.albums c) ->
  NoDup (map Category.name cats) /\
  NoDup (map Album.folder (Category.albums c)) /\
  find_category cats (Category.name c) = Some c /\
  find_album c (Album.folder a) = Some a.
Proof.
  intros Hwf Hs Hc Ha.
  assert (NoDup (map Category.name cats)) as Hn1.
  { unfold _scan_once in Hs.
    destruct (lookup fs root) as [[| |es]|] eqn:El; try discriminate;
      inversion Hs; subst; [|constructor].
    apply NoDup_map_sort, scan_categories_names, sorted_dirs_NoDup.
    apply (wf_tree_dir es). eapply lookup_wf; eassumption. }
  assert (NoDup (map Album.folder (Category.albums c))) as Hn2.
  { destruct (scan_once_dirs _ _ _ _ Hs Hc) as (es & d & Hl & Hd & _ & ->). simpl.
    unfold albums_of, sort_albums.
    apply NoDup_map_sort, scan_albums_folders, sorted_dirs_NoDup.
    apply sorted_dirs_In in Hd. destruct Hd as [Hd Hdir].
    pose proof (lookup_wf _ _ _ Hwf Hl) as Hes.
    pose proof (proj2 (proj2 (wf_tree_dir es Hes)) d Hd) as Hwd.
    rewrite (dir_entry d Hdir) in Hwd. simpl in Hwd.
    apply (wf_tree_dir _ Hwd). }
  splits; auto.
  - apply (find_unique Category.name); assumption.
  - apply (find_unique Album.folder); assumption.
Qed.

Ltac solve_wf :=
  vm_compute; repeat (first [split | constructor]);
  simpl; intuition discriminate.

Lemma fs1_wf : wf_tree fs1.
Proof. solve_wf. Qed.

Lemma catalog_lookup_round_trip_witness :
  exists c a,
    _scan_once fs1 root1 = Ok [c] /\ nth_error (Category.albums c) 1 = Some a /\
    Album.folder a = U "2025-08 Hiking" /\
    find_category [c] (U "旅行") = Some c /\
    find_album c (U "2025-08 Hiking") = Some a.
Proof.
  assert (exists c a, _scan_once fs1 root1 = Ok [c]
                      /\ nth_error (Category.albums c) 1 = Some a) as (c & a & Hs & Ha).
  { do 2 eexists. split; vm_compute; reflexivity. }
  destruct (catalog_lookup_round_trip fs1 root1 [c] c a fs1_wf Hs (or_introl eq_refl))
    as (_ & _ & H1 & H2).
  { eapply nth_error_In; exact Ha. }
  exists c, a.
  assert (Category.name c = U "旅行" /\ Album.folder a = U "2025-08 Hiking") as [E1 E2].
  { vm_compute in Hs. inversion Hs; subst. vm_compute in Ha. inversion Ha; subst.
    split; vm_compute; reflexivity. }
  rewrite <- E1 at 1. rewrite <- E2 at 2. auto.
Defined.

(** ** Every image of the catalog can be fetched *)

Lemma lookup_prefix n p q n' :
  lookup n (p ++ q) = Some n' -> exists n0, lookup n p = Some n0.
Proof.
  rewrite lookup_app. destruct (lookup n p) as [n0|]; [eauto | discriminate].
Qed.

(** A path that names an entry resolves to itself. *)
Lemma resolve_found fs p n :
  Forall wf_comp p -> lookup fs p = Some n -> resolve fs p = Ok p.
Proof.
  unfold resolve.
  assert (forall comps stack,
            Forall wf_comp comps -> lookup fs (rev stack ++ comps) = Some n ->
            resolve_go fs stack comps = Ok (rev stack ++ comps)) as H.
  { induction comps as [|c comps IH]; simpl; intros stack Hp Hl.
    - rewrite app_nil_r; reflexivity.
    - inversion Hp as [|? ? Hc Hp']; subst.
      assert (str_eqb c dotdot = false) as -> by (apply str_eqb_neq; apply Hc).
      change (rev stack ++ c :: comps) with (rev stack ++ [c] ++ comps) in Hl.
      rewrite app_assoc in Hl.
      destruct (lookup_prefix _ _ _ _ Hl) as [n0 Hn0].
      unfold stat. rewrite Hn0.
      rewrite (IH (c :: stack) Hp').
      + simpl. rewrite <- app_assoc. reflexivity.
      + simpl. exact Hl. }
  intros Hp Hl. apply (H p [] Hp Hl).
Qed.

Lemma relative_to_prefix root rel : relative_to (root ++ rel) root = Some rel.
Proof.
  induction root as [|r root IH]; simpl; [reflexivity|].
  assert (str_eqb r r = true) as -> by (apply str_eqb_eq; reflexivity). exact IH.
Qed.

Lemma parts_join rel :
  Forall wf_comp rel -> rel <> [] -> parts (join_slash rel) = rel.
Proof.
  intros Hw Hne. unfold parts. rewrite split_join by assumption. clear Hne.
  induction Hw as [|c rel Hc _ IH]; [reflexivity|]. simpl.
  destruct Hc as (H1 & H2 & _).
  destruct c as [|x c]; [congruence|]. simpl is_empty.
  assert (str_eqb (x :: c) [46] = false) as -> by (apply str_eqb_neq; exact H2).
  simpl. f_equal. exact IH.
Qed.

Lemma name_of_app (p : path) c : name_of (p ++ [c]) = c.
Proof. unfold name_of. apply last_last. Qed.

(** Any request for a well-formed relative path without backslash whose
    last component has an allowed extension and which names a regular
    file under the root is served as that file. *)
Lemma media_serves_file fs root rel i :
  Forall wf_comp root -> Forall wf_comp (rel ++ [i]) ->
  Forall (fun c => ~ In 92 c) (rel ++ [i]) ->
  allowed_ext i = true ->
  lookup fs (root ++ rel ++ [i]) = Some File ->
  media fs root (join_slash (rel ++ [i])) = Served (root ++ rel ++ [i]).
Proof.
  intros Hroot Hrel Hb Hext Hl.
  assert (rel ++ [i] <> []) as Hne by (destruct rel; discriminate).
  unfold media, joinpath.
  rewrite (join_slash_not_abs _ Hrel), (parts_join _ Hrel Hne).
  rewrite (resolve_found fs _ File) by (auto; apply Forall_app; auto).
  rewrite relative_to_prefix.
  rewrite app_assoc, name_of_app, <- app_assoc.
  fold (allowed_ext i). rewrite Hext. unfold exists_, stat. rewrite Hl. simpl.
  unfold send_from_directory. rewrite (safe_join_plain root _ Hrel Hb), Hl.
  reflexivity.
Qed.

(** X16: every image that a scan lists can be fetched through the media
    route under the path the pages build for it, the album's relative path,
    a slash and the image name, when the entry names of the tree are
    distinct and well formed and the three names hold no backslash; the
    file served is that image. *)
Theorem listed_image_is_served fs root cats c a i :
  wf_tree fs -> Forall wf_comp root ->
  _scan_once fs root = Ok cats -> In c cats -> In a (Category.albums c) ->
  In i (Album.images a) ->
  ~ In 92 (Category.name c) -> ~ In 92 (Album.folder a) -> ~ In 92 i ->
  media fs root (Album.rel_dir a ++ U "/" ++ i)
  = Served (root ++ [Category.name c; Album.folder a; i]) /\
  lookup fs (root ++ [Category.name c; Album.folder a; i]) = Some File.
Proof.
  intros Hwf Hroot Hs Hc Ha Hi Hb1 Hb2 Hb3.
  destruct (scan_once_dirs _ _ _ _ Hs Hc) as (es & d & Hl & Hd & _ & ->).
  simpl in *. apply sorted_dirs_In in Hd. destruct Hd as [Hd Hdir].
  unfold albums_of, sort_albums in Ha. rewrite sort_by_In in Ha.
  apply scan_albums_In in Ha. destruct Ha as (e & He & _ & ->). simpl in *.
  apply sorted_dirs_In in He. destruct He as [He Hedir].
  apply images_of_In in Hi. destruct Hi as [Hi Hext].
  rewrite (dir_entry d Hdir) in Hd. rewrite (dir_entry e Hedir) in He.
  pose proof (lookup_wf _ _ _ Hwf Hl) as Wes.
  destruct (wf_tree_dir es Wes) as (N1 & F1 & S1).
  pose proof (S1 _ Hd) as Wd. cbn [snd] in Wd.
  destruct (wf_tree_dir _ Wd) as (N2 & F2 & S2).
  pose proof (S2 _ He) as We. cbn [snd] in We.
  destruct (wf_tree_dir _ We) as (N3 & F3 & _).
  assert (wf_comp (fst d)) as Wc1.
  { rewrite Forall_forall in F1. apply F1. apply in_map_iff. eexists; split; [|exact Hd]. reflexivity. }
  assert (wf_comp (fst e)) as Wc2.
  { rewrite Forall_forall in F2. apply F2. apply in_map_iff. eexists; split; [|exact He]. reflexivity. }
  assert (wf_comp i) as Wc3.
  { rewrite Forall_forall in F3. apply F3. apply in_map_iff. eexists; split; [|exact Hi]. reflexivity. }
  assert (lookup fs (root ++ [fst d; fst e; i]) = Some File) as Hfile.
  { rewrite lookup_app, Hl. simpl.
    rewrite (find_entry es _ _ N1 Hd). simpl.
    rewrite (find_entry _ _ _ N2 He). simpl.
    rewrite (find_entry _ _ _ N3 Hi). reflexivity. }
  split; [|exact Hfile].
  assert (replace_backslash (fst d ++ 47 :: fst e) ++ 47 :: i
          = join_slash ([fst d; fst e] ++ [i])) as ->.
  { rewrite replace_backslash_id.
    - simpl. rewrite <- !app_assoc. reflexivity.
    - rewrite in_app_iff. simpl. intros [H|[H|H]]; try tauto; discriminate. }
  apply (media_serves_file fs root [fst d; fst e] i); auto;
    simpl; repeat (apply Forall_cons; [assumption|]); apply Forall_nil.
Qed.

Lemma listed_image_is_served_witness :
  exists c a,
    _scan_once fs1 root1 = Ok [c] /\ nth_error (Category.albums c) 0 = Some a /\
    media fs1 root1 (U "旅行/天安门 2025 年 8 月 24 日/b.JPG")
    = Served (root1 ++ [U "旅行"; U "天安门 2025 年 8 月 24 日"; U "b.JPG"]).
Proof.
  assert (exists c a, _scan_once fs1 root1 = Ok [c]
                      /\ nth_error (Category.albums c) 0 = Some a) as (c & a & Hs & Ha).
  { do 2 eexists. split; vm_compute; reflexivity. }
  exists c, a. split; [exact Hs|]. split; [exact Ha|].
  assert (Forall wf_comp root1) as Hr.
  { vm_compute. repeat (first [split | constructor]); simpl; intuition discriminate. }
  assert (In a (Category.albums c)) as Hin by (eapply nth_error_In; exact Ha).
  assert (In (U "b.JPG") (Album.images a) /\ ~ In 92 (Category.name c)
          /\ ~ In 92 (Album.folder a) /\ ~ In 92 (U "b.JPG")
          /\ Album.rel_dir a ++ U "/" ++ U "b.JPG"
             = U "旅行/天安门 2025 年 8 月 24 日/b.JPG"
          /\ [Category.name c; Album.folder a; U "b.JPG"]
             = [U "旅行"; U "天安门 2025 年 8 月 24 日"; U "b.JPG"])
    as (H1 & H2 & H3 & H4 & H5 & H6).
  { vm_compute in Hs. inversion Hs; subst. vm_compute in Ha. inversion Ha; subst.
    vm_compute. repeat split; try reflexivity; try (intuition discriminate); auto. }
  destruct (listed_image_is_served fs1 root1 [c] c a (U "b.JPG") fs1_wf Hr Hs
              (or_introl eq_refl) Hin H1 H2 H3 H4) as [H _].
  rewrite H5, H6 in H. exact H.
Defined.

(** ** The printed date reads back *)

Lemma checked_range (chk : Z -> bool) (lo len z : Z) :
  forallb chk (map (fun n => lo + Z.of_nat n)%Z (seq 0 (Z.to_nat len))) = true ->
  (lo <= z < lo + len)%Z -> chk z = true.
Proof.
  intros H Hz. rewrite forallb_forall in H. apply H. apply in_map_iff.
  exists (Z.to_nat (z - lo)). split; [lia|]. apply in_seq. lia.
Qed.

Lemma year_text y :
  (1000 <= y <= 9999)%Z ->
  year_digits (str_of_int y) /\ int (str_of_int y) = Some y.
Proof.
  intros Hy.
  assert (year_digitsb (str_of_int y) && reads_back y = true) as H.
  { apply (checked_range (fun z => year_digitsb (str_of_int z) && reads_back z)
             1000 9000)%Z; [vm_compute; reflexivity | lia]. }
  apply andb_true_iff in H. destruct H as [H1 H2]. split.
  - apply year_digitsb_ok; exact H1.
  - unfold reads_back in H2. destruct (int (str_of_int y)); [|discriminate].
    apply Z.eqb_eq in H2. congruence.
Qed.

Lemma short_text m :
  (1 <= m <= 31)%Z ->
  short_digits (str_of_int m) /\ int (str_of_int m) = Some m.
Proof.
  intros Hm.
  assert (short_digitsb (str_of_int m) && reads_back m = true) as H.
  { apply (checked_range (fun z => short_digitsb (str_of_int z) && reads_back z)
             1 31)%Z; [vm_compute; reflexivity | lia]. }
  apply andb_true_iff in H. destruct H as [H1 H2]. split.
  - apply short_digitsb_ok; exact H1.
  - unfold reads_back in H2. destruct (int (str_of_int m)); [|discriminate].
    apply Z.eqb_eq in H2. congruence.
Qed.

Lemma days_in_month_le y m : (days_in_month y m <= 31)%Z.
Proof.
  unfold days_in_month.
  destruct (m =? 2)%Z; [destruct (is_leap y); lia|].
  destruct ((m =? 4) || (m =? 6) || (m =? 9) || (m =? 11))%Z; lia.
Qed.

Lemma dt_date_of_valid dt :
  valid_date dt -> dt_date (year dt) (month dt) (day dt) = Some dt.
Proof.
  destruct dt as [y m d]. unfold valid_date, dt_date. simpl. intros (Hy & Hm & Hd).
  assert ((1 <=? y) && (y <=? 9999) && (1 <=? m) && (m <=? 12)
          && (1 <=? d) && (d <=? days_in_month y m) = true)%Z as ->; [|reflexivity].
  rewrite !andb_true_iff, !Z.leb_le. lia.
Qed.

(** X17: a calendar date of a four-digit year, printed by the [cn_date]
    filter and put after or before a title as a folder name, is read back
    by [parse_title_date] as that title and that very date. *)
Theorem printed_date_parses_back t g0 dt :
  title_ok t -> blanks g0 -> valid_date dt -> (1000 <= year dt)%Z ->
  parse_title_date (t ++ g0 ++ jinja_cn_date (Some dt)) = (t, Some dt) /\
  parse_title_date (jinja_cn_date (Some dt) ++ g0 ++ t) = (t, Some dt).
Proof.
  intros Ht Hg Hv Hy.
  pose proof (dt_date_of_valid dt Hv) as Hdate.
  destruct Hv as (Hy' & Hm & Hd).
  pose proof (days_in_month_le (year dt) (month dt)) as Hle.
  destruct (year_text (year dt)) as [HY HiY]; [lia|].
  destruct (short_text (month dt)) as [HM HiM]; [lia|].
  destruct (short_text (day dt)) as [HD HiD]; [lia|].
  set (Y := str_of_int (year dt)) in *.
  set (M := str_of_int (month dt)) in *.
  set (D := str_of_int (day dt)) in *.
  assert (blanks [32]) as Hsp by (repeat constructor).
  assert (jinja_cn_date (Some dt)
          = Y ++ [32] ++ nian :: [32] ++ M ++ [32] ++ yue :: [32] ++ D ++ [32] ++ [ri])
    as ->.
  { unfold jinja_cn_date. fold Y M D.
    assert ((day dt =? 0)%Z = false) as -> by (apply Z.eqb_neq; lia).
    change (U " 年 ") with ([32] ++ nian :: [32]).
    change (U " 月") with ([32] ++ [yue]).
    change (U " ") with [32].
    change (U " 日") with ([32] ++ [ri]).
    rewrite <- !app_assoc. reflexivity. }
  rewrite <- Hdate.
  rewrite <- (to_date_dated Y M (Some D) (year dt) (month dt) (day dt)); auto;
    [|intros ds E; inversion E; subst; apply short_nonempty; exact HD].
  assert (date_text (Y ++ [32] ++ nian :: [32] ++ M ++ [32] ++ yue :: [32] ++ D
                       ++ [32] ++ [ri]) Y M (Some D)) as Htxt
    by (apply cn_ymd; assumption).
  assert (forall ds, Some D = Some ds -> short_digits ds) as HD'
    by (intros ds E; inversion E; subst; exact HD).
  pose proof (date_text_starts _ _ _ _ Htxt HY) as Hst.
  pose proof (date_text_ends _ _ _ _ Htxt HM HD') as Hen.
  pose proof (none_title_gap t g0 Ht Hg) as Hrest.
  assert (date_fwd cn_date
            (Y ++ [32] ++ nian :: [32] ++ M ++ [32] ++ yue :: [32] ++ D ++ [32] ++ [ri])
            Y M (Some D)) as Hf by (apply cn_ymd_fwd; auto).
  split; [apply cn_tf_parse; auto|].
  clearbody Y. destruct Y as [|y1 Y']; [destruct HY; discriminate|].
  apply (cn_df_parse _ y1
           (Y' ++ [32] ++ nian :: [32] ++ M ++ [32] ++ yue :: [32] ++ D ++ [32] ++ [ri])
           (y1 :: Y') M (Some D)); auto.
  - destruct HY as [HY _]; inversion HY; assumption.
  - apply (no_cn_year_cn_ymd_tail y1); auto.
Qed.

Lemma printed_date_parses_back_witness :
  parse_title_date (U "天安门 2025 年 8 月 24 日") = (U "天安门", Some (mkdate 2025 8 24)) /\
  parse_title_date (U "2025 年 8 月 24 日 天安门") = (U "天安门", Some (mkdate 2025 8 24)).
Proof.
  assert (title_ok (U "天安门")) as Ht by (apply title_okb_ok; vm_compute; reflexivity).
  assert (blanks (U " ")) as Hg by (apply all_forallb; vm_compute; reflexivity).
  assert (valid_date (mkdate 2025 8 24)) as Hv by (vm_compute; intuition discriminate).
  assert (1000 <= year (mkdate 2025 8 24))%Z as Hy by (simpl; lia).
  exact (printed_date_parses_back (U "天安门") (U " ") (mkdate 2025 8 24) Ht Hg Hv Hy).
Defined.

(** ** The images of an album *)

Lemma str_leb_refl a : str_leb a a = true.
Proof. destruct (str_leb_total a a); assumption. Qed.

(** X18: the images of an album of a scan are in ascending order of their
    names, the cover of the album is the image whose name comes first in
    that order, and no image is listed twice when the entry names of every
    directory of the tree are distinct. *)
Theorem images_in_name_order fs root cats c a :
  _scan_once fs root = Ok cats -> In c cats -> In a (Category.albums c) ->
  StronglySorted str_le (Album.images a) /\
  (exists i0, Album.cover_relfile a = Some (Album.rel_dir a ++ U "/" ++ i0) /\
              In i0 (Album.images a) /\
              forall i, In i (Album.images a) -> str_le i0 i) /\
  (wf_tree fs -> NoDup (Album.images a)).
Proof.
  intros Hs Hc Ha.
  destruct (scan_once_dirs _ _ _ _ Hs Hc) as (es & d & Hl & Hd & _ & ->).
  simpl in *. apply sorted_dirs_In in Hd. destruct Hd as [Hd Hdir].
  unfold albums_of, sort_albums in Ha. rewrite sort_by_In in Ha.
  apply scan_albums_In in Ha. destruct Ha as (e & He & Hne & ->). simpl.
  apply sorted_dirs_In in He. destruct He as [He Hedir].
  assert (StronglySorted str_le (images_of e)) as Hsorted.
  { apply (sort_by_sorted str_leb); [apply str_leb_total | apply str_leb_trans]. }
  splits.
  - exact Hsorted.
  - unfold Album.cover_relfile. simpl.
    destruct (images_of e) as [|i0 imgs]; [congruence|].
    exists i0. splits; [reflexivity | left; reflexivity |].
    intros i [<-|Hi]; [apply str_leb_refl|].
    inversion Hsorted as [|? ? _ Hall]; subst.
    rewrite Forall_forall in Hall. apply Hall; exact Hi.
  - intros Hwf.
    rewrite (dir_entry d Hdir) in Hd. rewrite (dir_entry e Hedir) in He.
    pose proof (lookup_wf _ _ _ Hwf Hl) as Wes.
    destruct (wf_tree_dir es Wes) as (_ & _ & S1).
    pose proof (S1 _ Hd) as Wd. cbn [snd] in Wd.
    destruct (wf_tree_dir _ Wd) as (_ & _ & S2).
    pose proof (S2 _ He) as We. cbn [snd] in We.
    destruct (wf_tree_dir _ We) as (N3 & _ & _).
    unfold images_of. eapply Permutation_NoDup; [symmetry; apply sort_by_perm|].
    apply NoDup_map_filter; exact N3.
Qed.

Lemma images_in_name_order_witness :
  exists c a,
    _scan_once fs1 root1 = Ok [c] /\ nth_error (Category.albums c) 0 = Some a /\
    Album.images a = [U "a.png"; U "b.JPG"] /\
    StronglySorted str_le (Album.images a) /\
    Album.cover_relfile a = Some (U "旅行/天安门 2025 年 8 月 24 日/a.png").
Proof.
  assert (exists c a, _scan_once fs1 root1 = Ok [c]
                      /\ nth_error (Category.albums c) 0 = Some a) as (c & a & Hs & Ha).
  { do 2 eexists. split; vm_compute; reflexivity. }
  exists c, a. split; [exact Hs|]. split; [exact Ha|].
  destruct (images_in_name_order fs1 root1 [c] c a Hs (or_introl eq_refl))
    as (H1 & _ & _); [eapply nth_error_In; exact Ha|].
  split; [|split; [exact H1|]];
    vm_compute in Hs; inversion Hs; subst; vm_compute in Ha; inversion Ha; subst;
    vm_compute; reflexivity.
Defined.

(** ** How old a served catalog can be *)

Lemma scanned_in_step root trace fs t w :
  scanned_in root trace w ->
  scanned_in root (trace ++ [(fs, t)]) (snd (get_catalog fs root t w)).
Proof.
  intros Hinv.
  destruct (get_catalog_cases fs root t w)
    as [(E & _)|[(cats & Es & E)|(e & _ & E)]]; rewrite E; simpl.
  - intros Hne. destruct (Hinv Hne) as (fs' & Hin & Hsc).
    exists fs'. split; [apply in_or_app; left; exact Hin | exact Hsc].
  - intros _. exists fs. unfold deref. simpl. rewrite deref_new.
    split; [apply in_or_app; right; left; reflexivity | exact Es].
  - intros Hne. destruct (Hinv Hne) as (fs' & Hin & Hsc).
    exists fs'. split; [apply in_or_app; left; exact Hin | exact Hsc].
Qed.

Lemma scanned_in_visits root trace : forall pre w,
  scanned_in root pre w -> scanned_in root (pre ++ trace) (visits root trace w).
Proof.
  induction trace as [|[fs t] trace IH]; simpl; intros pre w Hinv.
  - rewrite app_nil_r; exact Hinv.
  - change (pre ++ (fs, t) :: trace) with (pre ++ [(fs, t)] ++ trace).
    rewrite app_assoc. apply IH. apply scanned_in_step; exact Hinv.
Qed.

(** X19: whatever happens to the tree between the calls, the catalog a
    call returns is the scan of the tree as one of the calls so far, this
    one included, found it, and that call was made at most
    [CACHE_TTL_SECONDS] before this one. *)
Theorem catalog_is_recent root trace fs now r w' :
  get_catalog fs root now (visits root trace initial_world) = (Ok r, w') ->
  exists fs' t,
    In (fs', t) (trace ++ [(fs, now)]) /\
    _scan_once fs' root = Ok (deref w' r) /\
    (now - t <= CACHE_TTL_SECONDS)%Q.
Proof.
  intros H.
  assert (scanned_in root trace (visits root trace initial_world)) as Hinv.
  { apply (scanned_in_visits root trace [] initial_world). intros Hne.
    exfalso; apply Hne; reflexivity. }
  set (w := visits root trace initial_world) in *.
  destruct (get_catalog_cases fs root now w)
    as [(E & Hex & Hne)|[(cats & Es & E)|(e & _ & E)]]; rewrite E in H;
    inversion H; subst; clear H.
  - destruct (Hinv Hne) as (fs' & Hin & Hsc).
    exists fs'. eexists. splits.
    + apply in_or_app; left; exact Hin.
    + exact Hsc.
    + unfold expired in Hex. apply negb_false_iff in Hex.
      apply Qle_bool_iff; exact Hex.
  - exists fs, now. splits.
    + apply in_or_app; right; left; reflexivity.
    + unfold deref. simpl. rewrite deref_new. exact Es.
    + unfold Qminus. rewrite Qplus_opp_r. discriminate.
Qed.

Lemma catalog_is_recent_witness :
  exists r w',
    get_catalog fs_empty_root root1 1004
      (visits root1 [(fs1, 1000%Q); (fs_empty_root, 1003%Q)] initial_world) = (Ok r, w') /\
    deref w' r <> [] /\
    exists fs' t,
      In (fs', t) ([(fs1, 1000%Q); (fs_empty_root, 1003%Q)] ++ [(fs_empty_root, 1004%Q)]) /\
      _scan_once fs' root1 = Ok (deref w' r) /\
      (1004 - t <= CACHE_TTL_SECONDS)%Q.
Proof.
  assert (exists r w',
            get_catalog fs_empty_root root1 1004
              (visits root1 [(fs1, 1000%Q); (fs_empty_root, 1003%Q)] initial_world)
            = (Ok r, w')) as (r & w' & H) by (do 2 eexists; vm_compute; reflexivity).
  exists r, w'. split; [exact H|]. split.
  - vm_compute in H. inversion H; subst. vm_compute. discriminate.
  - exact (catalog_is_recent root1 [(fs1, 1000%Q); (fs_empty_root, 1003%Q)]
             fs_empty_root 1004 r w' H).
Defined.
